(** * qrake: geographic area weights by raking, verified against its source

    A shallow embedding of [src/src/qrake.py] (functions [get_mask], [rake],
    [gec] and [qrake], and the earlier loops [qrakeec] and [qrake_bak]) and
    the properties its specification states about them.

    Numbers are IEEE 754 binary64 values, as numpy's [float64]: Rocq's
    primitive [float].  NaN, the infinities, overflow and the comparisons
    that are false on NaN are therefore the machine's own.  Vectors are
    lists, matrices are lists of rows.  numpy raises on shapes that do not
    fit; unless said otherwise the model assumes rectangular matrices of
    fitting shapes and pairs elements up with [zip_with].

    What the model does not describe, and the statements below do not
    turn on:
    - the routines of other packages ([np.exp], [np.linalg.pinv], the
      solver [ec.maybe_exact_calibrate]) are functions that return; the
      exceptions they may raise themselves (LinAlgError, the solver's
      ConvergenceError) are not modelled;
    - [Np.sum] and [Np.dot] add from left to right; numpy adds longer rows
      pairwise and BLAS in blocks, which moves the last bits of a sum.
      Where a bound on a sum is stated, it is proved for every order of the
      additions ([summed]);
    - indices are Python ints that fit 64 bits, and the values of [drops]
      are tuples of them. *)

From Stdlib Require Import ZArith List Floats String Lia Reals Lra Psatz.
From stdpp Require Import base option list gmap.
Import ListNotations.

Set Warnings "-inexact-float".
#[local] Open Scope float_scope.

(** ** Python exceptions and results *)

Inductive exn : Type :=
| TypeError          (* np.isnan(None), calling an unbound gfn *)
| ValueError         (* max() of an empty array, shapes that do not broadcast *)
| IndexError         (* an index outside the array *)
| UnboundLocalError  (* a local read before any assignment *)
| OutOfFuel.         (* the model's loop bound; shown unreachable below *)

Inductive result (A : Type) : Type :=
| Ok (a : A)
| Raise (e : exn).
Arguments Ok {A} a.
Arguments Raise {A} e.

#[global] Instance result_ret : MRet result := λ A a, Ok a.
#[global] Instance result_bind : MBind result := λ A B k r,
  match r with
  | Ok a => k a
  | Raise e => Raise e
  end.

Definition of_option {A} (e : exn) (o : option A) : result A :=
  match o with
  | Some a => Ok a
  | None => Raise e
  end.

(** ** numpy on lists of binary64 values *)

Abbreviation vec := (list float).
Abbreviation mat := (list (list float)).

(** A sum accumulated from zero, left to right, over any numbers. *)
Definition sum_with {A} (add : A → A → A) (zero : A) (v : list A) : A :=
  fold_left add v zero.

Module Np.

(** [a.sum()] *)
Definition sum (v : vec) : float := sum_with PrimFloat.add 0 v.

(** [np.dot] of two vectors. *)
Definition dot (u v : vec) : float := sum (zip_with PrimFloat.mul u v).

(** [np.maximum]: the larger operand, NaN if either is NaN. *)
Definition maximum (a b : float) : float :=
  if is_nan a then a else if is_nan b then b else if a <? b then b else a.

(** [a.max()]: numpy raises ValueError on an empty array ([None] here). *)
Definition max (v : vec) : option float :=
  match v with
  | [] => None
  | x :: r => Some (fold_left maximum r x)
  end.

(** [np.isnan(a).any()] and [np.isinf(a).any()]. *)
Definition isnan_any (v : vec) : bool := existsb is_nan v.
Definition isinf_any (v : vec) : bool := existsb is_infinity v.

(** [a.any()]: some entry is truthy, i.e. differs from zero (NaN is truthy). *)
Definition any (v : vec) : bool := existsb (λ x, negb (x =? 0)) v.

Definition ones (n : nat) : vec := replicate n 1.
Definition zeros (n : nat) : vec := replicate n 0.

(** [a.shape[1]], read off the first row. *)
Definition ncols {A} (a : list (list A)) : nat :=
  match a with
  | [] => O
  | r :: _ => length r
  end.

(** [a[:, c]] for a column that exists. *)
Definition col (c : nat) (a : mat) : vec := map (λ row, nth c row 0) a.

(** [a.T]. *)
Definition transpose (a : mat) : mat := map (λ c, col c a) (seq 0 (ncols a)).

(** [a.sum(axis=1)]. *)
Definition row_sums (a : mat) : vec := map sum a.

(** [a[:, keep]] and [v[keep]] with a boolean index. *)
Fixpoint select {A} (keep : list bool) (v : list A) : list A :=
  match keep, v with
  | k :: keep', x :: v' => if k then x :: select keep' v' else select keep' v'
  | _, _ => []
  end.
Definition select_cols (keep : list bool) (a : mat) : mat := map (select keep) a.

End Np.

(** ** The two numpy routines [rake] calls that are not arithmetic

    [np.exp] and [np.linalg.pinv] are parameters of the model.  For the
    runs evaluated below they are instantiated with [exp64] and
    [pinv_1x1]. *)

(** [exp64 x]: e^x in binary64, by scaling ([e^x = (e^(x/1024))^1024]) and a
    Taylor polynomial.  It propagates NaN, overflows to infinity past
    709.78 as libm's [exp] does, is exact at 0, and agrees with e^x to
    about twelve significant digits; the runs evaluated below turn on
    differences of 1e-7 and more. *)
Fixpoint exp_horner (n : nat) (k : float) (y : float) : float :=
  match n with
  | O => 1
  | S n' => 1 + y / k * exp_horner n' (k + 1) y
  end.

Fixpoint square_n (n : nat) (t : float) : float :=
  match n with
  | O => t
  | S n' => square_n n' (t * t)
  end.

Definition exp64 (x : float) : float :=
  if is_nan x then x
  else if 709.782712893384 <? x then infinity
  else if x <? -745.1332191019412 then 0
  else square_n 10 (exp_horner 24 1 (x / 1024)).

(** [np.linalg.pinv(a, rcond=1e-15)] of a 1x1 matrix: the singular value
    |a| passes the cutoff [rcond * |a|] exactly when it is not zero.
    Every run evaluated below has one characteristic, so no other shape
    reaches it. *)
Definition pinv_1x1 (a : mat) : mat :=
  match a with
  | [[x]] => if 1e-15 * abs x <? abs x then [[1 / x]] else [[0]]
  | _ => a
  end.

(** ** [rake] (qrake.py, lines 629-677) *)

Section Rake.
Context (np_exp : float → float) (pinv : mat → mat).

Definition EPS1 : float := 1e-8.
Definition rake_max_iter : Z := 10.

(** The loop variables: [lam], [w1] and [g] ([None] is Python's None). *)
Record rake_state : Type := RakeState {
  rk_lam : vec;
  rk_w1 : vec;
  rk_g : option vec
}.

(** [d * np.exp(np.dot(Xs, lam) * q)] *)
Definition rake_weights (Xs : mat) (d : vec) (q : float) (lam : vec) : vec :=
  zip_with PrimFloat.mul d (map (λ row, np_exp (Np.dot row lam * q)) Xs).

(** [np.dot(Xs.T, w1)], also [np.inner(Xs.T, w1.T)] *)
Definition rake_totals (Xs : mat) (w1 : vec) : vec :=
  map (λ xc, Np.dot xc w1) (Np.transpose Xs).

(** [np.dot((Xs * w1).T, Xs)] *)
Definition rake_phiprim (Xs : mat) (w1 : vec) : mat :=
  map (λ xa, map (λ xb, Np.dot (zip_with PrimFloat.mul xa w1) xb) (Np.transpose Xs))
      (Np.transpose Xs).

(** [np.max(np.abs(tr - total) / total)] *)
Definition rake_residual (tr total : vec) : option float :=
  Np.max (zip_with (λ t tot, abs (t - tot) / tot) tr total).

Inductive flow : Type := Continue | Break.

(** One pass through the body of [for i in range(max_iter)]. *)
Definition rake_body (Xs : mat) (d total : vec) (q : float)
    (i : Z) (st : rake_state) : result (flow * rake_state) :=
  let phi := zip_with PrimFloat.sub (rake_totals Xs (rk_w1 st)) total in
  let phiprim := rake_phiprim Xs (rk_w1 st) in
  let lam := zip_with PrimFloat.sub (rk_lam st)
               (map (λ prow, Np.dot prow phi) (pinv phiprim)) in
  let w1 := rake_weights Xs d q lam in
  if Np.isnan_any w1 || Np.isinf_any w1 then
    Ok (Break, RakeState lam w1 None)
  else
    let tr := rake_totals Xs w1 in
    r ← of_option ValueError (rake_residual tr total);
    if r <? EPS1 then
      Ok (Break, RakeState lam w1 (rk_g st))
    else
      let g :=
        if (i =? rake_max_iter)%Z
        then [nan]          (* np.array(None, dtype=float).reshape((-1,)) *)
        else zip_with PrimFloat.div w1 d in
      Ok (Continue, RakeState lam w1 (Some g)).

(** [for i in range(max_iter): ...], with the number of passes made. *)
Fixpoint rake_for (Xs : mat) (d total : vec) (q : float)
    (range : list Z) (n : nat) (st : rake_state) : result (nat * rake_state) :=
  match range with
  | [] => Ok (n, st)
  | i :: range' =>
      fs ← rake_body Xs d total q i st;
      match fs.1 with
      | Break => Ok (S n, fs.2)
      | Continue => rake_for Xs d total q range' (S n) fs.2
      end
  end.

Definition py_range (n : Z) : list Z := map Z.of_nat (seq 0 (Z.to_nat n)).

Definition rake_init (Xs : mat) (d : vec) (q : float) : rake_state :=
  let lam := Np.zeros (Np.ncols Xs) in
  let w1 := rake_weights Xs d q lam in
  RakeState lam w1 (Some (Np.ones (length w1))).

(** [rake] together with the number of Newton-Raphson passes it made. *)
Definition rake_run (Xs : mat) (d total : vec) (q : float)
    : result (nat * rake_state) :=
  rake_for Xs d total q (py_range rake_max_iter) O (rake_init Xs d q).

(** [rake(Xs, d, total, q=1)]: the returned [g]; [Ok None] is the
    sentinel [None]. *)
Definition rake (Xs : mat) (d total : vec) : result (option vec) :=
  r ← rake_run Xs d total 1;
  Ok (rk_g r.2).

End Rake.

(** ** [gec] (qrake.py, lines 153-183)

    The solver [ec.maybe_exact_calibrate] of the empirical_calibration
    package is a parameter: it receives the covariates, the target means,
    the baseline weights, the target priorities, the objective and the
    increment, and returns the mean-producing weights. *)

Inductive objective : Type := ENTROPY | QUADRATIC.

Definition solver : Type :=
  mat → vec → vec → option vec → objective → float → vec.

(** [np.nextafter(np.float64(0), np.float64(1))] *)
Definition SMALL_POSITIVE : float := next_up 0.

Definition gec (maybe_exact_calibrate : solver) (xmat : mat) (wh targets : vec)
    (target_weights : option vec) (obj : objective) (increment : float) : vec :=
  let wh := map (λ w, if w =? 0 then SMALL_POSITIVE else w) wh in
  let pop := Np.sum wh in
  let tmeans := map (λ t, t / pop) targets in
  let ompw := maybe_exact_calibrate xmat tmeans wh target_weights obj increment in
  zip_with (λ o w, o * pop / w) ompw wh.

(** ** [get_mask] (qrake.py, lines 185-190) *)

(** The items of the [drops] dict in insertion order: area row and the
    tuple of columns to exclude. *)
Definition drops_t : Type := list (Z * list Z).

(** A numpy index into an axis of length [len], for a Python int that
    fits 64 bits: negative indices count from the end, anything else
    outside is an IndexError ([None]). *)
Definition norm_index (len : nat) (i : Z) : option nat :=
  if (0 <=? i)%Z && (i <? Z.of_nat len)%Z then Some (Z.to_nat i)
  else if (- Z.of_nat len <=? i)%Z && (i <? 0)%Z then Some (Z.to_nat (i + Z.of_nat len))
  else None.

(** [mask[row, cols] = False] on an m x k mask. *)
Definition mask_assign (m k : nat) (mask : list (list bool))
    (row : Z) (cols : list Z) : result (list (list bool)) :=
  r ← of_option IndexError (norm_index m row);
  cs ← of_option IndexError (mapM (norm_index k) cols);
  Ok (alter (λ mrow, foldr (λ c acc, <[c := false]> acc) mrow cs) r mask).

Fixpoint mask_drops (m k : nat) (items : drops_t) (mask : list (list bool))
    : result (list (list bool)) :=
  match items with
  | [] => Ok mask
  | (row, cols) :: items' =>
      mask' ← mask_assign m k mask row cols;
      mask_drops m k items' mask'
  end.

Definition get_mask (targets : mat) (drops : option drops_t)
    : result (list (list bool)) :=
  let m := length targets in
  let k := Np.ncols targets in
  let mask := replicate m (replicate k true) in
  match drops with
  | None => Ok mask
  | Some items => mask_drops m k items mask
  end.

(** ** [qrake] (qrake.py, lines 192-369) *)

(** What [qrake] prints that the specification calls diagnostics. *)
Inductive event : Type :=
| EvInfinite                            (* "Existence of infinite coefficients --> non-convergence." *)
| EvSweep (iter : Z) (wtdiff targdiff : float)  (* the line of one iteration *)
| EvMaxIter.                            (* "Maximum number of iterations exceeded." *)

Definition TOL_WTDIFF : float := 0.0005.
Definition TOL_TARGPCTDIFF : float := 0.1.

(** The per-area calibrator selected by [method]: it returns a vector, the
    sentinel None ([Ok None]), or raises. *)
Definition calibrator : Type := mat → vec → vec → result (option vec).

(** The variables of the outer loop.  [qs_Q] is what the name [Q] is bound
    to: the matrix itself in the functional model, the location of the
    array in the store model further down.  [qs_abspctdiff] is unbound
    ([None]) until the first sweep assigns it. *)
Record loop_state (A : Type) : Type := QState {
  qs_Q : A;
  qs_iter : Z;
  qs_max_weight_absdiff : float;
  qs_max_targ_abspctdiff : float;
  qs_abspctdiff : option mat;
  qs_log : list event
}.
Arguments QState {A} _ _ _ _ _ _.
Arguments qs_Q {A} _.
Arguments qs_iter {A} _.
Arguments qs_max_weight_absdiff {A} _.
Arguments qs_max_targ_abspctdiff {A} _.
Arguments qs_abspctdiff {A} _.
Arguments qs_log {A} _.

Abbreviation qstate := (loop_state mat).

(** The same loop variables with [Q] bound to something else. *)
Definition with_Q {A B} (st : loop_state A) (q : B) : loop_state B :=
  {| qs_Q := q;
     qs_iter := qs_iter st;
     qs_max_weight_absdiff := qs_max_weight_absdiff st;
     qs_max_targ_abspctdiff := qs_max_targ_abspctdiff st;
     qs_abspctdiff := qs_abspctdiff st;
     qs_log := qs_log st |}.

(** [a * wh] with [wh] of shape (n, 1): row i is scaled by [wh[i]]. *)
Definition scale_rows (a : mat) (wh : vec) : mat :=
  zip_with (λ row w, map (λ x, x * w) row) a wh.

(** [Q[:, j]]; IndexError when [j] is not a column of [Q]. *)
Definition get_col (j : nat) (Q : mat) : option vec := mapM (λ row : vec, row !! j) Q.

(** [Q[:, j] = v] for [v] as long as [Q] has rows. *)
Definition set_col (j : nat) (v : vec) (Q : mat) : mat :=
  zip_with (λ (row : vec) x, <[j := x]> row) Q v.

(** [c * g] assigned back to a column of length [length c]: elementwise,
    or [g] of size 1 broadcast; other sizes do not broadcast. *)
Definition broadcast_mul (c g : vec) : option vec :=
  if decide (length g = length c) then Some (zip_with PrimFloat.mul c g)
  else match g with
       | [x] => Some (map (λ y, y * x) c)
       | _ => None
       end.

(** [abs(Q.sum(axis=1) - 1)] *)
Definition abswtdiff (Q : mat) : vec := map (λ s, abs (s - 1)) (Np.row_sums Q).

(** [Q / Q.sum(axis=1)[:, None]], over any numbers, and in binary64 as
    the source computes it. *)
Definition renormalize_with {A} (add : A → A → A) (zero : A) (div : A → A → A)
    (a : list (list A)) : list (list A) :=
  map (λ row, let s := sum_with add zero row in map (λ x, div x s) row) a.

Definition renormalize : mat → mat :=
  renormalize_with PrimFloat.add 0 PrimFloat.div.

(** [np.abs((np.dot(whs.T, xmat) - targets) / targets * 100)] with
    [whs = Q * wh]. *)
Definition abspctdiff (Q : mat) (wh : vec) (xmat targets : mat) : mat :=
  let whs := scale_rows Q wh in
  zip_with (λ wcol trow,
              zip_with (λ xcol t, abs ((Np.dot wcol xcol - t) / t * 100))
                       (Np.transpose xmat) trow)
           (Np.transpose whs) targets.

(** [a[mask]]: the cells selected by a boolean matrix, row by row. *)
Definition masked (a : mat) (mask : list (list bool)) : vec :=
  concat (zip_with (λ row mrow, Np.select mrow row) a mask).

Section Qrake.
Context (np_exp : float → float) (pinv : mat → mat)
        (maybe_exact_calibrate : solver).

(** [if method == 'raking': gfn = rake ... elif method == 'raking-ec':
    gfn = gec]; with any other method [gfn] stays unbound. *)
Definition select_gfn (method : string) (obj : objective) : option calibrator :=
  if String.eqb method "raking" then
    Some (λ X d t, rake np_exp pinv X d t)
  else if String.eqb method "raking-ec" then
    Some (λ X d t, Ok (Some (gec maybe_exact_calibrate X d t None obj 0.001)))
  else None.

Section Loop.
Context (gfn : option calibrator)
        (wh : vec) (xmat xmat_wh targets : mat) (mask : list (list bool))
        (maxiter : Z).

(** [gfn(xmat_wh[:, good_cols], d, targets[j, good_cols])] with
    [good_cols = mask[j, :]] (lines 296-298). *)
Definition area_call (f : calibrator) (j : nat) (d : vec) : result (option vec) :=
  let good_cols := default [] (mask !! j) in
  f (Np.select_cols good_cols xmat_wh) d
    (Np.select good_cols (default [] (targets !! j))).

(** The adjustment for area [j] from the current [Q] (lines 296-301):
    the calibrator's [g], or ones when it has a NaN, an infinity or
    only zeros.  [np.isnan(None)] is a TypeError. *)
Definition area_g (Q : mat) (j : nat) : result vec :=
  f ← of_option UnboundLocalError gfn;
  d ← of_option IndexError (get_col j Q);
  r ← area_call f j d;
  g ← of_option TypeError r;
  if Np.isnan_any g || Np.isinf_any g || negb (Np.any g)
  then Ok (Np.ones (length g))
  else Ok g.

(** [Q[:, j] = Q[:, j] * g.reshape(g.size, )] (line 306) *)
Definition area_apply (Q : mat) (j : nat) (g : vec) : result mat :=
  d ← of_option IndexError (get_col j Q);
  c ← of_option ValueError (broadcast_mul d g);
  Ok (set_col j c Q).

Definition area_step (Q : mat) (j : nat) : result mat :=
  g ← area_g Q j;
  area_apply Q j g.

(** [for j in range(m): ...] on the current [Q]. *)
Fixpoint sweep_areas (js : list nat) (Q : mat) : result mat :=
  match js with
  | [] => Ok Q
  | j :: js' =>
      Q' ← area_step Q j;
      sweep_areas js' Q'
  end.

(** For comparison with [sweep_areas]: the synchronized (Jacobi)
    sweep, in which every area's adjustment and column are taken from
    the matrix [Q0] the sweep started with. *)
Fixpoint sweep_areas_sync (Q0 : mat) (js : list nat) (Q : mat) : result mat :=
  match js with
  | [] => Ok Q
  | j :: js' =>
      g ← area_g Q0 j;
      d ← of_option IndexError (get_col j Q0);
      c ← of_option ValueError (broadcast_mul d g);
      sweep_areas_sync Q0 js' (set_col j c Q)
  end.

(** The body of the while loop (lines 290-334). *)
Definition sweep (st : qstate) : result qstate :=
  Qa ← sweep_areas (seq 0 (length targets)) (qs_Q st);
  let awd := abswtdiff Qa in
  mwad ← of_option ValueError (Np.max awd);
  let inf := Np.isinf_any awd in
  let Q' := renormalize Qa in
  let apd := abspctdiff Q' wh xmat targets in
  mtad ← of_option ValueError (Np.max (masked apd mask));
  Ok {| qs_Q := Q';
        qs_iter := (qs_iter st + 1)%Z;
        qs_max_weight_absdiff := if inf then TOL_WTDIFF else mwad;
        qs_max_targ_abspctdiff := mtad;
        qs_abspctdiff := Some apd;
        qs_log := qs_log st
                  ++ (if inf then [EvInfinite] else [])
                  ++ [EvSweep (qs_iter st) mwad mtad] |}.

(** The two halves of the while condition (lines 286-288). *)
Definition above_tolerance {A} (st : loop_state A) : bool :=
  (TOL_WTDIFF <? qs_max_weight_absdiff st)
  || (TOL_TARGPCTDIFF <? qs_max_targ_abspctdiff st).

Definition within_cap {A} (st : loop_state A) : bool := (qs_iter st <=? maxiter)%Z.

Definition loop_cond {A} (st : loop_state A) : bool :=
  above_tolerance st && within_cap st.

(** [while cond: sweep].  [fuel] bounds the recursion; [qrake_run]
    supplies [maxiter] passes, which is enough. *)
Fixpoint qrake_while (fuel : nat) (st : qstate) : result qstate :=
  if loop_cond st then
    match fuel with
    | O => Raise OutOfFuel
    | S fuel' =>
        st' ← sweep st;
        qrake_while fuel' st'
    end
  else Ok st.

(** After the loop (lines 339-369): the final weight difference, the
    message about the cap, and the summary, which reads [abspctdiff]. *)
Definition post_process (st : qstate) : result qstate :=
  mwad ← of_option ValueError (Np.max (abswtdiff (qs_Q st)));
  let log := qs_log st ++ (if (maxiter <? qs_iter st)%Z then [EvMaxIter] else []) in
  apd ← of_option UnboundLocalError (qs_abspctdiff st);
  _ ← of_option ValueError (Np.max (concat apd));
  _ ← of_option ValueError (Np.max (masked apd mask));
  Ok {| qs_Q := qs_Q st;
        qs_iter := qs_iter st;
        qs_max_weight_absdiff := mwad;
        qs_max_targ_abspctdiff := qs_max_targ_abspctdiff st;
        qs_abspctdiff := qs_abspctdiff st;
        qs_log := log |}.

End Loop.

(** The state before the first test of the while condition; [Q] is the
    copy made on line 272. *)
Definition qrake_init {A} (Q : A) : loop_state A :=
  {| qs_Q := Q;
     qs_iter := 1;
     qs_max_weight_absdiff := 1e9;
     qs_max_targ_abspctdiff := 1e9;
     qs_abspctdiff := None;
     qs_log := [] |}.

(** [qrake] with everything it prints and its loop variables at return. *)
Definition qrake_run (Q : mat) (wh : vec) (xmat targets : mat)
    (method : string) (maxiter : Z) (drops : option drops_t) (obj : objective)
    : result qstate :=
  let gfn := select_gfn method obj in
  let xmat_wh := scale_rows xmat wh in
  mask ← get_mask targets drops;
  st ← qrake_while gfn wh xmat xmat_wh targets mask maxiter
         (Z.to_nat maxiter) (qrake_init Q);
  post_process mask maxiter st.

(** [qrake(Q, wh, xmat, targets, method, maxiter, drops, objective)] *)
Definition qrake (Q : mat) (wh : vec) (xmat targets : mat)
    (method : string) (maxiter : Z) (drops : option drops_t) (obj : objective)
    : result mat :=
  st ← qrake_run Q wh xmat targets method maxiter drops obj;
  Ok (qs_Q st).

(** The keyword arguments of a call and their defaults (lines 192-194). *)
Record kwargs : Type := Kwargs {
  kw_method : option string;
  kw_maxiter : option Z;
  kw_drops : option drops_t;
  kw_objective : option objective
}.

Definition no_kwargs : kwargs := Kwargs None None None None.

Definition default_method : string := "raking".
Definition default_maxiter : Z := 200.
Definition default_objective : objective := ENTROPY.

Definition qrake_call_run (Q : mat) (wh : vec) (xmat targets : mat) (kw : kwargs)
    : result qstate :=
  qrake_run Q wh xmat targets
    (default default_method (kw_method kw))
    (default default_maxiter (kw_maxiter kw))
    (kw_drops kw)
    (default default_objective (kw_objective kw)).

Definition qrake_call (Q : mat) (wh : vec) (xmat targets : mat) (kw : kwargs)
    : result mat :=
  qrake Q wh xmat targets
    (default default_method (kw_method kw))
    (default default_maxiter (kw_maxiter kw))
    (kw_drops kw)
    (default default_objective (kw_objective kw)).

End Qrake.

(** ** [qrake] on a store of arrays

    numpy arrays are objects: the caller and [qrake] hold references to
    them, and the assignment [Q[:, j] = ...] writes into the array that the
    name [Q] is bound to.  The store maps locations to arrays.  The
    caller's four arrays are read from the store wherever the source uses
    them; [Q.copy()] and [Q / ...] allocate; the column assignment writes.
    Arrays that [qrake] creates and never writes to again ([xmat_wh], the
    mask, the slices handed to the calibrator, which itself only reads)
    are values, and so is the [drops] dict, whose items are only read. *)

Abbreviation loc := positive.
Abbreviation store := (gmap positive mat).

(** Computations that read and write the store and may raise. *)
Definition St (A : Type) : Type := store → store * result A.

#[global] Instance St_ret : MRet St := λ A a h, (h, Ok a).
#[global] Instance St_bind : MBind St := λ A B k c h,
  match c h with
  | (h', Ok a) => k a h'
  | (h', Raise e) => (h', Raise e)
  end.

Definition lift {A} (r : result A) : St A := λ h, (h, r).

(** Reading through a reference; a reference to nothing is not an array. *)
Definition read (l : loc) : St mat := λ h, (h, of_option TypeError (h !! l)).

(** Writing into the array at [l]. *)
Definition write (l : loc) (a : mat) : St unit := λ h, (<[l := a]> h, Ok ()).

(** A new array. *)
Definition alloc (a : mat) : St loc :=
  λ h, let l := fresh (dom h) in (<[l := a]> h, Ok l).

Section QrakeStore.
Context (np_exp : float → float) (pinv : mat → mat)
        (maybe_exact_calibrate : solver).

Section LoopStore.
Context (gfn : option calibrator)
        (lwh lxmat ltargets : loc) (m : nat)
        (xmat_wh : mat) (mask : list (list bool))
        (maxiter : Z).

(** Lines 296-306 for area [j]: [Q[:, j]] is read, and written back in
    place, through the reference [lq]. *)
Definition area_step_st (lq : loc) (j : nat) : St unit :=
  Q ← read lq;
  targets ← read ltargets;
  g ← lift (area_g gfn xmat_wh targets mask Q j);
  Q' ← lift (area_apply Q j g);
  write lq Q'.

Fixpoint sweep_areas_st (js : list nat) (lq : loc) : St unit :=
  match js with
  | [] => mret ()
  | j :: js' =>
      _ ← area_step_st lq j;
      sweep_areas_st js' lq
  end.

(** The body of the while loop; line 321 binds [Q] to a new array. *)
Definition sweep_st (st : loop_state loc) : St (loop_state loc) :=
  _ ← sweep_areas_st (seq 0 m) (qs_Q st);
  Qa ← read (qs_Q st);
  let awd := abswtdiff Qa in
  mwad ← lift (of_option ValueError (Np.max awd));
  let inf := Np.isinf_any awd in
  lq' ← alloc (renormalize Qa);
  Q' ← read lq';
  wh ← read lwh;
  xmat ← read lxmat;
  targets ← read ltargets;
  let apd := abspctdiff Q' (concat wh) xmat targets in
  mtad ← lift (of_option ValueError (Np.max (masked apd mask)));
  mret {| qs_Q := lq';
          qs_iter := (qs_iter st + 1)%Z;
          qs_max_weight_absdiff := if inf then TOL_WTDIFF else mwad;
          qs_max_targ_abspctdiff := mtad;
          qs_abspctdiff := Some apd;
          qs_log := qs_log st
                    ++ (if inf then [EvInfinite] else [])
                    ++ [EvSweep (qs_iter st) mwad mtad] |}.

Fixpoint qrake_while_st (fuel : nat) (st : loop_state loc)
    : St (loop_state loc) :=
  if loop_cond maxiter st then
    match fuel with
    | O => lift (Raise OutOfFuel)
    | S fuel' =>
        st' ← sweep_st st;
        qrake_while_st fuel' st'
    end
  else mret st.

Definition post_process_st (st : loop_state loc) : St (loop_state loc) :=
  Q ← read (qs_Q st);
  st' ← lift (post_process mask maxiter (with_Q st Q));
  mret (with_Q st' (qs_Q st)).

End LoopStore.

(** [qrake] given references to [Q], [wh], [xmat] and [targets]; it
    returns a reference to the result. [wh.reshape((-1, 1))] is a view
    of the caller's [wh]: its entries in order, read from the same
    array. *)
Definition qrake_st (lQ lwh lxmat ltargets : loc)
    (method : string) (maxiter : Z) (drops : option drops_t) (obj : objective)
    : St loc :=
  let gfn := select_gfn np_exp pinv maybe_exact_calibrate method obj in
  targets ← read ltargets;
  let m := length targets in
  wh ← read lwh;
  xmat ← read lxmat;
  let xmat_wh := scale_rows xmat (concat wh) in
  mask ← lift (get_mask targets drops);
  Q0 ← read lQ;
  lq ← alloc Q0;
  st ← qrake_while_st gfn lwh lxmat ltargets m xmat_wh mask maxiter
         (Z.to_nat maxiter) (qrake_init lq);
  st' ← post_process_st mask maxiter st;
  mret (qs_Q st').

End QrakeStore.

(** ** Vocabulary of the statements below *)

(** The number of iteration lines in what was printed. *)
Definition is_sweep_event (e : event) : bool :=
  match e with EvSweep _ _ _ => true | _ => false end.

Definition sweeps_logged (log : list event) : nat :=
  length (filter (λ e, is_sweep_event e = true) log).

(** The loop variables as they are after at least one sweep: [Q] is a
    renormalised matrix with at least one row, and [abspctdiff] is bound
    and has masked cells. *)
Definition swept (mask : list (list bool)) (st : qstate) : Prop :=
  ∃ (Qa apd : mat),
    Qa ≠ [] ∧ qs_Q st = renormalize Qa
    ∧ qs_abspctdiff st = Some apd ∧ masked apd mask ≠ [].

(** A calibrator of the source: it raises nothing but what Python can. *)
Definition proper (gfn : option calibrator) : Prop :=
  ∀ f X d t, gfn = Some f → f X d t ≠ Raise OutOfFuel.

(** The store [h'] holds every array of [h], unchanged. *)
Definition preserves (h h' : store) : Prop :=
  ∀ l a, h !! l = Some a → h' !! l = Some a.

(** A run on the store against a run of the functional model: the same
    exception, or results related by [R]. *)
Definition refines {A B} (R : A → B → Prop) (pure : result A) (r : result B) : Prop :=
  match pure, r with
  | Ok a, Ok b => R a b
  | Raise e, Raise e' => e = e'
  | _, _ => False
  end.

(** The loop variables [st] of the store model stand for [qs]: the name
    [Q] refers to an array that the caller's store [h0] does not hold and
    whose content in [h] is the [Q] of [qs]. *)
Definition stands_for (h0 h : store) (qs : qstate) (st : loop_state loc) : Prop :=
  h0 !! qs_Q st = None ∧ h !! qs_Q st = Some (qs_Q qs) ∧ qs = with_Q st (qs_Q qs).

(** ** Vocabulary for the renormalisation

    What a binary64 value stands for as a real number, and how the
    specification of the arithmetic ([SpecFloat]) locates a real number
    between two mantissas: what the bound on the row sums is stated and
    proved with. *)

(** 2^e *)
Definition bpow (e : Z) : R := powerRZ 2 e.
Arguments bpow : simpl never.

(** The real number a finite binary64 value stands for; zero for the
    values that stand for none. *)
Definition SF2R (f : spec_float) : R :=
  match f with
  | S754_finite s m e => ((if s then - IZR (Zpos m) else IZR (Zpos m)) * bpow e)%R
  | _ => 0%R
  end.

Definition val (x : float) : R := SF2R (Prim2SF x).

(** The same, sign apart. *)
Definition mag (f : spec_float) : R := SF2R (SFabs f).

(** The location [l] places the real number [v] between the integers [m]
    and [m + 1]. *)
Definition loc_ok (v : R) (m : Z) (l : location) : Prop :=
  match l with
  | loc_Exact => v = IZR m
  | loc_Inexact Lt => (IZR m < v < IZR m + / 2)%R
  | loc_Inexact Eq => v = (IZR m + / 2)%R
  | loc_Inexact Gt => (IZR m + / 2 < v < IZR m + 1)%R
  end.

Definition rec_ok (v : R) (mrs : shr_record) : Prop :=
  (0 ≤ shr_m mrs)%Z ∧ loc_ok v (shr_m mrs) (loc_of_shr_record mrs).

(** A zero or a positive finite value. *)
Definition sf_nonneg (f : spec_float) : Prop :=
  match f with
  | S754_zero _ | S754_finite false _ _ => True
  | _ => False
  end.

Definition nonneg (x : float) : Prop := sf_nonneg (Prim2SF x).

(** The results of adding up the entries of a list in binary64 in some
    order and grouping: left to right from zero as [Np.sum] does, pairwise
    or in blocks as numpy does for longer rows. *)
Inductive summed : list float → float → Prop :=
| summed_nil : summed [] 0
| summed_one x : summed [x] x
| summed_add l1 l2 a b : summed l1 a → summed l2 b → summed (l1 ++ l2) (a + b)
| summed_perm l l' a : l ≡ₚ l' → summed l a → summed l' a.

(** The sum of the values of a list, without rounding. *)
Definition vsum (l : list float) : R := foldr (λ x acc, (val x + acc)%R) 0%R l.

(** Two values of [spec_float] that are the same, or both a zero. *)
Definition same_but_zero (a b : spec_float) : Prop :=
  a = b ∨ ((∃ s, a = S754_zero s) ∧ (∃ s, b = S754_zero s)).

(** A row that the division by its sum [s] restores: at most a million
    entries, all of one sign and none of them NaN or infinite, and a sum
    that is finite and not zero. *)
Definition restorable (row : vec) (s : float) : Prop :=
  (Z.of_nat (length row) ≤ 1000000)%Z
  ∧ ((Forall (λ x, (0 <=? x) && (x <? infinity) = true) row
      ∧ (0 <? s) = true ∧ (s <? infinity) = true)
     ∨ (Forall (λ x, (x <=? 0) && (neg_infinity <? x) = true) row
        ∧ (s <? 0) = true ∧ (neg_infinity <? s) = true)).

(** [Q'] is [Qa] after line 321: every entry is the entry of [Qa] divided
    by the sum of its row, and a restorable row of [Qa] passes the test
    [abs(sum - 1) < 1e-9] in [Q']. *)
Definition renormalized_from (Qa Q' : mat) : Prop :=
  Q' = renormalize Qa
  ∧ ∀ i row, Qa !! i = Some row →
      ∃ row', Q' !! i = Some row'
        ∧ row' = map (λ x, x / Np.sum row) row
        ∧ (restorable row (Np.sum row) → (abs (Np.sum row' - 1) <? 1e-9) = true).

(** ** The earlier versions of the loop kept in qrake.py *)

(** What [qrake_bak] does for area [j] (lines 732-740): the calibrator
    gets all of [xmat_wh] and the whole row [targets[j, :]]. *)
Definition area_g_bak (gfn : option calibrator) (xmat_wh targets : mat)
    (Q : mat) (j : nat) : result vec :=
  f ← of_option UnboundLocalError gfn;
  d ← of_option IndexError (get_col j Q);
  r ← f xmat_wh d (default [] (targets !! j));
  g ← of_option TypeError r;
  if Np.isnan_any g || Np.isinf_any g || negb (Np.any g)
  then Ok (Np.ones (length g))
  else Ok g.

Definition area_step_bak (gfn : option calibrator) (xmat_wh targets : mat)
    (Q : mat) (j : nat) : result mat :=
  g ← area_g_bak gfn xmat_wh targets Q j;
  area_apply Q j g.

Fixpoint sweep_areas_bak (gfn : option calibrator) (xmat_wh targets : mat)
    (js : list nat) (Q : mat) : result mat :=
  match js with
  | [] => Ok Q
  | j :: js' =>
      Q' ← area_step_bak gfn xmat_wh targets Q j;
      sweep_areas_bak gfn xmat_wh targets js' Q'
  end.

(** *** [qrake_bak] (lines 680-772) *)

Definition MAX_ITER_bak : Z := 200.
Definition MAX_ABSDIFF : float := 0.1.
Definition MAX_PDIFF : float := 1.

(** Its loop variables; [Q], [iter], [maxadiff] and [maxpdiff]. *)
Record bak_state : Type := BakState {
  bk_Q : mat;
  bk_iter : Z;
  bk_maxadiff : float;
  bk_maxpdiff : float;
  bk_infinite : list Z    (* the iterations that met an infinite row sum *)
}.

Section QrakeBak.
Context (np_exp : float → float) (pinv : mat → mat).

(** The body of the while loop (lines 728-770). *)
Definition sweep_qbak (wh : vec) (xmat xmat_wh targets : mat)
    (st : bak_state) : result bak_state :=
  Qa ← sweep_areas_bak (Some (λ X d t, rake np_exp pinv X d t)) xmat_wh targets
         (seq 0 (length targets)) (bk_Q st);
  let absdiff := abswtdiff Qa in
  mx ← of_option ValueError (Np.max absdiff);
  let inf := Np.isinf_any absdiff in
  let Q' := renormalize Qa in
  let abspdiff := abspctdiff Q' wh xmat targets in
  maxpdiff ← of_option ValueError (Np.max (concat abspdiff));
  Ok {| bk_Q := Q';
        bk_iter := (bk_iter st + 1)%Z;
        bk_maxadiff := if inf then MAX_ABSDIFF else mx * 100;
        bk_maxpdiff := maxpdiff;
        bk_infinite := bk_infinite st ++ (if inf then [bk_iter st] else []) |}.

(** [(maxadiff > MAX_ABSDIFF) & (maxpdiff > MAX_PDIFF) & (iter <= MAX_ITER)] *)
Definition cond_qbak (st : bak_state) : bool :=
  (MAX_ABSDIFF <? bk_maxadiff st) && (MAX_PDIFF <? bk_maxpdiff st)
  && (bk_iter st <=? MAX_ITER_bak)%Z.

Fixpoint while_qbak (wh : vec) (xmat xmat_wh targets : mat)
    (fuel : nat) (st : bak_state) : result bak_state :=
  if cond_qbak st then
    match fuel with
    | O => Raise OutOfFuel
    | S fuel' =>
        st' ← sweep_qbak wh xmat xmat_wh targets st;
        while_qbak wh xmat xmat_wh targets fuel' st'
    end
  else Ok st.

Definition init_qbak (Q : mat) : bak_state :=
  {| bk_Q := Q; bk_iter := 1; bk_maxadiff := 100; bk_maxpdiff := 100;
     bk_infinite := [] |}.

Definition qrake_bak_run (Q : mat) (wh : vec) (xmat targets : mat) : result bak_state :=
  while_qbak wh xmat (scale_rows xmat wh) targets
    (Z.to_nat MAX_ITER_bak) (init_qbak Q).

(** [qrake_bak(Q, wh, xmat, targets)] *)
Definition qrake_bak (Q : mat) (wh : vec) (xmat targets : mat) : result mat :=
  st ← qrake_bak_run Q wh xmat targets;
  Ok (bk_Q st).

End QrakeBak.

(** *** [qrakeec] (lines 527-596) *)

Definition EPS_ec : float := 1e-5.
Definition MAX_ITER_ec : Z := 10.

(** Its loop variables: [Q], [iter], [ediff], and how often it printed
    "not done" and the message about infinite coefficients. *)
Record ec_state : Type := EcState {
  ec_Q : mat;
  ec_iter : Z;
  ec_ediff : float;
  ec_not_done : nat;
  ec_infinite : list Z
}.

Section Qrakeec.
Context (maybe_exact_calibrate : solver).

(** Lines 570-579 for area [j]: an unusable [g] leaves the column alone. *)
Definition area_step_ec (xmat_wh targets : mat) (Qn : mat * nat) (j : nat)
    : result (mat * nat) :=
  d ← of_option IndexError (get_col j Qn.1);
  let g := gec maybe_exact_calibrate xmat_wh d (default [] (targets !! j))
             None ENTROPY 0.001 in
  if Np.isnan_any g || Np.isinf_any g || negb (Np.any g)
  then Ok (Qn.1, S Qn.2)
  else
    c ← of_option ValueError (broadcast_mul d g);
    Ok (set_col j c Qn.1, Qn.2).

Fixpoint sweep_areas_ec (xmat_wh targets : mat) (js : list nat) (Qn : mat * nat)
    : result (mat * nat) :=
  match js with
  | [] => Ok Qn
  | j :: js' =>
      Qn' ← area_step_ec xmat_wh targets Qn j;
      sweep_areas_ec xmat_wh targets js' Qn'
  end.

(** The body of the while loop (lines 565-593); [absdiff.sum()] of an
    empty array is zero. *)
Definition sweep_ec (xmat_wh targets : mat) (st : ec_state) : result ec_state :=
  Qn ← sweep_areas_ec xmat_wh targets (seq 0 (length targets))
         (ec_Q st, ec_not_done st);
  let absdiff := abswtdiff Qn.1 in
  let inf := Np.isinf_any absdiff in
  Ok {| ec_Q := renormalize Qn.1;
        ec_iter := (ec_iter st + 1)%Z;
        ec_ediff := if inf then EPS_ec else Np.sum absdiff;
        ec_not_done := Qn.2;
        ec_infinite := ec_infinite st ++ (if inf then [ec_iter st] else []) |}.

(** [(ediff > EPS) & (iter <= MAX_ITER)] *)
Definition cond_ec (st : ec_state) : bool :=
  (EPS_ec <? ec_ediff st) && (ec_iter st <=? MAX_ITER_ec)%Z.

Fixpoint while_ec (xmat_wh targets : mat) (fuel : nat) (st : ec_state)
    : result ec_state :=
  if cond_ec st then
    match fuel with
    | O => Raise OutOfFuel
    | S fuel' =>
        st' ← sweep_ec xmat_wh targets st;
        while_ec xmat_wh targets fuel' st'
    end
  else Ok st.

Definition init_ec (Q : mat) : ec_state :=
  {| ec_Q := Q; ec_iter := 1; ec_ediff := 1; ec_not_done := O; ec_infinite := [] |}.

Definition qrakeec_run (Q : mat) (wh : vec) (xmat targets : mat) : result ec_state :=
  while_ec (scale_rows xmat wh) targets (Z.to_nat MAX_ITER_ec) (init_ec Q).

(** [qrakeec(Q, wh, xmat, targets)] *)
Definition qrakeec (Q : mat) (wh : vec) (xmat targets : mat) : result mat :=
  st ← qrakeec_run Q wh xmat targets;
  Ok (ec_Q st).

End Qrakeec.

(** ** Vocabulary for [get_mask] *)

(** A numpy index that an axis of length [len] accepts. *)
Definition index_ok (len : nat) (i : Z) : bool :=
  (- Z.of_nat len <=? i)%Z && (i <? Z.of_nat len)%Z.

(** An item of [drops] whose row and columns an m x k matrix accepts. *)
Definition item_ok (m k : nat) (item : Z * list Z) : bool :=
  index_ok m item.1 && forallb (index_ok k) item.2.

(** Whether an item of [drops] names the cell (r, c) of an m x k matrix. *)
Definition names_cell (m k r c : nat) (item : Z * list Z) : bool :=
  bool_decide (norm_index m item.1 = Some r)
  && existsb (λ col, bool_decide (norm_index k col = Some c)) item.2.

Definition dropped (m k : nat) (items : drops_t) (r c : nat) : bool :=
  existsb (names_cell m k r c) items.

(** [a[r, c]] *)
Definition cell {A} (a : list (list A)) (r c : nat) : option A :=
  a !! r ≫= (λ row, row !! c).

(** An m x k matrix. *)
Definition has_shape {A} (m k : nat) (a : list (list A)) : Prop :=
  length a = m ∧ Forall (λ row, length row = k) a.

(** A Python int that numpy converts to an index as it stands: one that
    fits a signed 64-bit integer.  Beyond that range numpy does not see
    the same index ([norm_index] does not describe it): it wraps a column
    index of a tuple around and refuses a row index with OverflowError. *)
Definition fits_int64 (i : Z) : bool :=
  (- 2 ^ 63 <=? i)%Z && (i <? 2 ^ 63)%Z.

(** A [drops] all of whose indices fit. *)
Definition indices_fit (items : drops_t) : Prop :=
  Forall (λ item : Z * list Z,
            fits_int64 item.1 = true ∧ Forall (λ c, fits_int64 c = true) item.2)
         items.

(** ** Vocabulary for [gec] *)

(** A solver that is never asked about a zero baseline weight: it answers
    with nothing when one is passed. *)
Definition guard_zero_weights (ec : solver) : solver :=
  λ X tmeans wh tw obj inc,
    if existsb (λ w, w =? 0) wh then [] else ec X tmeans wh tw obj inc.

(** A solver that hands the baseline weights back, normalised to sum to
    one: the instance of [maybe_exact_calibrate] used where a run of the
    'raking-ec' method is evaluated. *)
Definition baseline_solver : solver :=
  λ _ _ wh _ _ _, map (λ w, w / Np.sum wh) wh.

(* ================================================================== *)
(** * Properties *)
(* ================================================================== *)

(** ** The result monad *)

Lemma bind_Ok {A B} (r : result A) (k : A → result B) (b : B) :
  r ≫= k = Ok b ↔ ∃ a, r = Ok a ∧ k a = Ok b.
Proof.
  destruct r as [a|e]; simpl; split.
  - intros H. exists a. auto.
  - intros (a' & [= <-] & H). exact H.
  - discriminate.
  - intros (a' & [=] & _).
Qed.

Lemma of_option_Ok {A} (e : exn) (o : option A) (a : A) :
  of_option e o = Ok a ↔ o = Some a.
Proof. destruct o; simpl; split; congruence. Qed.

(** ** [get_mask] *)

(** C9. For the drop spec {2: (1, 3)} over a 5 x 4 target matrix the mask
    is False exactly at (2,1) and (2,3) and True elsewhere; for targets of
    any shape m x k an absent (None) or empty ({}) drop spec gives the
    all-True m x k mask. *)
Theorem get_mask_spec (m k : nat) (targets : mat) :
  length targets = m → Np.ncols targets = k →
  get_mask targets None = Ok (replicate m (replicate k true))
  ∧ get_mask targets (Some []) = Ok (replicate m (replicate k true))
  ∧ (m = 5%nat → k = 4%nat →
     get_mask targets (Some [(2%Z, [1%Z; 3%Z])])
     = Ok [ [true; true;  true; true ];
            [true; true;  true; true ];
            [true; false; true; false];
            [true; true;  true; true ];
            [true; true;  true; true ] ]).
Proof.
  intros Hm Hk. unfold get_mask. rewrite Hm, Hk.
  split; [reflexivity|]. split; [reflexivity|].
  intros -> ->. reflexivity.
Qed.

Lemma get_mask_spec_witness :
  get_mask (replicate 5 [10; 20; 30; 40]) (Some [(2%Z, [1%Z; 3%Z])])
  = Ok [ [true; true;  true; true ];
         [true; true;  true; true ];
         [true; false; true; false];
         [true; true;  true; true ];
         [true; true;  true; true ] ].
Proof.
  apply (get_mask_spec 5 4 (replicate 5 [10; 20; 30; 40]));
    reflexivity.
Defined.

(** A dropped cell is False whatever else is dropped: one assignment of
    [mask[row, cols] = False] clears the listed cells of that row. *)
Lemma mask_assign_clears (m k : nat) (mask mask' : list (list bool))
    (row : Z) (cols : list Z) (r c : nat) (mrow : list bool) :
  mask_assign m k mask row cols = Ok mask' →
  norm_index m row = Some r → mask !! r = Some mrow →
  (c < length mrow)%nat → Some c ∈ map (norm_index k) cols →
  ∃ mrow', mask' !! r = Some mrow' ∧ mrow' !! c = Some false.
Proof.
  unfold mask_assign. intros H Hr Hrow Hc Hin.
  rewrite Hr in H. simpl in H.
  destruct (mapM (norm_index k) cols) as [cs|] eqn:Hcs; [|discriminate].
  simpl in H. injection H as <-.
  exists (foldr (λ c acc, <[c := false]> acc) mrow cs). split.
  - rewrite list_lookup_alter_eq, Hrow. reflexivity.
  - apply mapM_Some in Hcs.
    assert (c ∈ cs) as Hccs.
    { apply list_elem_of_fmap in Hin as (z & Hz & Hzin).
      apply list_elem_of_lookup in Hzin as (i & Hi).
      destruct (Forall2_lookup_l _ _ _ _ _ Hcs Hi) as (c' & Hc' & Heq).
      rewrite Heq in Hz. injection Hz as ->.
      apply list_elem_of_lookup. eauto. }
    clear Hcs Hin. induction cs as [|c0 cs IH]; [inversion Hccs|].
    simpl. destruct (decide (c = c0)) as [->|Hne].
    + apply list_lookup_insert_eq.
      clear IH Hccs. induction cs as [|c1 cs IH]; simpl; [exact Hc|].
      rewrite length_insert. exact IH.
    + rewrite list_lookup_insert_ne by congruence.
      apply IH. inversion Hccs; subst; [congruence|assumption].
Qed.

(** ** [rake] *)

Section RakeFacts.
Context (np_exp : float → float) (pinv : mat → mat).

(** The loop makes at most one pass per element of its range. *)
Lemma rake_for_passes Xs d total q range n st n' st' :
  rake_for np_exp pinv Xs d total q range n st = Ok (n', st') →
  (n ≤ n' ≤ n + length range)%nat.
Proof.
  revert n st. induction range as [|i range IH]; intros n st H; simpl in H.
  - injection H as <- <-. simpl. lia.
  - apply bind_Ok in H as ([fl st1] & Hb & H). simpl in H.
    destruct fl.
    + apply IH in H. simpl. lia.
    + injection H as <- <-. simpl. lia.
Qed.

(** [rake] makes at most 10 Newton-Raphson passes. *)
Lemma rake_at_most_10_passes Xs d total q n st :
  rake_run np_exp pinv Xs d total q = Ok (n, st) → (n ≤ 10)%nat.
Proof.
  unfold rake_run. intros H. apply rake_for_passes in H.
  simpl in H. lia.
Qed.

(** A pass whose updated weights hold a NaN or an infinity leaves the
    loop with [g = None]. *)
Lemma rake_body_not_finite Xs d total q i st fl st' :
  rake_body np_exp pinv Xs d total q i st = Ok (fl, st') →
  Np.isnan_any (rk_w1 st') || Np.isinf_any (rk_w1 st') = true →
  fl = Break ∧ rk_g st' = None.
Proof.
  unfold rake_body. intros H Hbad.
  destruct (_ || _) eqn:Hw in H.
  - injection H as <- <-. auto.
  - apply bind_Ok in H as (r & _ & H).
    destruct (r <? EPS1); injection H as <- <-; simpl in Hbad; congruence.
Qed.

(** The state the loop ends in was produced by a pass of its body. *)
Lemma rake_for_last Xs d total q range n st n' st' :
  range ≠ [] →
  rake_for np_exp pinv Xs d total q range n st = Ok (n', st') →
  ∃ i st0 fl, rake_body np_exp pinv Xs d total q i st0 = Ok (fl, st').
Proof.
  revert n st. induction range as [|i range IH]; intros n st Hne H; [congruence|].
  simpl in H. apply bind_Ok in H as ([fl st1] & Hb & H). simpl in H.
  destruct fl.
  - destruct range as [|i' range'].
    + simpl in H. injection H as <- <-. eauto.
    + eapply IH; [discriminate|exact H].
  - injection H as <- <-. eauto.
Qed.

(** [rake] returns None whenever it stops on weights that hold a NaN or
    an infinity. *)
Lemma rake_not_finite_returns_None Xs d total n st :
  rake_run np_exp pinv Xs d total 1 = Ok (n, st) →
  Np.isnan_any (rk_w1 st) || Np.isinf_any (rk_w1 st) = true →
  rake np_exp pinv Xs d total = Ok None.
Proof.
  intros Hrun Hbad. unfold rake. rewrite Hrun. simpl.
  apply rake_for_last in Hrun as (i & st0 & fl & Hb); [|discriminate].
  apply rake_body_not_finite in Hb as [_ ->]; [reflexivity|exact Hbad].
Qed.

(** The test [i == max_iter] fails for every [i] of [range(max_iter)]:
    the branch that would set [g = None] at the cap is never taken, and
    a pass that neither stops nor breaks stores [w1 / d]. *)
Lemma rake_cap_test_false i :
  i ∈ py_range rake_max_iter → (i =? rake_max_iter)%Z = false.
Proof.
  unfold py_range. intros Hi.
  apply list_elem_of_fmap in Hi as (n & -> & Hn).
  apply elem_of_seq in Hn. unfold rake_max_iter in *. lia.
Qed.

Lemma rake_body_continue Xs d total q i st st' :
  i ∈ py_range rake_max_iter →
  rake_body np_exp pinv Xs d total q i st = Ok (Continue, st') →
  rk_g st' = Some (zip_with PrimFloat.div (rk_w1 st') d).
Proof.
  unfold rake_body. intros Hi H.
  rewrite (rake_cap_test_false i Hi) in H.
  destruct (_ || _) in H; [discriminate|].
  apply bind_Ok in H as (r & _ & H).
  destruct (r <? EPS1); [discriminate|].
  injection H as <-. reflexivity.
Qed.

End RakeFacts.

(** C4. [rake] makes at most 10 passes and answers None when the weights
    stop being finite, but at the cap it answers with the unconverged
    weights: for X = [[1],[1],[1]], d = [1,1,1], total = [0.0001] all ten
    passes run, and the vector returned is a finite g whose weighted total
    misses the target by a relative residual far above 1e-8. *)
Theorem rake_cap_returns_unconverged :
  ∃ (g : vec) (st : rake_state) (r : float),
    rake_run exp64 pinv_1x1 [[1]; [1]; [1]] [1; 1; 1] [0.0001] 1 = Ok (10%nat, st)
    ∧ rake exp64 pinv_1x1 [[1]; [1]; [1]] [1; 1; 1] [0.0001] = Ok (Some g)
    ∧ Np.isnan_any g = false ∧ Np.isinf_any g = false
    ∧ rake_residual
        (rake_totals [[1]; [1]; [1]] (zip_with PrimFloat.mul [1; 1; 1] g))
        [0.0001] = Some r
    ∧ (r <? EPS1) = false
    ∧ (0.5 <? r) = true.
Proof.
  do 3 eexists.
  repeat (split; [vm_compute; reflexivity|]).
  vm_compute; reflexivity.
Qed.

(** C5. On the toy problem X = [[1],[1],[1]], d = [1,1,1], total = [6] the
    fifth pass meets the tolerance and breaks before [g] is refreshed, so
    [rake] returns the [g] of the fourth pass: three equal entries close to
    2.0000008, whose weighted total is further than 1e-6 from 6. *)
Theorem rake_toy_returns_stale_g :
  ∃ (g : float) (st : rake_state),
    rake_run exp64 pinv_1x1 [[1]; [1]; [1]] [1; 1; 1] [6] 1 = Ok (5%nat, st)
    ∧ rake exp64 pinv_1x1 [[1]; [1]; [1]] [1; 1; 1] [6] = Ok (Some [g; g; g])
    ∧ (g =? 2) = false
    ∧ (2.0000008 <? g) = true ∧ (g <? 2.00000081) = true
    ∧ (1e-6 <? abs (Np.dot [1; 1; 1] (zip_with PrimFloat.mul [1; 1; 1] [g; g; g]) - 6)) = true
    ∧ (abs (Np.dot [1; 1; 1] (rk_w1 st) - 6) <? 1e-6) = true.
Proof.
  do 2 eexists.
  repeat (split; [vm_compute; reflexivity|]).
  vm_compute; reflexivity.
Qed.

(** ** The per-area step of [qrake] *)

Section AreaFacts.
Context (f : calibrator) (xmat_wh targets : mat) (mask : list (list bool)).

(** A [g] with a NaN, an infinity or nothing but zeros is replaced by
    ones. *)
Lemma area_g_identity Q j d g :
  get_col j Q = Some d →
  area_call xmat_wh targets mask f j d = Ok (Some g) →
  Np.isnan_any g || Np.isinf_any g || negb (Np.any g) = true →
  area_g (Some f) xmat_wh targets mask Q j = Ok (Np.ones (length g)).
Proof.
  unfold area_g. intros Hd Hf Hbad. simpl. rewrite Hd. simpl.
  rewrite Hf. simpl. rewrite Hbad. reflexivity.
Qed.

(** Any other [g] is used as it is. *)
Lemma area_g_valid Q j d g :
  get_col j Q = Some d →
  area_call xmat_wh targets mask f j d = Ok (Some g) →
  Np.isnan_any g || Np.isinf_any g || negb (Np.any g) = false →
  area_g (Some f) xmat_wh targets mask Q j = Ok g.
Proof.
  unfold area_g. intros Hd Hf Hok. simpl. rewrite Hd. simpl.
  rewrite Hf. simpl. rewrite Hok. reflexivity.
Qed.

(** The sentinel None is not replaced: testing it with [np.isnan] raises
    a TypeError. *)
Lemma area_g_sentinel Q j d :
  get_col j Q = Some d →
  area_call xmat_wh targets mask f j d = Ok None →
  area_g (Some f) xmat_wh targets mask Q j = Raise TypeError.
Proof.
  unfold area_g. intros Hd Hf. simpl. rewrite Hd. simpl.
  rewrite Hf. reflexivity.
Qed.

End AreaFacts.

(** C1. One record, one area, one characteristic, a target 1000 times the
    current total: the first Newton-Raphson step overflows [exp], [rake]
    returns its sentinel None, and [qrake] does not substitute ones for
    it: the TypeError of [np.isnan(None)] escapes. *)
Theorem qrake_sentinel_raises (ec : solver) :
  rake exp64 pinv_1x1 [[1]] [1] [1000] = Ok None
  ∧ qrake exp64 pinv_1x1 ec [[1]] [1] [[1]] [[1000]] "raking" 200 None ENTROPY
    = Raise TypeError.
Proof.
  split; vm_compute; reflexivity.
Qed.

(** A sweep that meets an infinite |row sum - 1| prints the message and
    stores the tolerance itself, which is not above the tolerance: the
    weight half of the while condition is false after that sweep. *)
Lemma sweep_infinite_passes_weight_test
    (gfn : option calibrator) (wh : vec) (xmat xmat_wh targets : mat)
    (mask : list (list bool)) (st st' : qstate) (Qa : mat) :
  sweep gfn wh xmat xmat_wh targets mask st = Ok st' →
  sweep_areas gfn xmat_wh targets mask (seq 0 (length targets)) (qs_Q st) = Ok Qa →
  Np.isinf_any (abswtdiff Qa) = true →
  qs_max_weight_absdiff st' = TOL_WTDIFF
  ∧ (TOL_WTDIFF <? qs_max_weight_absdiff st') = false
  ∧ EvInfinite ∈ qs_log st'.
Proof.
  unfold sweep. intros H Ha Hinf. rewrite Ha in H. simpl in H.
  destruct (Np.max (abswtdiff Qa)) as [mw|]; simpl in H; [|discriminate].
  destruct (Np.max (masked _ mask)) as [mt|]; simpl in H; [|discriminate].
  injection H as <-. simpl. rewrite Hinf.
  split; [reflexivity|]. split; [vm_compute; reflexivity|].
  apply elem_of_app. right. apply elem_of_app. left. left.
Qed.

(** C7. Two records, two areas; the second record's shares sum to
    infinity. The sweep prints the message about infinite coefficients and
    sets [max_weight_absdiff] to the tolerance itself, which passes the
    test [max_weight_absdiff > TOL_WTDIFF]: the loop stops after that very
    sweep, below the cap and without the message about the cap, and the
    returned Q has a row of zeros. *)
Theorem qrake_infinite_rowsum_stops (ec : solver) :
  ∃ st : qstate,
    qrake_run exp64 pinv_1x1 ec
      [[0.5; 0.5]; [1e308; 1e308]] [1; 1] [[1]; [0]] [[0.5]; [0.5]]
      "raking" 200 None ENTROPY = Ok st
    ∧ qs_log st = [EvInfinite; EvSweep 1 infinity 0]
    ∧ qs_iter st = 2%Z
    ∧ qs_Q st = [[0.5; 0.5]; [0; 0]].
Proof.
  eexists.
  repeat (split; [vm_compute; reflexivity|]).
  vm_compute; reflexivity.
Qed.

(** ** Columns of [Q] *)

Lemma get_col_length j (Q : mat) d : get_col j Q = Some d → length d = length Q.
Proof.
  unfold get_col. intros H. apply length_mapM in H. symmetry. exact H.
Qed.

Lemma broadcast_mul_length c g v : broadcast_mul c g = Some v → length v = length c.
Proof.
  unfold broadcast_mul. destruct (decide _) as [Hl|Hl].
  - intros [= <-]. rewrite length_zip_with. lia.
  - destruct g as [|x [|? ?]]; try discriminate.
    intros [= <-]. apply length_map.
Qed.

(** Assigning column [j] leaves every other column as it was. *)
Lemma get_col_set_col_ne j j' (c : vec) (Q : mat) :
  j ≠ j' → length c = length Q → get_col j' (set_col j c Q) = get_col j' Q.
Proof.
  intros Hne. unfold get_col, set_col.
  revert c. induction Q as [|row Q IH]; intros [|x c] Hlen; try discriminate; [reflexivity|].
  simpl in *. rewrite list_lookup_insert_ne by congruence.
  rewrite IH by lia. reflexivity.
Qed.

Section SweepFacts.
Context (gfn : option calibrator) (xmat_wh targets : mat)
        (mask : list (list bool)).

(** The adjustment for area [j] reads [Q] through column [j] only. *)
Lemma area_g_reads_own_column Q Q0 j :
  get_col j Q = get_col j Q0 →
  area_g gfn xmat_wh targets mask Q j = area_g gfn xmat_wh targets mask Q0 j.
Proof. unfold area_g. intros ->. reflexivity. Qed.

Lemma sweep_areas_sync_eq Q0 js Q :
  NoDup js → (∀ j, j ∈ js → get_col j Q = get_col j Q0) →
  sweep_areas gfn xmat_wh targets mask js Q
  = sweep_areas_sync gfn xmat_wh targets mask Q0 js Q.
Proof.
  intros Hnd. revert Q. induction Hnd as [|j js Hj Hnd IH]; intros Q Hcols.
  - reflexivity.
  - simpl. unfold area_step, area_apply.
    rewrite (area_g_reads_own_column Q Q0 j) by (apply Hcols; left).
    destruct (area_g gfn xmat_wh targets mask Q0 j) as [g|e]; [|reflexivity].
    simpl. rewrite (Hcols j) by left.
    destruct (get_col j Q0) as [d|] eqn:Hd; [|reflexivity]. simpl.
    destruct (broadcast_mul d g) as [c|] eqn:Hc; [|reflexivity]. simpl.
    apply IH. intros j' Hj'.
    rewrite get_col_set_col_ne.
    + apply Hcols. right. exact Hj'.
    + intros ->. contradiction.
    + apply broadcast_mul_length in Hc. rewrite Hc.
      rewrite <- (Hcols j) in Hd by left.
      apply get_col_length in Hd. exact Hd.
Qed.

End SweepFacts.

(** C6. Within a sweep the areas are processed one after the other in
    index order on the current Q, yet the adjustment for an area is
    computed from that area's own column, which no earlier area of the
    sweep has written: the sweep over areas 0..m-1 gives exactly the result
    of the synchronized (Jacobi) update computed from the Q the sweep
    started with, including the exception raised, if any. *)
Theorem sweep_areas_is_synchronized
    (gfn : option calibrator) (xmat_wh targets : mat) (mask : list (list bool))
    (m : nat) (Q : mat) :
  sweep_areas gfn xmat_wh targets mask (seq 0 m) Q
  = sweep_areas_sync gfn xmat_wh targets mask Q (seq 0 m) Q.
Proof.
  apply sweep_areas_sync_eq; [apply NoDup_seq|reflexivity].
Qed.

(** C6, at a concrete input: one record with national weight 2 split
    evenly over two areas with targets 1.5 and 0.5. Area 0 changes Q, and
    the adjustment of area 1 is the same from the changed Q as from the
    Q the sweep started with. *)
Lemma later_area_ignores_earlier_update :
  let gfn := select_gfn exp64 pinv_1x1 baseline_solver "raking" ENTROPY in
  let Q := [[0.5; 0.5]] in
  let xmat_wh := scale_rows [[1]] [2] in
  let targets := [[1.5]; [0.5]] in
  let mask := [[true]; [true]] in
  ∃ (x : float) (g : vec),
    area_step gfn xmat_wh targets mask Q 0 = Ok [[x; 0.5]]
    ∧ (x =? 0.5) = false
    ∧ area_g gfn xmat_wh targets mask [[x; 0.5]] 1 = Ok g
    ∧ area_g gfn xmat_wh targets mask Q 1 = Ok g.
Proof.
  do 2 eexists.
  repeat (split; [vm_compute; reflexivity|]).
  vm_compute; reflexivity.
Qed.

(** ** Comparisons of binary64 values *)

Lemma is_nan_false_spec (x : float) : is_nan x = false → Prim2SF x ≠ S754_nan.
Proof.
  unfold is_nan. rewrite FloatAxioms.eqb_spec. intros H Hn.
  rewrite Hn in H. discriminate.
Qed.

(** Away from NaN, "not greater" is "less or equal". *)
Lemma ltb_negb_leb (x y : float) :
  is_nan x = false → is_nan y = false → (x <? y) = negb (y <=? x).
Proof.
  intros Hx%is_nan_false_spec Hy%is_nan_false_spec.
  rewrite FloatAxioms.ltb_spec, FloatAxioms.leb_spec.
  unfold SFltb, SFleb.
  destruct (Prim2SF x) as [sx|sx| |sx mx ex], (Prim2SF y) as [sy|sy| |sy my ey];
    try congruence; simpl;
    try (destruct sx; reflexivity); try (destruct sy; reflexivity);
    try (destruct sx, sy; reflexivity).
  assert (Pos.compare_cont Eq my mx = CompOpp (Pos.compare_cont Eq mx my)) as Ha
    by (symmetry; apply (Pos.compare_cont_antisym mx my Eq)).
  destruct sx, sy; try reflexivity;
    rewrite (Z.compare_antisym ex ey);
    destruct (ex ?= ey)%Z; simpl; try reflexivity;
    rewrite Ha; destruct (Pos.compare_cont Eq mx my); reflexivity.
Qed.

(** With a NaN operand both comparisons are false. *)
Lemma nan_compares_false (x y : float) :
  is_nan y = true → (x <? y) = false ∧ (y <=? x) = false.
Proof.
  unfold is_nan. rewrite FloatAxioms.eqb_spec, FloatAxioms.ltb_spec, FloatAxioms.leb_spec.
  unfold SFltb, SFleb, SFeqb.
  destruct (Prim2SF y) as [sy|sy| |sy my ey] eqn:Ey; simpl.
  - discriminate.
  - destruct sy; discriminate.
  - intros _. destruct (Prim2SF x); auto.
  - destruct sy; rewrite Z.compare_refl, Pos.compare_cont_refl; discriminate.
Qed.

(** ** What [rake] and [get_mask] can raise *)

Lemma rake_raises_ValueError np_exp pinv Xs d total e :
  rake np_exp pinv Xs d total = Raise e → e = ValueError.
Proof.
  unfold rake, rake_run.
  generalize (rake_init np_exp Xs d 1) as st, O as n, (py_range rake_max_iter) as range.
  intros st n range. revert st n.
  induction range as [|i range IH]; intros st n H; simpl in H; [discriminate|].
  unfold rake_body in H at 1.
  destruct (_ || _) in H; simpl in H; [discriminate|].
  destruct (rake_residual _ _) as [r|]; simpl in H; [|congruence].
  destruct (r <? EPS1); simpl in H; [discriminate|].
  eapply IH. exact H.
Qed.

Lemma select_gfn_proper np_exp pinv ec method obj :
  proper (select_gfn np_exp pinv ec method obj).
Proof.
  unfold proper, select_gfn. intros f X d t Hf.
  destruct (String.eqb method "raking").
  - injection Hf as <-. intros H. apply rake_raises_ValueError in H. discriminate.
  - destruct (String.eqb method "raking-ec"); [|discriminate].
    injection Hf as <-. discriminate.
Qed.

Lemma get_mask_raises_IndexError targets drops e :
  get_mask targets drops = Raise e → e = IndexError.
Proof.
  unfold get_mask. destruct drops as [items|]; [|discriminate].
  generalize (replicate (length targets) (replicate (Np.ncols targets) true)) as mask.
  induction items as [|[row cols] items IH]; intros mask H; simpl in H; [discriminate|].
  unfold mask_assign in H at 1.
  destruct (norm_index (length targets) row); simpl in H; [|congruence].
  destruct (mapM _ cols); simpl in H; [|congruence].
  eapply IH. exact H.
Qed.

(** ** The outer loop *)

Section LoopFacts.
Context (gfn : option calibrator) (wh : vec) (xmat xmat_wh targets : mat)
        (mask : list (list bool)) (maxiter : Z).

Local Abbreviation areas := (sweep_areas gfn xmat_wh targets mask).
Local Abbreviation sweep1 := (sweep gfn wh xmat xmat_wh targets mask).
Local Abbreviation while := (qrake_while gfn wh xmat xmat_wh targets mask maxiter).

(** A sweep that completes, spelled out. *)
Lemma sweep_Ok st st' :
  sweep1 st = Ok st' →
  ∃ (Qa : mat) (mw mt : float),
    areas (seq 0 (length targets)) (qs_Q st) = Ok Qa
    ∧ Np.max (abswtdiff Qa) = Some mw
    ∧ Np.max (masked (abspctdiff (renormalize Qa) wh xmat targets) mask) = Some mt
    ∧ st' = {| qs_Q := renormalize Qa;
               qs_iter := (qs_iter st + 1)%Z;
               qs_max_weight_absdiff :=
                 if Np.isinf_any (abswtdiff Qa) then TOL_WTDIFF else mw;
               qs_max_targ_abspctdiff := mt;
               qs_abspctdiff := Some (abspctdiff (renormalize Qa) wh xmat targets);
               qs_log := qs_log st
                         ++ (if Np.isinf_any (abswtdiff Qa) then [EvInfinite] else [])
                         ++ [EvSweep (qs_iter st) mw mt] |}.
Proof.
  unfold sweep. intros H.
  apply bind_Ok in H as (Qa & HQa & H).
  apply bind_Ok in H as (mw & Hmw%of_option_Ok & H).
  apply bind_Ok in H as (mt & Hmt%of_option_Ok & H).
  injection H as <-. exists Qa, mw, mt. auto.
Qed.

Lemma max_Some_nonempty v x : Np.max v = Some x → v ≠ [].
Proof. destruct v; [discriminate|congruence]. Qed.

Lemma max_nonempty v : v ≠ [] → ∃ x, Np.max v = Some x.
Proof. destruct v; [congruence|]. simpl. eauto. Qed.

Lemma sweep_swept st st' : sweep1 st = Ok st' → swept mask st'.
Proof.
  intros (Qa & mw & mt & _ & Hmw & Hmt & ->)%sweep_Ok.
  exists Qa, (abspctdiff (renormalize Qa) wh xmat targets). simpl.
  repeat split.
  - apply max_Some_nonempty in Hmw. intros ->. apply Hmw. reflexivity.
  - apply max_Some_nonempty in Hmt. exact Hmt.
Qed.

Lemma sweeps_logged_app l1 l2 :
  sweeps_logged (l1 ++ l2) = (sweeps_logged l1 + sweeps_logged l2)%nat.
Proof. unfold sweeps_logged. rewrite filter_app, length_app. reflexivity. Qed.

Lemma sweep_logged st st' :
  sweep1 st = Ok st' →
  qs_iter st' = (qs_iter st + 1)%Z
  ∧ sweeps_logged (qs_log st') = S (sweeps_logged (qs_log st)).
Proof.
  intros (Qa & mw & mt & _ & _ & _ & ->)%sweep_Ok. simpl. split; [reflexivity|].
  rewrite !sweeps_logged_app.
  destruct (Np.isinf_any _); unfold sweeps_logged; simpl; lia.
Qed.

(** The loop is left only when its condition fails. *)
Lemma qrake_while_exit fuel st st' :
  while fuel st = Ok st' → loop_cond maxiter st' = false.
Proof.
  revert st. induction fuel as [|fuel IH]; intros st H; simpl in H.
  - destruct (loop_cond maxiter st) eqn:Hc; [discriminate|]. congruence.
  - destruct (loop_cond maxiter st) eqn:Hc; [|congruence].
    apply bind_Ok in H as (st1 & _ & H). eauto.
Qed.

(** The counter moves by one per sweep and never passes the cap by
    more than one; each sweep prints one line. *)
Lemma qrake_while_counts fuel st st' :
  while fuel st = Ok st' →
  (qs_iter st ≤ qs_iter st')%Z
  ∧ (qs_iter st' ≤ Z.max (qs_iter st) (maxiter + 1))%Z
  ∧ Z.of_nat (sweeps_logged (qs_log st'))
    = (Z.of_nat (sweeps_logged (qs_log st)) + (qs_iter st' - qs_iter st))%Z.
Proof.
  revert st. induction fuel as [|fuel IH]; intros st H; simpl in H.
  - destruct (loop_cond maxiter st) eqn:Hc; [discriminate|].
    injection H as <-. lia.
  - destruct (loop_cond maxiter st) eqn:Hc; [|injection H as <-; lia].
    apply bind_Ok in H as (st1 & Hs & H).
    apply sweep_logged in Hs as [Hi Hl]. apply IH in H.
    unfold loop_cond, within_cap in Hc.
    apply andb_true_iff in Hc as [_ Hc]. lia.
Qed.

(** Once a sweep has been made the loop keeps the variables swept. *)
Lemma qrake_while_swept fuel st st' :
  swept mask st ∨ loop_cond maxiter st = true →
  while fuel st = Ok st' → swept mask st'.
Proof.
  revert st. induction fuel as [|fuel IH]; intros st Hst H; simpl in H.
  - destruct (loop_cond maxiter st) eqn:Hc; [discriminate|].
    injection H as <-. destruct Hst; [assumption|discriminate].
  - destruct (loop_cond maxiter st) eqn:Hc.
    + apply bind_Ok in H as (st1 & Hs & H).
      eapply IH; [|exact H]. left. eapply sweep_swept. exact Hs.
    + injection H as <-. destruct Hst; [assumption|discriminate].
Qed.

(** What a sweep raises comes from the calibrator or is a Python
    exception. *)
Lemma areas_not_OutOfFuel js Q : proper gfn → areas js Q ≠ Raise OutOfFuel.
Proof.
  intros Hp. revert Q. induction js as [|j js IH]; intros Q; simpl; [discriminate|].
  unfold area_step, area_g, area_apply, area_call.
  destruct gfn as [f|] eqn:Hg; simpl; [|discriminate].
  destruct (get_col j Q) as [d|]; simpl; [|discriminate].
  destruct (f _ d _) as [[g|]|e] eqn:Hf; simpl.
  - destruct (_ || _); simpl;
      (destruct (broadcast_mul _ _); simpl; [apply IH|discriminate]).
  - discriminate.
  - intros [= ->]. eapply Hp; [reflexivity|exact Hf].
Qed.

Lemma sweep_not_OutOfFuel st : proper gfn → sweep1 st ≠ Raise OutOfFuel.
Proof.
  intros Hp. unfold sweep.
  destruct (areas _ _) as [Qa|e] eqn:Ha; simpl.
  - destruct (Np.max (abswtdiff Qa)); simpl; [|discriminate].
    destruct (Np.max (masked _ _)); simpl; discriminate.
  - intros [= ->]. eapply areas_not_OutOfFuel; eauto.
Qed.

(** [maxiter + 1 - iter] passes are enough: the bound of the model is
    never what stops the loop. *)
Lemma qrake_while_enough_fuel fuel st :
  proper gfn → (maxiter + 1 - qs_iter st ≤ Z.of_nat fuel)%Z →
  while fuel st ≠ Raise OutOfFuel.
Proof.
  intros Hp. revert st. induction fuel as [|fuel IH]; intros st Hfuel; simpl.
  - destruct (loop_cond maxiter st) eqn:Hc; [|discriminate].
    unfold loop_cond, within_cap in Hc.
    apply andb_true_iff in Hc as [_ Hc]. lia.
  - destruct (loop_cond maxiter st) eqn:Hc; [|discriminate].
    destruct (sweep1 st) as [st1|e] eqn:Hs; simpl.
    + apply IH. apply sweep_logged in Hs as [Hi _]. lia.
    + intros [= ->]. eapply sweep_not_OutOfFuel; eauto.
Qed.

End LoopFacts.

(** ** The stopping rule *)

(** C2. After a completed sweep, [max_weight_absdiff] is the largest
    |row sum - 1| of Q as the areas left it, before the rows are
    renormalised (or the tolerance itself, when some row sum is infinite),
    and [max_targ_abspctdiff] is the largest percent difference of the
    renormalised Q over the masked cells. The loop takes its converged exit
    after that sweep exactly when neither [max_weight_absdiff > 0.0005] nor
    [max_targ_abspctdiff > 0.1] holds; when neither value is NaN that is
    [max_weight_absdiff <= 0.0005] and [max_targ_abspctdiff <= 0.1], while
    a NaN [max_targ_abspctdiff] is neither above 0.1 nor at most 0.1. *)
Theorem converged_exit_condition
    (gfn : option calibrator) (wh : vec) (xmat xmat_wh targets : mat)
    (mask : list (list bool)) (maxiter : Z) (st st' : qstate) :
  sweep gfn wh xmat xmat_wh targets mask st = Ok st' →
  (∃ (Qa : mat) (mw : float),
      sweep_areas gfn xmat_wh targets mask (seq 0 (length targets)) (qs_Q st) = Ok Qa
      ∧ Np.max (abswtdiff Qa) = Some mw
      ∧ qs_max_weight_absdiff st'
        = (if Np.isinf_any (abswtdiff Qa) then TOL_WTDIFF else mw)
      ∧ qs_Q st' = renormalize Qa
      ∧ Np.max (masked (abspctdiff (qs_Q st') wh xmat targets) mask)
        = Some (qs_max_targ_abspctdiff st'))
  ∧ (∀ fuel,
      (above_tolerance st' = false →
         qrake_while gfn wh xmat xmat_wh targets mask maxiter fuel st' = Ok st')
      ∧ (above_tolerance st' = true → within_cap maxiter st' = true →
         qrake_while gfn wh xmat xmat_wh targets mask maxiter (S fuel) st'
         = sweep gfn wh xmat xmat_wh targets mask st'
           ≫= qrake_while gfn wh xmat xmat_wh targets mask maxiter fuel))
  ∧ (above_tolerance st' = false ↔
       (TOL_WTDIFF <? qs_max_weight_absdiff st') = false
       ∧ (TOL_TARGPCTDIFF <? qs_max_targ_abspctdiff st') = false)
  ∧ (is_nan (qs_max_weight_absdiff st') = false →
     is_nan (qs_max_targ_abspctdiff st') = false →
     (above_tolerance st' = false ↔
        (qs_max_weight_absdiff st' <=? TOL_WTDIFF) = true
        ∧ (qs_max_targ_abspctdiff st' <=? TOL_TARGPCTDIFF) = true))
  ∧ (is_nan (qs_max_targ_abspctdiff st') = true →
     (TOL_TARGPCTDIFF <? qs_max_targ_abspctdiff st') = false
     ∧ (qs_max_targ_abspctdiff st' <=? TOL_TARGPCTDIFF) = false).
Proof.
  intros Hs. split; [|split; [|split; [|split]]].
  5:{ apply nan_compares_false. }
  - apply sweep_Ok in Hs as (Qa & mw & mt & Ha & Hmw & Hmt & ->).
    exists Qa, mw. simpl. auto.
  - intros fuel. split.
    + intros Hc. destruct fuel; simpl; unfold loop_cond; rewrite Hc; reflexivity.
    + intros Hc Hw. simpl. unfold loop_cond. rewrite Hc, Hw. reflexivity.
  - unfold above_tolerance. apply orb_false_iff.
  - intros Hw Ht. unfold above_tolerance.
    rewrite orb_false_iff.
    rewrite (ltb_negb_leb TOL_WTDIFF _) by (exact Hw || reflexivity).
    rewrite (ltb_negb_leb TOL_TARGPCTDIFF _) by (exact Ht || reflexivity).
    rewrite !negb_false_iff. reflexivity.
Qed.

Lemma converged_exit_condition_witness :
  ∃ st' : qstate,
    sweep (select_gfn exp64 pinv_1x1 baseline_solver "raking" ENTROPY)
          [2] [[1]] (scale_rows [[1]] [2]) [[1.5]; [0.5]] [[true]; [true]]
          (qrake_init [[0.5; 0.5]]) = Ok st'
    ∧ (above_tolerance st' = false ↔
        (qs_max_weight_absdiff st' <=? TOL_WTDIFF) = true
        ∧ (qs_max_targ_abspctdiff st' <=? TOL_TARGPCTDIFF) = true).
Proof.
  eexists. split; [vm_compute; reflexivity|].
  eapply (converged_exit_condition
            (select_gfn exp64 pinv_1x1 baseline_solver "raking" ENTROPY)
            [2] [[1]] (scale_rows [[1]] [2]) [[1.5]; [0.5]] [[true]; [true]]
            200 (qrake_init [[0.5; 0.5]])).
  - vm_compute; reflexivity.
  - vm_compute; reflexivity.
  - vm_compute; reflexivity.
Defined.

(** C2, where it fails as stated: one record, one area, a characteristic
    and a target that are both zero. The percent difference is 0/0, so
    [max_targ_abspctdiff] is NaN; the loop stops after the first sweep,
    far below the cap, although [max_targ_abspctdiff <= 0.1] is false. *)
Lemma converged_exit_with_nan :
  ∃ st : qstate,
    qrake_run exp64 pinv_1x1 baseline_solver
      [[1]] [1] [[0]] [[0]] "raking" 200 None ENTROPY = Ok st
    ∧ qs_iter st = 2%Z
    ∧ qs_log st = [EvSweep 1 0 nan]
    ∧ above_tolerance st = false
    ∧ within_cap 200 st = true
    ∧ is_nan (qs_max_targ_abspctdiff st) = true
    ∧ (qs_max_targ_abspctdiff st <=? TOL_TARGPCTDIFF) = false.
Proof.
  eexists.
  repeat (split; [vm_compute; reflexivity|]).
  vm_compute; reflexivity.
Qed.

(** ** Renormalisation of the rows *)

Lemma renormalize_with_lookup {A} (add : A → A → A) (zero : A) (div : A → A → A)
    (a : list (list A)) (i : nat) (row : list A) :
  a !! i = Some row →
  renormalize_with add zero div a !! i
  = Some (map (λ x, div x (sum_with add zero row)) row).
Proof.
  intros H. unfold renormalize_with. rewrite list_lookup_fmap, H. reflexivity.
Qed.

Lemma renormalize_lookup (Qa : mat) (i : nat) (row : vec) :
  Qa !! i = Some row →
  renormalize Qa !! i = Some (map (λ x, x / Np.sum row) row).
Proof. apply renormalize_with_lookup. Qed.

Lemma post_process_Ok mask maxiter (st st' : qstate) :
  post_process mask maxiter st = Ok st' →
  qs_Q st' = qs_Q st ∧ qs_iter st' = qs_iter st
  ∧ qs_log st' = qs_log st ++ (if (maxiter <? qs_iter st)%Z then [EvMaxIter] else []).
Proof.
  unfold post_process. intros H.
  apply bind_Ok in H as (mw & _ & H).
  apply bind_Ok in H as (apd & _ & H).
  apply bind_Ok in H as (? & _ & H).
  apply bind_Ok in H as (? & _ & H).
  injection H as <-. auto.
Qed.

Lemma masked_nonempty (apd : mat) mask : masked apd mask ≠ [] → concat apd ≠ [].
Proof.
  unfold masked. revert mask.
  induction apd as [|row apd IH]; intros mask H; [contradiction H; reflexivity|].
  destruct mask as [|mrow mask]; [contradiction H; reflexivity|].
  simpl in *. destruct row as [|x row].
  - destruct mrow; simpl in H; eapply IH; exact H.
  - discriminate.
Qed.

(** After a sweep the summary that follows the loop goes through. *)
Lemma post_process_swept mask maxiter (st : qstate) :
  swept mask st → ∃ st', post_process mask maxiter st = Ok st'.
Proof.
  intros (Qa & apd & HQa & HQ & Hapd & Hm). unfold post_process.
  destruct (max_nonempty (abswtdiff (qs_Q st))) as [mw ->].
  { rewrite HQ. destruct Qa; [congruence|discriminate]. }
  rewrite Hapd. simpl.
  destruct (max_nonempty (concat apd)) as [x ->]; [eapply masked_nonempty; eauto|].
  destruct (max_nonempty (masked apd mask)) as [y ->]; [assumption|].
  simpl. eauto.
Qed.

(** The loop is entered whenever the cap allows one sweep. *)
Lemma loop_cond_init {A} (maxiter : Z) (Q : A) :
  (1 ≤ maxiter)%Z → loop_cond maxiter (qrake_init Q) = true.
Proof.
  intros H. unfold loop_cond. apply andb_true_intro. split.
  - vm_compute; reflexivity.
  - apply Z.leb_le. exact H.
Qed.

(** *** Rounding in binary64

    The bound on the row sums rests on how [SpecFloat] rounds: a right
    shift that keeps a round and a sticky bit, then rounding to nearest
    even. *)

(** Powers of two. *)
Section Pow.
Local Open Scope R_scope.

Lemma bpow_pos e : 0 < bpow e.
Proof. apply powerRZ_lt. lra. Qed.

Lemma bpow_add a b : bpow (a + b) = bpow a * bpow b.
Proof. apply powerRZ_add. lra. Qed.

Lemma bpow_IZR e : (0 ≤ e)%Z → bpow e = IZR (2 ^ e).
Proof.
  intros H. unfold bpow. destruct e as [|p|p]; [reflexivity| |lia].
  rewrite <- Zpower_pos_powerRZ. reflexivity.
Qed.

Lemma bpow_ge_1 e : (0 ≤ e)%Z → 1 <= bpow e.
Proof.
  intros H. rewrite bpow_IZR by exact H. apply IZR_le.
  pose proof (Z.pow_pos_nonneg 2 e). lia.
Qed.

Lemma bpow_le a b : (a ≤ b)%Z → bpow a <= bpow b.
Proof.
  intros H. replace b with (a + (b - a))%Z by lia. rewrite bpow_add.
  pose proof (bpow_pos a). pose proof (bpow_ge_1 (b - a) ltac:(lia)). nra.
Qed.

Lemma bpow_succ a : bpow (a + 1) = 2 * bpow a.
Proof. rewrite bpow_add. unfold bpow at 2. simpl. lra. Qed.

Lemma bpow_lt a b : (a < b)%Z → bpow a < bpow b.
Proof.
  intros H. pose proof (bpow_le (a + 1) b ltac:(lia)) as H1.
  rewrite bpow_succ in H1. pose proof (bpow_pos a). lra.
Qed.

Lemma bpow_pred a : bpow (a - 1) = bpow a / 2.
Proof.
  pose proof (bpow_succ (a - 1)) as H. replace (a - 1 + 1)%Z with a in H by lia. lra.
Qed.

End Pow.

Lemma digits2_bounds (m : positive) :
  (2 ^ (Zpos (digits2_pos m) - 1) ≤ Zpos m < 2 ^ Zpos (digits2_pos m))%Z.
Proof.
  induction m as [m IH|m IH|]; simpl digits2_pos.
  - rewrite Pos2Z.inj_succ.
    replace (Z.succ (Zpos (digits2_pos m)) - 1)%Z with (Zpos (digits2_pos m) - 1 + 1)%Z by lia.
    rewrite Z.pow_succ_r by lia. rewrite Z.pow_add_r by lia. lia.
  - rewrite Pos2Z.inj_succ.
    replace (Z.succ (Zpos (digits2_pos m)) - 1)%Z with (Zpos (digits2_pos m) - 1 + 1)%Z by lia.
    rewrite Z.pow_succ_r by lia. rewrite Z.pow_add_r by lia. lia.
  - simpl. lia.
Qed.

Lemma Zdigits2_bounds (m : Z) :
  (0 < m)%Z → (2 ^ (Zdigits2 m - 1) ≤ m < 2 ^ Zdigits2 m)%Z ∧ (0 < Zdigits2 m)%Z.
Proof.
  destruct m as [|p|p]; try lia. intros _. simpl. split; [apply digits2_bounds|lia].
Qed.

Lemma Zdigits2_le (m k : Z) : (0 < m)%Z → (0 ≤ k)%Z → (m < 2 ^ k)%Z → (Zdigits2 m ≤ k)%Z.
Proof.
  intros Hm Hk Hlt. destruct (Zdigits2_bounds m Hm) as [[Hlo _] Hd].
  destruct (Z_le_gt_dec (Zdigits2 m) k) as [|Hgt]; [assumption|exfalso].
  assert (2 ^ k ≤ 2 ^ (Zdigits2 m - 1))%Z by (apply Z.pow_le_mono_r; lia). lia.
Qed.

Lemma Zdigits2_ge (m k : Z) : (0 ≤ k)%Z → (2 ^ k ≤ m)%Z → (k + 1 ≤ Zdigits2 m)%Z.
Proof.
  intros Hk Hle. assert (0 < m)%Z as Hm by (pose proof (Z.pow_pos_nonneg 2 k); lia).
  destruct (Zdigits2_bounds m Hm) as [[_ Hhi] Hd].
  destruct (Z_le_gt_dec (k + 1) (Zdigits2 m)) as [|Hgt]; [assumption|exfalso].
  assert (2 ^ Zdigits2 m ≤ 2 ^ k)%Z by (apply Z.pow_le_mono_r; lia). lia.
Qed.

(** The right shift [shr]: the round and sticky bits keep track of where
    the number lies between two mantissas. *)
Section Shr.
Local Open Scope R_scope.

Lemma shr_1_ok v mrs : rec_ok v mrs → rec_ok (v / 2) (shr_1 mrs).
Proof.
  destruct mrs as [m r s]. unfold rec_ok. simpl shr_m. intros [Hm H].
  destruct m as [|p|p]; [| |lia].
  - destruct r, s; simpl in *; split; try lia; lra.
  - destruct p as [p|p|].
    + assert (IZR (Zpos p~1) = 2 * IZR (Zpos p) + 1) as E
        by (rewrite Pos2Z.inj_xI, plus_IZR, mult_IZR; reflexivity).
      unfold shr_1.
      destruct r, s; cbn [loc_of_shr_record loc_ok shr_m orb] in *;
        (split; [lia|]); rewrite E in H; lra.
    + assert (IZR (Zpos p~0) = 2 * IZR (Zpos p)) as E
        by (rewrite Pos2Z.inj_xO, mult_IZR; reflexivity).
      unfold shr_1.
      destruct r, s; cbn [loc_of_shr_record loc_ok shr_m orb] in *;
        (split; [lia|]); rewrite E in H; lra.
    + destruct r, s; simpl in *; split; try lia; lra.
Qed.

Lemma iter_pos_shr_ok p : ∀ v mrs,
  rec_ok v mrs → rec_ok (v / bpow (Zpos p)) (SpecFloat.iter_pos shr_1 p mrs).
Proof.
  induction p as [p IH|p IH|]; intros v mrs H; simpl.
  - apply shr_1_ok in H. apply IH in H. apply IH in H.
    replace (v / bpow (Zpos p~1)) with (v / 2 / bpow (Zpos p) / bpow (Zpos p)); [exact H|].
    replace (Zpos p~1) with (Zpos p + Zpos p + 1)%Z by lia.
    rewrite bpow_succ, bpow_add. pose proof (bpow_pos (Zpos p)). field. lra.
  - apply IH in H. apply IH in H.
    replace (v / bpow (Zpos p~0)) with (v / bpow (Zpos p) / bpow (Zpos p)); [exact H|].
    replace (Zpos p~0) with (Zpos p + Zpos p)%Z by lia.
    rewrite bpow_add. pose proof (bpow_pos (Zpos p)). field. lra.
  - apply shr_1_ok in H. replace (bpow 1) with 2; [exact H|]. unfold bpow. simpl. lra.
Qed.

(** [x] is the number being rounded; the record holds it at exponent [e]. *)
Lemma shr_ok x mrs e n mrs' e' :
  rec_ok (x / bpow e) mrs →
  shr mrs e n = (mrs', e') →
  e' = Z.max e (e + n) ∧ rec_ok (x / bpow e') mrs'
  ∧ ((n ≤ 0)%Z → mrs' = mrs).
Proof.
  intros H. unfold shr. destruct n as [|p|p]; intros [= <- <-].
  - split; [lia|]. split; [exact H|auto].
  - split; [lia|]. split; [|lia].
    apply (iter_pos_shr_ok p) in H. rewrite bpow_add.
    replace (x / (bpow e * bpow (Zpos p))) with (x / bpow e / bpow (Zpos p)); [exact H|].
    pose proof (bpow_pos e). pose proof (bpow_pos (Zpos p)). field. lra.
  - split; [lia|]. split; [exact H|auto].
Qed.

Lemma shr_record_of_loc_ok v m l :
  (0 ≤ m)%Z → loc_ok v m l → rec_ok v (shr_record_of_loc m l).
Proof.
  intros Hm H. unfold rec_ok.
  destruct l as [|[| |]]; simpl; auto.
Qed.

Lemma round_nearest_even_ok v mrs :
  rec_ok v mrs →
  let mr := round_nearest_even (shr_m mrs) (loc_of_shr_record mrs) in
  (shr_m mrs ≤ mr ≤ shr_m mrs + 1)%Z
  ∧ - / 2 <= IZR mr - v <= / 2
  ∧ IZR (shr_m mrs) <= v < IZR (shr_m mrs) + 1
  ∧ (loc_of_shr_record mrs = loc_Exact → IZR mr = v).
Proof.
  intros [Hm H]. simpl.
  destruct (loc_of_shr_record mrs) as [|[| |]]; simpl in *.
  - split; [lia|]. split; [lra|]. split; [lra|auto].
  - destruct (Z.even (shr_m mrs)); (split; [lia|]);
      (split; [|split; [lra|discriminate]]).
    + lra.
    + rewrite plus_IZR. lra.
  - split; [lia|]. split; [lra|]. split; [lra|discriminate].
  - split; [lia|]. split; [|split; [lra|discriminate]].
    rewrite plus_IZR. lra.
Qed.

Lemma fexp_eq e : fexp prec emax e = Z.max (e - 53) (-1074).
Proof. reflexivity. Qed.

Lemma loc_of_shr_record_of_loc m l :
  loc_of_shr_record (shr_record_of_loc m l) = l ∧ shr_m (shr_record_of_loc m l) = m.
Proof. destruct l as [|[| |]]; split; reflexivity. Qed.

Lemma shr_fexp_ok x m e l mrs' e' :
  (0 ≤ m)%Z → loc_ok (x / bpow e) m l →
  shr_fexp prec emax m e l = (mrs', e') →
  e' = Z.max e (fexp prec emax (Zdigits2 m + e))
  ∧ rec_ok (x / bpow e') mrs'
  ∧ ((fexp prec emax (Zdigits2 m + e) ≤ e)%Z →
     shr_m mrs' = m ∧ loc_of_shr_record mrs' = l).
Proof.
  intros Hm H E. unfold shr_fexp in E.
  eapply shr_ok in E; [|apply shr_record_of_loc_ok; eassumption].
  destruct E as (He & Hr & Hsame). split; [lia|]. split; [exact Hr|].
  intros Hle. rewrite Hsame by lia.
  destruct (loc_of_shr_record_of_loc m l) as [-> ->]. auto.
Qed.

(** What [binary_round_aux] returns for the number [x] that the mantissa
    [mx], the exponent [ex] and the location [lx] describe. *)
Lemma binary_round_aux_ok sx mx ex lx x :
  (0 ≤ mx)%Z → loc_ok (x / bpow ex) mx lx →
  let f := fexp prec emax (Zdigits2 mx + ex) in
  let r := binary_round_aux prec emax sx mx ex lx in
  (r = S754_infinity sx ∧ bpow 971 / 2 <= x)
  ∨ ((r = S754_zero sx ∨ ∃ m e, r = S754_finite sx m e)
     ∧ Rabs (mag r - x) <= bpow (Z.max ex f) / 2
     ∧ (lx = loc_Exact → (f ≤ ex)%Z → mag r = x)).
Proof.
  intros Hmx Hloc f r. subst r. unfold binary_round_aux.
  destruct (shr_fexp prec emax mx ex lx) as [mrs1 e1] eqn:E1.
  destruct (shr_fexp_ok x mx ex lx mrs1 e1 Hmx Hloc E1) as (He1 & Hr1 & Hsame1).
  fold f in He1, Hsame1. rewrite <- He1.
  set (y := x / bpow e1) in *.
  pose proof (bpow_pos e1) as Hb1.
  assert (x = y * bpow e1) as Hx by (unfold y; field; lra).
  destruct (round_nearest_even_ok y mrs1 Hr1) as (Hmr & Hry & Hfl & Hex).
  set (mr := round_nearest_even (shr_m mrs1) (loc_of_shr_record mrs1)) in *.
  assert (0 ≤ shr_m mrs1)%Z as Hm1 by (destruct Hr1; assumption).
  (* the shifted mantissa has at most 53 bits *)
  assert (-1074 ≤ e1)%Z as Hemin by (subst e1 f; rewrite fexp_eq; lia).
  assert (shr_m mrs1 < 2 ^ 53)%Z as Hm53.
  { apply lt_IZR. apply Rle_lt_trans with y; [lra|].
    assert (x / bpow ex < bpow (Zdigits2 mx)) as Hd.
    { assert (IZR mx + 1 <= bpow (Zdigits2 mx)) as Hd.
      { destruct (Z.eq_dec mx 0%Z) as [->|Hne].
        - simpl. unfold bpow. simpl. lra.
        - destruct (Zdigits2_bounds mx ltac:(lia)) as [[_ Hhi] Hd].
          rewrite bpow_IZR by lia. rewrite <- plus_IZR. apply IZR_le. lia. }
      destruct lx as [|[| |]]; simpl in Hloc; lra. }
    rewrite <- bpow_IZR by lia.
    assert (bpow (Zdigits2 mx + ex) <= bpow (53 + e1)) as Hle.
    { apply bpow_le. subst e1 f. rewrite fexp_eq. lia. }
    rewrite !bpow_add in Hle. pose proof (bpow_pos ex) as Hbx.
    pose proof (bpow_pos 53). pose proof (bpow_pos (Zdigits2 mx)).
    assert (x < bpow (Zdigits2 mx) * bpow ex).
    { apply (Rmult_lt_compat_r (bpow ex)) in Hd; [|lra].
      replace (x / bpow ex * bpow ex) with x in Hd by (field; lra). exact Hd. }
    unfold y. apply Rmult_lt_reg_r with (bpow e1); [lra|].
    replace (x / bpow e1 * bpow e1) with x by (field; lra). lra. }
  destruct (shr_fexp prec emax mr e1 loc_Exact) as [mrs2 e2] eqn:E2.
  assert (0 ≤ mr)%Z as Hmr0 by lia.
  assert (loc_ok (IZR mr * bpow e1 / bpow e1) mr loc_Exact) as Hloc2
    by (simpl; field; lra).
  destruct (shr_fexp_ok _ mr e1 loc_Exact mrs2 e2 Hmr0 Hloc2 E2) as (He2 & Hr2 & Hsame2).
  (* the second shift keeps the value *)
  assert (IZR (shr_m mrs2) * bpow e2 = IZR mr * bpow e1 ∧ (e1 ≤ e2)%Z
          ∧ (0 ≤ shr_m mrs2)%Z) as (Hv2 & He12 & Hm2).
  { destruct (Z.eq_dec mr (2 ^ 53)%Z) as [Hcarry|Hnc].
    - assert (e2 = e1 + 1)%Z as ->.
      { rewrite He2, Hcarry, fexp_eq. simpl Zdigits2. lia. }
      destruct Hr2 as [Hm2 Hl2].
      assert (IZR mr * bpow e1 / bpow (e1 + 1) = IZR (2 ^ 52)) as Hhalf.
      { rewrite Hcarry, bpow_succ. replace (2 ^ 53)%Z with (2 * 2 ^ 52)%Z by reflexivity.
        rewrite mult_IZR. field. lra. }
      rewrite Hhalf in Hl2.
      assert (shr_m mrs2 = 2 ^ 52)%Z as ->.
      { assert (IZR (shr_m mrs2) <= IZR (2 ^ 52) < IZR (shr_m mrs2) + 1) as [Ha Hb]
          by (destruct (loc_of_shr_record mrs2) as [|[| |]]; simpl in Hl2; lra).
        apply le_IZR in Ha. rewrite <- plus_IZR in Hb. apply lt_IZR in Hb. lia. }
      split; [|split; [lia|lia]].
      rewrite Hcarry, bpow_succ. replace (2 ^ 53)%Z with (2 * 2 ^ 52)%Z by reflexivity.
      rewrite mult_IZR. ring.
    - assert (fexp prec emax (Zdigits2 mr + e1) ≤ e1)%Z as Hno.
      { rewrite fexp_eq. destruct (Z.eq_dec mr 0%Z) as [->|Hne]; [simpl; lia|].
        pose proof (Zdigits2_le mr 53 ltac:(lia) ltac:(lia) ltac:(lia)). lia. }
      destruct (Hsame2 Hno) as [-> _].
      assert (e2 = e1) as -> by lia. split; [reflexivity|]. split; lia. }
  assert (mag (S754_zero sx) = 0) as Hz by reflexivity.
  destruct (shr_m mrs2) as [|m2|m2] eqn:Em2; [| |lia].
  - (* the result is zero *)
    right. split; [left; reflexivity|]. rewrite Hz.
    assert (IZR mr = 0) as Hmrz by nra.
    split.
    + apply Rabs_le. rewrite Hmrz in Hry. nra.
    + intros Hl Hfe. destruct (Hsame1 Hfe) as [_ Hl1]. rewrite Hl in Hl1.
      specialize (Hex Hl1). nra.
  - destruct (e2 <=? emax - prec)%Z eqn:Eov.
    + right. split; [right; eauto|].
      assert (mag (S754_finite sx m2 e2) = IZR mr * bpow e1) as ->
        by (unfold mag; simpl; exact Hv2).
      split.
      * apply Rabs_le. nra.
      * intros Hl Hfe. destruct (Hsame1 Hfe) as [_ Hl1]. rewrite Hl in Hl1.
        specialize (Hex Hl1). nra.
    + left. split; [reflexivity|].
      apply Z.leb_gt in Eov. change (emax - prec)%Z with 971%Z in Eov.
      pose proof (bpow_le 972 e2 ltac:(lia)) as Hbig.
      pose proof (bpow_succ 971) as H972. change (971 + 1)%Z with 972%Z in H972.
      assert (1 <= IZR (Zpos m2)) as Hm2' by (apply IZR_le; lia).
      assert (1 <= IZR mr) as Hmr1.
      { apply IZR_le. assert (mr ≠ 0)%Z; [|lia]. intros ->.
        pose proof (bpow_pos e2). nra. }
      pose proof (bpow_pos e2). pose proof (bpow_pos 971). nra.
Qed.

End Shr.


(** Rounding a number given by a mantissa and an exponent. *)
Section Round.
Local Open Scope R_scope.

Lemma Rabs_bounds a b : Rabs a <= b → - b <= a <= b.
Proof. unfold Rabs. destruct (Rcase_abs a); lra. Qed.

Lemma bpow_m53 : bpow (-53) = / 9007199254740992.
Proof.
  pose proof (bpow_add (-53) 53) as H. rewrite (bpow_IZR 53) in H by lia.
  change (-53 + 53)%Z with 0%Z in H. change (bpow 0) with 1 in H.
  change (IZR (2 ^ 53)) with 9007199254740992 in H.
  apply Rmult_eq_reg_r with 9007199254740992; [|lra].
  rewrite <- H. field.
Qed.

(** Half a unit in the last place of a number of at least 53 bits is at
    most 2^-53 of it; below the normal range the unit is 2^-1074. *)
Lemma half_ulp_rel mx ex x :
  (0 < mx)%Z → IZR mx * bpow ex <= x →
  let f := fexp prec emax (Zdigits2 mx + ex) in
  bpow f / 2 <= bpow (-53) * x ∨ f = (-1074)%Z.
Proof.
  intros Hm Hx f. subst f. rewrite fexp_eq.
  destruct (Z.max_spec (Zdigits2 mx + ex - 53) (-1074)) as [[_ ->]|[_ ->]]; [auto|].
  left. destruct (Zdigits2_bounds mx Hm) as [[Hlo _] Hd].
  rewrite <- bpow_pred.
  replace (Zdigits2 mx + ex - 53 - 1)%Z with (-53 + ((Zdigits2 mx - 1) + ex))%Z by lia.
  rewrite !bpow_add. pose proof (bpow_pos (-53)). pose proof (bpow_pos ex).
  rewrite (bpow_IZR (Zdigits2 mx - 1)) by lia.
  apply IZR_le in Hlo.
  assert (IZR (2 ^ (Zdigits2 mx - 1)) * bpow ex <= IZR mx * bpow ex)
    by (apply Rmult_le_compat_r; lra).
  apply Rmult_le_compat_l; lra.
Qed.

Lemma pos_iter_xO mx d : Zpos (Pos.iter xO mx d) = (Zpos mx * 2 ^ Zpos d)%Z.
Proof.
  induction d as [|d IH] using Pos.peano_ind.
  - simpl. lia.
  - rewrite Pos.iter_succ, Pos2Z.inj_xO, IH, Pos2Z.inj_succ, Z.pow_succ_r by lia. lia.
Qed.

Lemma shl_align_ok mx ex ex' mz ez :
  shl_align mx ex ex' = (mz, ez) →
  ez = Z.min ex ex' ∧ Zpos mz = (Zpos mx * 2 ^ (ex - ez))%Z.
Proof.
  unfold shl_align. destruct (ex' - ex)%Z as [|p|p] eqn:E; intros [= <- <-].
  - split; [lia|]. rewrite Z.sub_diag. simpl. lia.
  - split; [lia|]. rewrite Z.sub_diag. simpl. lia.
  - split; [lia|]. rewrite pos_iter_xO. f_equal. f_equal. lia.
Qed.

Lemma shl_align_value mx ex ex' mz ez :
  shl_align mx ex ex' = (mz, ez) →
  IZR (Zpos mz) * bpow ez = IZR (Zpos mx) * bpow ex.
Proof.
  intros (He & Hm)%shl_align_ok. rewrite Hm, mult_IZR.
  replace ex with (ez + (ex - ez))%Z at 2 by lia.
  rewrite bpow_add, (bpow_IZR (ex - ez)) by lia. ring.
Qed.

Lemma Zdigits2_shift m k :
  (0 < m)%Z → (0 ≤ k)%Z → Zdigits2 (m * 2 ^ k) = (Zdigits2 m + k)%Z.
Proof.
  intros Hm Hk. destruct (Zdigits2_bounds m Hm) as [[Hlo Hhi] Hd].
  assert (0 < 2 ^ k)%Z as Hp by (apply Z.pow_pos_nonneg; lia).
  apply Z.le_antisymm.
  - apply Zdigits2_le; [nia|lia|]. rewrite Z.pow_add_r by lia. nia.
  - replace (Zdigits2 m + k)%Z with ((Zdigits2 m - 1 + k) + 1)%Z by lia.
    apply Zdigits2_ge; [lia|]. rewrite Z.pow_add_r by lia. nia.
Qed.

(** Rounding the number [mx * 2^ex]. *)
Lemma binary_round_ok sx mx ex :
  (-1074 ≤ ex)%Z →
  let x := IZR (Zpos mx) * bpow ex in
  let r := binary_round prec emax sx mx ex in
  (r = S754_infinity sx ∧ bpow 971 / 2 <= x)
  ∨ ((∃ m e, r = S754_finite sx m e) ∧ Rabs (mag r - x) <= bpow (-53) * x).
Proof.
  intros Hex x r. subst r. unfold binary_round.
  set (f0 := fexp prec emax (Zpos (digits2_pos mx) + ex)).
  destruct (shl_align mx ex f0) as [mz ez] eqn:E.
  pose proof (shl_align_value _ _ _ _ _ E) as Hv. fold x in Hv.
  apply shl_align_ok in E as (Hez & Hmz).
  assert (0 < x) as Hxpos.
  { unfold x. pose proof (bpow_pos ex). assert (0 < IZR (Zpos mx)) by (apply IZR_lt; lia). nra. }
  pose proof (bpow_pos ez) as Hbz.
  assert (loc_ok (x / bpow ez) (Zpos mz) loc_Exact) as Hloc.
  { simpl. rewrite <- Hv. field. lra. }
  assert (fexp prec emax (Zdigits2 (Zpos mz) + ez) = f0) as Hf.
  { rewrite Hmz, Zdigits2_shift by lia. unfold f0. simpl Zdigits2. f_equal. lia. }
  pose proof (binary_round_aux_ok sx (Zpos mz) ez loc_Exact x ltac:(lia) Hloc) as H.
  cbv zeta in H. rewrite Hf in H.
  pose proof (half_ulp_rel (Zpos mx) ex x ltac:(lia) ltac:(unfold x; lra)) as Hrel.
  cbv zeta in Hrel. change (Zdigits2 (Zpos mx)) with (Zpos (digits2_pos mx)) in Hrel.
  fold f0 in Hrel.
  assert (-1074 ≤ f0)%Z as Hf0 by (unfold f0; rewrite fexp_eq; lia).
  pose proof (bpow_pos (-53)) as Hu. rewrite bpow_m53 in *.
  destruct H as [H|(Hshape & Herr & Hexact)]; [left; exact H|right].
  destruct (Z_le_gt_dec f0 ez) as [Hle|Hgt].
  - (* no bit is lost *)
    specialize (Hexact eq_refl Hle).
    split.
    + destruct Hshape as [Hz|Hfin]; [|exact Hfin].
      rewrite Hz in Hexact. unfold mag in Hexact. simpl in Hexact. lra.
    + rewrite Hexact. replace (x - x) with 0 by ring. rewrite Rabs_R0. nra.
  - assert (ez = ex) as -> by lia.
    rewrite Z.max_r in Herr by lia.
    destruct Hrel as [Hrel|Hrel]; [|lia].
    split.
    + destruct Hshape as [Hz|Hfin]; [|exact Hfin].
      rewrite Hz in Herr. unfold mag in Herr. simpl in Herr.
      apply Rabs_bounds in Herr. lra.
    + lra.
Qed.

End Round.

(** Addition and division of values that are not negative. *)
Section Ops.
Local Open Scope R_scope.

Lemma valid_finite s m e :
  valid_binary (S754_finite s m e) = true →
  (-1074 ≤ e ≤ 971)%Z ∧ (Zpos (digits2_pos m) ≤ 53)%Z.
Proof.
  unfold SpecFloat.valid_binary, bounded, canonical_mantissa.
  intros [H1 H2]%andb_true_iff. apply Z.eqb_eq in H1. apply Z.leb_le in H2.
  rewrite fexp_eq in H1. change (emax - prec)%Z with 971%Z in H2. lia.
Qed.

Lemma SF2R_finite_pos m e : 0 < SF2R (S754_finite false m e).
Proof.
  simpl. pose proof (bpow_pos e). assert (0 < IZR (Zpos m)) by (apply IZR_lt; lia). nra.
Qed.

Lemma nnf_nonneg f : sf_nonneg f → 0 <= SF2R f.
Proof.
  destruct f as [s|s| |[|] m e]; simpl; try tauto; try lra.
  intros _. pose proof (SF2R_finite_pos m e) as H. simpl in H. lra.
Qed.

Lemma SF64add_nn a b :
  valid_binary a = true → valid_binary b = true → sf_nonneg a → sf_nonneg b →
  let r := SF64add a b in
  (r = S754_infinity false ∧ bpow 971 / 2 <= SF2R a + SF2R b)
  ∨ (sf_nonneg r
     ∧ Rabs (SF2R r - (SF2R a + SF2R b)) <= bpow (-53) * (SF2R a + SF2R b)
     ∧ (SF2R a = 0 ∨ SF2R b = 0 → SF2R r = SF2R a + SF2R b)).
Proof.
  intros Va Vb Ha Hb. pose proof (bpow_pos (-53)) as Hu.
  assert (∀ z, 0 <= z → Rabs (z - (0 + z)) <= bpow (-53) * (0 + z)) as E0.
  { intros z Hz. replace (z - (0 + z)) with 0 by ring. rewrite Rabs_R0. nra. }
  assert (∀ z, 0 <= z → Rabs (z - (z + 0)) <= bpow (-53) * (z + 0)) as E1.
  { intros z Hz. replace (z - (z + 0)) with 0 by ring. rewrite Rabs_R0. nra. }
  destruct a as [sa|sa| |[|] ma ea]; try contradiction;
    destruct b as [sb|sb| |[|] mb eb]; try contradiction; cbv zeta.
  - right. unfold SF64add, SFadd.
    assert (SF2R (if sa then if sb then S754_zero sa else S754_zero false
                  else if sb then S754_zero false else S754_zero sa) = 0) as Hz
      by (destruct sa, sb; reflexivity).
    destruct sa, sb; simpl; (split; [exact I|]); (split; [apply E0; lra|intros _; lra]).
  - right. simpl SF64add. split; [exact I|].
    pose proof (SF2R_finite_pos mb eb). split; [apply E0; lra|intros _; simpl; lra].
  - right. simpl SF64add. split; [exact I|].
    pose proof (SF2R_finite_pos ma ea). split; [apply E1; lra|intros _; simpl; lra].
  - pose proof (SF2R_finite_pos ma ea) as Hpa. pose proof (SF2R_finite_pos mb eb) as Hpb.
    apply valid_finite in Va as [Hea _]. apply valid_finite in Vb as [Heb _].
    unfold SF64add, SFadd. set (ez := Z.min ea eb).
    destruct (shl_align ma ea ez) as [ma' ea'] eqn:Ea.
    destruct (shl_align mb eb ez) as [mb' eb'] eqn:Eb.
    pose proof (shl_align_value _ _ _ _ _ Ea) as Hva.
    pose proof (shl_align_value _ _ _ _ _ Eb) as Hvb.
    apply shl_align_ok in Ea as [Hea' _]. apply shl_align_ok in Eb as [Heb' _].
    assert (ea' = ez) as -> by lia. assert (eb' = ez) as -> by lia.
    cbn [fst cond_Zopp].
    change (Z.pos ma' + Z.pos mb')%Z with (Z.pos (ma' + mb')).
    cbn [binary_normalize].
    pose proof (binary_round_ok false (ma' + mb') ez ltac:(lia)) as H. cbv zeta in H.
    assert (IZR (Zpos (ma' + mb')) * bpow ez
            = SF2R (S754_finite false ma ea) + SF2R (S754_finite false mb eb)) as Hsum.
    { rewrite Pos2Z.inj_add, plus_IZR. simpl. lra. }
    rewrite Hsum in H.
    destruct H as [H|[(m & e & Hr) Herr]]; [left; exact H|right].
    rewrite Hr in *. split; [exact I|]. split; [exact Herr|]. intros [?|?]; lra.
Qed.

Lemma new_location_ok my r q :
  (0 ≤ r < my)%Z → loc_ok (IZR q + IZR r / IZR my) q (new_location my r).
Proof.
  intros Hr. assert (0 < IZR my) as Hmy by (apply IZR_lt; lia).
  set (ρ := IZR r / IZR my).
  assert (ρ * IZR my = IZR r) as Hρ by (unfold ρ; field; lra).
  assert (0 <= IZR r < IZR my) as Hr' by (split; [apply IZR_le|apply IZR_lt]; lia).
  unfold new_location. destruct (Z.even my) eqn:Ev.
  - unfold new_location_even. destruct (r =? 0)%Z eqn:E0.
    + apply Z.eqb_eq in E0. subst r. simpl. nra.
    + apply Z.eqb_neq in E0. assert (1 <= IZR r) by (apply IZR_le; lia).
      destruct (Z.compare_spec (2 * r) my) as [C|C|C]; simpl.
      * apply (f_equal IZR) in C. rewrite mult_IZR in C. nra.
      * apply IZR_lt in C. rewrite mult_IZR in C. nra.
      * apply IZR_lt in C. rewrite mult_IZR in C. nra.
  - unfold new_location_odd. destruct (r =? 0)%Z eqn:E0.
    + apply Z.eqb_eq in E0. subst r. simpl. nra.
    + apply Z.eqb_neq in E0. assert (1 <= IZR r) by (apply IZR_le; lia).
      assert (Z.odd my = true) as Hodd by (rewrite <- Z.negb_even, Ev; reflexivity).
      apply Z.odd_spec in Hodd as [k Hk].
      destruct (Z.compare_spec (2 * r + 1) my) as [C|C|C]; simpl.
      * assert (2 * r < my)%Z as C' by lia.
        apply IZR_lt in C'. rewrite mult_IZR in C'. nra.
      * assert (2 * r < my)%Z as C' by lia.
        apply IZR_lt in C'. rewrite mult_IZR in C'. nra.
      * assert (my < 2 * r)%Z as C' by lia.
        apply IZR_lt in C'. rewrite mult_IZR in C'. nra.
Qed.

Lemma SFdiv_core_ok mx ex my ey mz ez lz :
  (Zpos (digits2_pos mx) ≤ 53)%Z →
  SFdiv_core_binary prec emax (Zpos mx) ex (Zpos my) ey = (mz, ez, lz) →
  let x := IZR (Zpos mx) * bpow ex / (IZR (Zpos my) * bpow ey) in
  (0 ≤ mz)%Z ∧ loc_ok (x / bpow ez) mz lz
  ∧ (ez ≤ fexp prec emax (Zdigits2 mz + ez))%Z.
Proof.
  intros Hd1 E x. unfold SFdiv_core_binary in E.
  set (d1 := Zdigits2 (Zpos mx)) in *. set (d2 := Zdigits2 (Zpos my)) in *.
  set (e' := Z.min (fexp prec emax (d1 + ex - (d2 + ey))) (ex - ey)) in *.
  set (s := (ex - ey - e')%Z) in *.
  assert (0 ≤ s)%Z as Hs by (unfold s, e'; lia).
  set (m' := match s with Zpos _ => Z.shiftl (Zpos mx) s | Z0 => Zpos mx | Zneg _ => Z0 end) in *.
  assert (m' = Zpos mx * 2 ^ s)%Z as Hm'.
  { unfold m'. destruct s as [|p|p] eqn:Es; [simpl; lia| |lia].
    apply Z.shiftl_mul_pow2. lia. }
  pose proof (Z_div_mod m' (Zpos my) eq_refl) as Hdiv.
  destruct (Z.div_eucl m' (Zpos my)) as [q r] eqn:Ed.
  destruct Hdiv as [Hqr Hr]. injection E as <- <- <-.
  assert (0 < 2 ^ s)%Z as H2s by (apply Z.pow_pos_nonneg; lia).
  assert (0 ≤ q)%Z as Hq by nia.
  split; [exact Hq|]. split.
  - assert (x / bpow e' = IZR q + IZR r / IZR (Zpos my)) as ->.
    { unfold x. replace ex with (ey + (e' + s))%Z at 1 by (unfold s; lia).
      rewrite !bpow_add, (bpow_IZR s) by lia.
      pose proof (bpow_pos ey). pose proof (bpow_pos e').
      assert (0 < IZR (Zpos my)) by (apply IZR_lt; lia).
      apply (f_equal IZR) in Hqr. rewrite Hm', plus_IZR, !mult_IZR in Hqr.
      apply Rmult_eq_reg_r with (IZR (Zpos my)); [|lra].
      replace ((IZR q + IZR r / IZR (Zpos my)) * IZR (Zpos my))
        with (IZR (Zpos my) * IZR q + IZR r) by (field; lra).
      rewrite <- Hqr. field. lra. }
    apply new_location_ok. lia.
  - rewrite fexp_eq.
    destruct (Z_le_gt_dec e' (-1074)) as [Hlow|Hhigh]; [lia|].
    (* above the subnormal range the quotient has at least 53 bits *)
    destruct (Zdigits2_bounds (Zpos mx) ltac:(lia)) as [[Hlo1 Hhi1] Hp1].
    destruct (Zdigits2_bounds (Zpos my) ltac:(lia)) as [[Hlo2 Hhi2] Hp2].
    fold d1 in Hlo1, Hhi1, Hp1. fold d2 in Hlo2, Hhi2, Hp2.
    assert (d1 ≤ 53)%Z as Hd1' by exact Hd1.
    assert (e' = d1 + ex - (d2 + ey) - 53)%Z as He'.
    { unfold e' in *. rewrite fexp_eq in *. lia. }
    assert (s = 53 - d1 + d2)%Z as Hs' by (unfold s; lia).
    assert (2 ^ 52 ≤ q)%Z as Hq52.
    { assert (2 ^ (52 + d2) ≤ m')%Z as Hbig.
      { rewrite Hm', Hs'.
        replace (52 + d2)%Z with ((d1 - 1) + (53 - d1 + d2))%Z by lia.
        rewrite Z.pow_add_r by lia.
        apply Z.mul_le_mono_nonneg_r; [lia|exact Hlo1]. }
      rewrite Z.pow_add_r in Hbig by lia.
      assert (0 < 2 ^ 52)%Z by reflexivity. nia. }
    pose proof (Zdigits2_ge q 52 ltac:(lia) Hq52). lia.
Qed.

Lemma SF64div_nn a my ey :
  valid_binary a = true → sf_nonneg a →
  let r := SF64div a (S754_finite false my ey) in
  let q := SF2R a / SF2R (S754_finite false my ey) in
  (r = S754_infinity false ∧ bpow 971 / 2 <= q)
  ∨ (sf_nonneg r ∧ Rabs (SF2R r - q) <= bpow (-53) * q + bpow (-1075)).
Proof.
  intros Va Ha. pose proof (bpow_pos (-53)) as Hu. pose proof (bpow_pos (-1075)) as Heta.
  pose proof (SF2R_finite_pos my ey) as Hpb.
  destruct a as [sa|sa| |[|] ma ea]; try contradiction; cbv zeta.
  - right. simpl SF64div. split; [exact I|].
    replace (SF2R (S754_zero (xorb sa false))) with 0 by reflexivity.
    replace (SF2R (S754_zero sa)) with 0 by reflexivity.
    replace (0 - 0 / SF2R (S754_finite false my ey)) with 0 by (field; lra).
    rewrite Rabs_R0. replace (0 / SF2R (S754_finite false my ey)) with 0 by (field; lra). lra.
  - apply valid_finite in Va as [Hea Hda].
    unfold SF64div, SFdiv.
    destruct (SFdiv_core_binary prec emax (Zpos ma) ea (Zpos my) ey) as [[mz ez] lz] eqn:E.
    destruct (SFdiv_core_ok _ _ _ _ _ _ _ Hda E) as (Hmz & Hloc & Hez).
    set (x := SF2R (S754_finite false ma ea) / SF2R (S754_finite false my ey)).
    change (IZR (Zpos ma) * bpow ea / (IZR (Zpos my) * bpow ey)) with x in Hloc.
    pose proof (binary_round_aux_ok (xorb false false) mz ez lz x Hmz Hloc) as H.
    cbv zeta in H. simpl xorb in *.
    destruct H as [H|(Hshape & Herr & _)]; [left; exact H|right].
    split; [destruct Hshape as [->|(m & e & ->)]; exact I|].
    assert (mag (binary_round_aux prec emax false mz ez lz)
            = SF2R (binary_round_aux prec emax false mz ez lz)) as Hmag
      by (destruct Hshape as [->|(m & e & ->)]; reflexivity).
    rewrite Hmag in Herr. rewrite Z.max_r in Herr by exact Hez.
    assert (0 < x) as Hx.
    { unfold x. pose proof (SF2R_finite_pos ma ea). apply Rdiv_lt_0_compat; lra. }
    assert (bpow (fexp prec emax (Zdigits2 mz + ez)) / 2
            <= bpow (-53) * x + bpow (-1075)) as Hbound.
    { destruct (Z.eq_dec mz 0%Z) as [->|Hne].
      - simpl Zdigits2 in *. rewrite fexp_eq in *.
        replace (Z.max (0 + ez - 53) (-1074)) with (-1074)%Z by lia.
        rewrite <- bpow_pred. change (-1074 - 1)%Z with (-1075)%Z. nra.
      - assert (IZR mz * bpow ez <= x) as Hle.
        { pose proof (bpow_pos ez).
          assert (IZR mz <= x / bpow ez) by (destruct lz as [|[| |]]; simpl in Hloc; lra).
          apply (Rmult_le_compat_r (bpow ez)) in H0; [|lra].
          replace (x / bpow ez * bpow ez) with x in H0 by (field; lra). exact H0. }
        destruct (half_ulp_rel mz ez x ltac:(lia) Hle) as [Hrel|Hrel].
        + lra.
        + rewrite Hrel, <- bpow_pred. change (-1074 - 1)%Z with (-1075)%Z. nra. }
    lra.
Qed.

End Ops.

(** The same on primitive floats, and sums of lists. *)
Section Binary64.
Local Open Scope R_scope.

Lemma Prim2SF_zero : Prim2SF 0%float = S754_zero false.
Proof. reflexivity. Qed.

Lemma Prim2SF_infinity : Prim2SF infinity = S754_infinity false.
Proof. reflexivity. Qed.

Lemma val_zero : val 0%float = 0.
Proof. unfold val. rewrite Prim2SF_zero. reflexivity. Qed.

Lemma nn_zero : nonneg 0%float.
Proof. unfold nonneg. rewrite Prim2SF_zero. exact I. Qed.

Lemma nn_nonneg x : nonneg x → 0 <= val x.
Proof. apply nnf_nonneg. Qed.

Lemma nn_of_tests x : ((0 <=? x) && (x <? infinity))%float = true → nonneg x.
Proof.
  intros [H1 H2]%andb_true_iff. rewrite leb_spec, Prim2SF_zero in H1.
  rewrite ltb_spec, Prim2SF_infinity in H2. unfold nonneg.
  destruct (Prim2SF x) as [s|[|]| |[|] m e]; try exact I; discriminate.
Qed.

Lemma positive_of_tests s :
  (0 <? s)%float = true → (s <? infinity)%float = true →
  ∃ m e, Prim2SF s = S754_finite false m e.
Proof.
  intros H1 H2. rewrite ltb_spec, Prim2SF_zero in H1.
  rewrite ltb_spec, Prim2SF_infinity in H2.
  destruct (Prim2SF s) as [s0|[|]| |[|] m e]; try discriminate; eauto.
Qed.

Lemma add_nn (a b : float) :
  nonneg a → nonneg b →
  (Prim2SF (a + b)%float = S754_infinity false ∧ bpow 971 / 2 <= val a + val b)
  ∨ (nonneg (a + b)%float
     ∧ Rabs (val (a + b)%float - (val a + val b)) <= bpow (-53) * (val a + val b)
     ∧ (val a = 0 ∨ val b = 0 → val (a + b)%float = val a + val b)).
Proof.
  intros Ha Hb. unfold nonneg, val. rewrite add_spec.
  apply SF64add_nn; auto using Prim2SF_valid.
Qed.

Lemma add_infinity (a b : float) :
  (nonneg a ∨ Prim2SF a = S754_infinity false) →
  (nonneg b ∨ Prim2SF b = S754_infinity false) →
  Prim2SF a = S754_infinity false ∨ Prim2SF b = S754_infinity false →
  Prim2SF (a + b)%float = S754_infinity false.
Proof.
  unfold nonneg. rewrite add_spec. intros Ha Hb Hinf.
  destruct (Prim2SF a) as [sa|[|]| |[|] ma ea], (Prim2SF b) as [sb|[|]| |[|] mb eb];
    simpl in *; try reflexivity;
    try (destruct Ha as [[]|[=]]); try (destruct Hb as [[]|[=]]);
    try (destruct Hinf as [[=]|[=]]).
Qed.

Lemma div_nn (x s : float) m e :
  nonneg x → Prim2SF s = S754_finite false m e →
  (Prim2SF (x / s)%float = S754_infinity false ∧ bpow 971 / 2 <= val x / val s)
  ∨ (nonneg (x / s)%float
     ∧ Rabs (val (x / s)%float - val x / val s)
       <= bpow (-53) * (val x / val s) + bpow (-1075)).
Proof.
  intros Hx Hs. unfold nonneg, val. rewrite div_spec, Hs.
  apply SF64div_nn; auto using Prim2SF_valid.
Qed.

(** *** Sums *)

Lemma vsum_app l1 l2 : vsum (l1 ++ l2) = vsum l1 + vsum l2.
Proof. induction l1 as [|x l1 IH]; simpl; [lra|]. rewrite IH. lra. Qed.

Lemma vsum_perm l l' : l ≡ₚ l' → vsum l = vsum l'.
Proof.
  induction 1 as [|x l l' _ IH|x y l|l l' l'' _ IH1 _ IH2]; simpl; lra.
Qed.

Lemma vsum_nonneg l : Forall nonneg l → 0 <= vsum l.
Proof.
  induction 1 as [|x l Hx _ IH]; simpl; [lra|]. apply nn_nonneg in Hx. lra.
Qed.

Lemma summed_fold_left l : summed l (fold_left PrimFloat.add l 0%float).
Proof.
  assert (∀ l0 acc, summed l0 acc → summed (l0 ++ l) (fold_left PrimFloat.add l acc)) as H.
  { induction l as [|x l IH]; intros l0 acc H0; simpl.
    - rewrite app_nil_r. exact H0.
    - rewrite cons_middle, app_assoc. apply IH.
      apply summed_add; [exact H0|apply summed_one]. }
  apply (H [] 0%float). apply summed_nil.
Qed.

Lemma summed_class l a :
  summed l a → Forall nonneg l → nonneg a ∨ Prim2SF a = S754_infinity false.
Proof.
  induction 1 as [|x|l1 l2 a b _ IH1 _ IH2|l l' a Hp _ IH]; intros Hl.
  - left. exact nn_zero.
  - left. inversion Hl; assumption.
  - apply Forall_app in Hl as [Hl1 Hl2].
    specialize (IH1 Hl1). specialize (IH2 Hl2).
    destruct IH1 as [Ha|Ha]; [destruct IH2 as [Hb|Hb]|].
    + destruct (add_nn a b Ha Hb) as [[H _]|[H _]]; auto.
    + right. apply add_infinity; auto.
    + right. apply add_infinity; auto.
  - apply IH. rewrite Hp. exact Hl.
Qed.

Lemma bpow_971_large : 32 <= bpow 971 / 2.
Proof.
  pose proof (bpow_le 6 971 ltac:(lia)) as H. rewrite (bpow_IZR 6) in H by lia.
  change (IZR (2 ^ 6)) with 64 in H. lra.
Qed.

(** Adding up at most a million non-negative numbers, in any order, loses
    at most 2 k 2^-53 of the exact sum, unless the sum overflows. *)
Lemma summed_bound l a :
  summed l a → Forall nonneg l → (Z.of_nat (length l) ≤ 1000000)%Z →
  Prim2SF a ≠ S754_infinity false ∨ vsum l <= 4 →
  nonneg a ∧ Rabs (val a - vsum l) <= 2 * IZR (Z.of_nat (length l)) * bpow (-53) * vsum l.
Proof.
  pose proof (bpow_pos (-53)) as Hu. pose proof bpow_m53 as Hu'.
  induction 1 as [|x|l1 l2 a b Ha IH1 Hb IH2|l l' a Hp _ IH]; intros Hl Hk Hfin.
  - split; [exact nn_zero|]. simpl. rewrite val_zero.
    replace (0 - 0) with 0 by ring. rewrite Rabs_R0. lra.
  - inversion Hl as [|? ? Hx _]; subst. split; [exact Hx|].
    change (vsum [x]) with (val x + 0). change (Z.of_nat (length [x])) with 1%Z.
    apply nn_nonneg in Hx.
    replace (val x - (val x + 0)) with 0 by ring. rewrite Rabs_R0. nra.
  - apply Forall_app in Hl as [Hl1 Hl2]. rewrite length_app, Nat2Z.inj_add in Hk.
    pose proof (vsum_nonneg l1 Hl1) as HS1. pose proof (vsum_nonneg l2 Hl2) as HS2.
    rewrite vsum_app in *. rewrite length_app, Nat2Z.inj_add, plus_IZR.
    assert (0 <= IZR (Z.of_nat (length l1)) <= 1000000) as Hk1
      by (split; apply IZR_le; lia).
    assert (0 <= IZR (Z.of_nat (length l2)) <= 1000000) as Hk2
      by (split; apply IZR_le; lia).
    assert ((Prim2SF a ≠ S754_infinity false ∨ vsum l1 <= 4)
            ∧ (Prim2SF b ≠ S754_infinity false ∨ vsum l2 <= 4)) as [Hf1 Hf2].
    { destruct Hfin as [Hfin|Hfin]; [|split; right; lra].
      pose proof (summed_class _ _ Ha Hl1) as Ca.
      pose proof (summed_class _ _ Hb Hl2) as Cb.
      split; left; intros Hinf; apply Hfin; apply add_infinity; auto. }
    destruct (IH1 Hl1 ltac:(lia) Hf1) as [Hna Hea].
    destruct (IH2 Hl2 ltac:(lia) Hf2) as [Hnb Heb].
    set (c1 := 2 * IZR (Z.of_nat (length l1)) * bpow (-53)) in *.
    set (c2 := 2 * IZR (Z.of_nat (length l2)) * bpow (-53)) in *.
    assert (0 <= c1 <= 1) as Hc1 by (unfold c1; rewrite Hu'; nra).
    assert (0 <= c2 <= 1) as Hc2 by (unfold c2; rewrite Hu'; nra).
    replace (2 * (IZR (Z.of_nat (length l1)) + IZR (Z.of_nat (length l2))) * bpow (-53))
      with (c1 + c2) by (unfold c1, c2; ring).
    set (S1 := vsum l1) in *. set (S2 := vsum l2) in *.
    apply Rabs_bounds in Hea. apply Rabs_bounds in Heb.
    assert (0 <= c1 * S1 <= S1) as He1 by nra.
    assert (0 <= c2 * S2 <= S2) as He2 by nra.
    destruct (add_nn a b Hna Hnb) as [[Hinf Hbig]|(Hn & Herr & Hexact)].
    { exfalso. destruct Hfin as [Hfin|Hfin]; [exact (Hfin Hinf)|].
      pose proof bpow_971_large. lra. }
    split; [exact Hn|].
    destruct l1 as [|x1 l1].
    { (* nothing on the left *)
      assert (S1 = 0) as HS10 by reflexivity.
      assert (c1 = 0) as Hc10 by (unfold c1; simpl; ring).
      rewrite Hexact by (left; lra). rewrite Hc10, HS10.
      apply Rabs_le. lra. }
    destruct l2 as [|x2 l2].
    { assert (S2 = 0) as HS20 by reflexivity.
      assert (c2 = 0) as Hc20 by (unfold c2; simpl; ring).
      rewrite Hexact by (right; lra). rewrite Hc20, HS20.
      apply Rabs_le. lra. }
    assert (2 * bpow (-53) <= c1) as Hc1'.
    { unfold c1.
      assert (1 <= IZR (Z.of_nat (length (x1 :: l1)))) by (apply IZR_le; simpl; lia).
      nra. }
    assert (2 * bpow (-53) <= c2) as Hc2'.
    { unfold c2.
      assert (1 <= IZR (Z.of_nat (length (x2 :: l2)))) by (apply IZR_le; simpl; lia).
      nra. }
    apply Rabs_bounds in Herr.
    assert (2 * bpow (-53) * S2 <= c1 * S2) by nra.
    assert (2 * bpow (-53) * S1 <= c2 * S1) by nra.
    assert (bpow (-53) * (val a + val b) <= 2 * bpow (-53) * S1 + 2 * bpow (-53) * S2)
      by nra.
    apply Rabs_le. lra.
  - rewrite <- Hp in Hl. rewrite <- (Permutation_length Hp) in Hk |- *.
    rewrite <- (vsum_perm _ _ Hp) in *. apply IH; assumption.
Qed.

End Binary64.

(** A row divided by its sum. *)
Section Renormalized.
Local Open Scope R_scope.

Lemma bpow_neg_IZR (p : positive) : bpow (Zneg p) = / IZR (2 ^ Zpos p).
Proof.
  pose proof (bpow_add (Zneg p) (Zpos p)) as H. rewrite (bpow_IZR (Zpos p)) in H by lia.
  replace (Zneg p + Zpos p)%Z with 0%Z in H by lia. change (bpow 0) with 1 in H.
  assert (0 < IZR (2 ^ Zpos p)) by (apply IZR_lt; apply Z.pow_pos_nonneg; lia).
  apply Rmult_eq_reg_r with (IZR (2 ^ Zpos p)); [|lra].
  rewrite <- H. field. lra.
Qed.

Lemma eta_small : bpow (-1075) <= / 10000000000000000000000.
Proof.
  apply Rle_trans with (bpow (-74)); [apply bpow_le; lia|].
  rewrite (bpow_neg_IZR 74). change (IZR (2 ^ 74)) with 18889465931478580854784.
  apply Rinv_le_contravar; lra.
Qed.

Lemma vsum_cons x l : vsum (x :: l) = val x + vsum l.
Proof. reflexivity. Qed.

Lemma vsum_elem_le l x : Forall nonneg l → x ∈ l → val x <= vsum l.
Proof.
  induction 1 as [|y l Hy Hl IH]; intros Hx; [inversion Hx|].
  simpl. pose proof (vsum_nonneg l Hl). apply nn_nonneg in Hy.
  inversion Hx; subst; [lra|]. specialize (IH ltac:(assumption)). lra.
Qed.

Section Quotients.
Context (s : float) (m : positive) (e : Z).
Context (Hs : Prim2SF s = S754_finite false m e).

Lemma val_divisor_pos : 0 < val s.
Proof. unfold val. rewrite Hs. apply SF2R_finite_pos. Qed.

(** The quotients of a row by [s], added up exactly. *)
Lemma quotients_sum row :
  Forall (λ x, nonneg x ∧ val x <= 2 * val s) row →
  Forall nonneg (map (λ x, (x / s)%float) row)
  ∧ Rabs (vsum (map (λ x, (x / s)%float) row) - vsum row / val s)
    <= bpow (-53) * (vsum row / val s) + IZR (Z.of_nat (length row)) * bpow (-1075).
Proof.
  pose proof val_divisor_pos as Hvs. pose proof (bpow_pos (-53)) as Hu.
  pose proof (bpow_pos (-1075)) as Heta.
  induction 1 as [|x row [Hx Hle] _ [IHn IHe]].
  - split; [constructor|]. cbn [map length]. change (vsum []) with 0.
    change (Z.of_nat 0) with 0%Z.
    replace (0 - 0 / val s) with 0 by (field; lra).
    rewrite Rabs_R0. replace (0 / val s) with 0 by (field; lra). lra.
  - cbn [map length]. rewrite !vsum_cons, Nat2Z.inj_succ, succ_IZR.
    set (a := val x / val s). set (b := vsum row / val s) in *.
    assert ((val x + vsum row) / val s = a + b) as -> by (unfold a, b; field; lra).
    assert (0 <= a <= 2) as Ha.
    { apply nn_nonneg in Hx. unfold a. split.
      - apply Rmult_le_pos; [lra|]. apply Rlt_le, Rinv_0_lt_compat. lra.
      - apply Rmult_le_reg_r with (val s); [lra|].
        replace (val x / val s * val s) with (val x) by (field; lra). lra. }
    destruct (div_nn x s m e Hx Hs) as [[_ Hbig]|[Hq Herr]].
    { exfalso. fold a in Hbig. pose proof bpow_971_large. lra. }
    fold a in Herr. split; [constructor; assumption|].
    apply Rabs_bounds in Herr. apply Rabs_bounds in IHe.
    apply Rabs_le. nra.
Qed.

End Quotients.

(** A row of at most a million non-negative entries with a positive
    finite sum, divided by its sum and added up again, whatever the order
    of the additions, comes out within 8e-10 of one. *)
Lemma renormalized_sum_close row s t :
  Forall nonneg row → (Z.of_nat (length row) ≤ 1000000)%Z →
  summed row s → (∃ m e, Prim2SF s = S754_finite false m e) →
  summed (map (λ x, (x / s)%float) row) t →
  nonneg t ∧ Rabs (val t - 1) <= 8 / 10000000000
  ∧ Rabs (vsum (map (λ x, (x / s)%float) row) - 1) <= 5 / 10000000000.
Proof.
  intros Hrow Hlen Hsum (m & e & Hs) Hquot.
  pose proof (val_divisor_pos s m e Hs) as Hvs.
  pose proof (bpow_pos (-53)) as Hu. pose proof bpow_m53 as Hu'.
  pose proof (bpow_pos (-1075)) as Heta. pose proof eta_small as Heta'.
  pose proof (vsum_nonneg row Hrow) as HS.
  destruct (summed_bound row s Hsum Hrow Hlen) as [_ Hes].
  { left. rewrite Hs. discriminate. }
  set (k := IZR (Z.of_nat (length row))) in *.
  assert (0 <= k <= 1000000) as Hk by (split; apply IZR_le; lia).
  set (c := 2 * k * bpow (-53)) in *.
  assert (0 <= c <= 23 / 100000000000) as Hc by (unfold c; rewrite Hu'; lra).
  set (Sx := vsum row) in *. apply Rabs_bounds in Hes.
  assert (0 <= c * Sx <= Sx / 2) as HcS by nra.
  assert (0 < Sx) as HSpos by lra.
  assert (Sx <= 2 * val s) as HS2 by lra.
  (* the quotients *)
  destruct (quotients_sum s m e Hs row) as [Hqn Hqe].
  { apply Forall_forall. intros x Hx. split.
    - rewrite Forall_forall in Hrow. apply Hrow. exact Hx.
    - pose proof (vsum_elem_le row x Hrow Hx) as Hxle. fold Sx in Hxle. lra. }
  fold k Sx in Hqe. set (T := vsum (map (λ x, (x / s)%float) row)) in *.
  set (ρ := Sx / val s) in *.
  assert (ρ * val s = Sx) as Hρ by (unfold ρ; field; lra).
  assert (1 - 23 / 100000000000 <= ρ <= 1 + 46 / 100000000000) as Hρb.
  { assert (c * ρ * val s = c * Sx) as E by (rewrite <- Hρ; ring).
    assert (0 <= ρ) by (unfold ρ; apply Rmult_le_pos; [lra|apply Rlt_le, Rinv_0_lt_compat; lra]).
    split.
    - apply Rmult_le_reg_r with (val s); [lra|]. nra.
    - apply Rmult_le_reg_r with (val s); [lra|]. nra. }
  assert (k * bpow (-1075) <= / 10000000000000000) as Hketa by nra.
  assert (0 <= k * bpow (-1075)) as Hketa0 by nra.
  apply Rabs_bounds in Hqe.
  assert (1 - 24 / 100000000000 <= T <= 1 + 47 / 100000000000) as HT by nra.
  destruct (summed_bound _ t Hquot Hqn) as [Hnt Het].
  { rewrite length_map. exact Hlen. }
  { right. fold T. lra. }
  split; [exact Hnt|].
  rewrite length_map in Het. fold k c T in Het. apply Rabs_bounds in Het.
  split; apply Rabs_le; nra.
Qed.

(** *** The test [abs(t - 1) < 1e-9] *)

Lemma SFltb_lt ma ea mc ec :
  valid_binary (S754_finite false ma ea) = true →
  (-1074 ≤ ec)%Z → (Zpos mc < 2 ^ 53)%Z →
  IZR (Zpos ma) * bpow ea < IZR (Zpos mc) * bpow ec →
  SFltb (S754_finite false ma ea) (S754_finite false mc ec) = true.
Proof.
  intros Va Hec Hmc Hlt. unfold SFltb, SFcompare.
  destruct (Z.compare_spec ea ec) as [->|Hl|Hg]; [|reflexivity|].
  - pose proof (bpow_pos ec).
    assert (IZR (Zpos ma) < IZR (Zpos mc)) as H' by nra.
    apply lt_IZR in H'.
    change (Pos.compare_cont Eq ma mc) with (ma ?= mc)%positive.
    assert ((ma ?= mc)%positive = Lt) as -> by (apply Pos.compare_lt_iff; lia).
    reflexivity.
  - exfalso.
    unfold SpecFloat.valid_binary, bounded, canonical_mantissa in Va.
    apply andb_true_iff in Va as [Hc _]. apply Z.eqb_eq in Hc. rewrite fexp_eq in Hc.
    assert (Zpos (digits2_pos ma) = 53%Z) as Hd by lia.
    pose proof (digits2_bounds ma) as [Hlo _]. rewrite Hd in Hlo.
    apply IZR_le in Hlo. apply IZR_lt in Hmc.
    pose proof (bpow_le (ec + 1) ea ltac:(lia)) as Hb. rewrite bpow_succ in Hb.
    pose proof (bpow_pos ec).
    change (IZR (2 ^ (53 - 1))) with 4503599627370496 in Hlo.
    change (IZR (2 ^ 53)) with 9007199254740992 in Hmc.
    nra.
Qed.

Lemma SF64sub_mag ma ea mb eb :
  valid_binary (S754_finite false ma ea) = true →
  valid_binary (S754_finite false mb eb) = true →
  let r := SF64sub (S754_finite false ma ea) (S754_finite false mb eb) in
  let V := Rabs (SF2R (S754_finite false ma ea) - SF2R (S754_finite false mb eb)) in
  bpow 971 / 2 <= V
  ∨ ((SFabs r = S754_zero false ∨ ∃ m e, SFabs r = S754_finite false m e)
     ∧ Rabs (mag r - V) <= bpow (-53) * V).
Proof.
  intros [Hea _]%valid_finite [Heb _]%valid_finite. cbv zeta.
  unfold SF64sub, SFsub. set (ez := Z.min ea eb).
  destruct (shl_align ma ea ez) as [ma' ea'] eqn:Ea.
  destruct (shl_align mb eb ez) as [mb' eb'] eqn:Eb.
  pose proof (shl_align_value _ _ _ _ _ Ea) as Hva.
  pose proof (shl_align_value _ _ _ _ _ Eb) as Hvb.
  apply shl_align_ok in Ea as [Hea' _]. apply shl_align_ok in Eb as [Heb' _].
  assert (ea' = ez) as -> by lia. assert (eb' = ez) as -> by lia.
  cbn [fst cond_Zopp].
  assert (SF2R (S754_finite false ma ea) - SF2R (S754_finite false mb eb)
          = IZR (Zpos ma' - Zpos mb') * bpow ez) as ->.
  { rewrite minus_IZR. simpl. lra. }
  pose proof (bpow_pos ez) as Hbz. pose proof (bpow_pos (-53)) as Hu.
  destruct (Zpos ma' - Zpos mb')%Z as [|p|p] eqn:EM; cbn [binary_normalize].
  - right. split; [left; reflexivity|].
    replace (0 * bpow ez) with 0 by ring. rewrite Rabs_R0.
    unfold mag. simpl. replace (0 - 0) with 0 by ring. rewrite Rabs_R0. lra.
  - assert (0 < IZR (Zpos p)) by (apply IZR_lt; lia).
    rewrite (Rabs_pos_eq (IZR (Zpos p) * bpow ez)) by nra.
    destruct (binary_round_ok false p ez ltac:(lia)) as [[_ H']|[(m & e & Hr) Herr]];
      [left; exact H'|right].
    rewrite Hr in *. split; [right; eauto|exact Herr].
  - assert (0 < IZR (Zpos p)) by (apply IZR_lt; lia).
    assert (Rabs (IZR (Zneg p) * bpow ez) = IZR (Zpos p) * bpow ez) as ->.
    { change (Zneg p) with (- Zpos p)%Z. rewrite opp_IZR.
      replace (- IZR (Zpos p) * bpow ez) with (- (IZR (Zpos p) * bpow ez)) by ring.
      rewrite Rabs_Ropp. apply Rabs_pos_eq. nra. }
    destruct (binary_round_ok true p ez ltac:(lia)) as [[_ H']|[(m & e & Hr) Herr]];
      [left; exact H'|right].
    rewrite Hr in *. split; [right; eauto|exact Herr].
Qed.

Lemma Prim2SF_one : Prim2SF 1%float = S754_finite false 4503599627370496 (-52).
Proof. reflexivity. Qed.

Lemma Prim2SF_1e9 : Prim2SF 1e-9%float = S754_finite false 4835703278458517 (-82).
Proof. reflexivity. Qed.

Lemma SF2R_one : SF2R (S754_finite false 4503599627370496 (-52)) = 1.
Proof.
  simpl. rewrite (bpow_neg_IZR 52). change (IZR (2 ^ 52)) with 4503599627370496. field.
Qed.

(** A value within 8e-10 of one passes the test [abs(t - 1) < 1e-9]. *)
Lemma abs_sub_one_small (t : float) :
  nonneg t → Rabs (val t - 1) <= 8 / 10000000000 →
  (abs (t - 1) <? 1e-9)%float = true.
Proof.
  intros Hn Hclose. rewrite ltb_spec, Prim2SF_1e9.
  pose proof (Prim2SF_valid (abs (t - 1))) as Vr.
  rewrite abs_spec, sub_spec, Prim2SF_one in *.
  pose proof (Prim2SF_valid t) as Vt. unfold nonneg, val in *.
  apply Rabs_bounds in Hclose.
  destruct (Prim2SF t) as [st|st| |[|] mt et]; try contradiction.
  { simpl in Hclose. lra. }
  pose proof (SF64sub_mag mt et 4503599627370496 (-52) Vt eq_refl) as H.
  cbv zeta in H. rewrite SF2R_one in H.
  set (r := SF64sub (S754_finite false mt et) (S754_finite false 4503599627370496 (-52))) in *.
  set (V := Rabs (SF2R (S754_finite false mt et) - 1)) in *.
  assert (0 <= V <= 8 / 10000000000) as HV.
  { unfold V. split; [apply Rabs_pos|apply Rabs_le; lra]. }
  pose proof bpow_m53 as Hu'.
  destruct H as [Hbig|[Hshape Herr]].
  { exfalso. pose proof bpow_971_large. lra. }
  apply Rabs_bounds in Herr. rewrite Hu' in Herr.
  destruct Hshape as [Hz|(m & e & Hf)].
  - rewrite Hz. reflexivity.
  - rewrite Hf in *. apply SFltb_lt; [exact Vr|lia|reflexivity|].
    assert (mag r = IZR (Zpos m) * bpow e) as Hm.
    { unfold mag. rewrite Hf. reflexivity. }
    rewrite <- Hm.
    rewrite (bpow_neg_IZR 82). change (IZR (2 ^ 82)) with 4835703278458516698824704.
    change (IZR (Zpos 4835703278458517)) with 4835703278458517.
    lra.
Qed.

End Renormalized.

(** *** Rows of the other sign

    Changing the sign of every entry changes the sign of every sum and
    leaves every quotient as it is, so what holds of the rows without a
    negative entry holds of the rows without a positive one. *)

Lemma binary_round_aux_opp sx m e l :
  binary_round_aux prec emax (negb sx) m e l
  = SFopp (binary_round_aux prec emax sx m e l).
Proof.
  unfold binary_round_aux.
  destruct (shr_fexp prec emax m e l) as [mrs1 e1].
  destruct (shr_fexp prec emax _ e1 loc_Exact) as [mrs2 e2].
  destruct (shr_m mrs2); try reflexivity.
  destruct (e2 <=? emax - prec)%Z; reflexivity.
Qed.

Lemma binary_normalize_opp (M : Z) e :
  M ≠ 0%Z →
  binary_normalize prec emax (- M) e false = SFopp (binary_normalize prec emax M e false).
Proof.
  intros HM. destruct M as [|p|p]; [congruence| |]; simpl; unfold binary_round;
    destruct (shl_align p e _) as [mz ez].
  - apply (binary_round_aux_opp false).
  - change true with (negb false). rewrite binary_round_aux_opp.
    destruct (binary_round_aux prec emax false _ _ _) as [[|]|[|]| |[|] ? ?]; reflexivity.
Qed.

Lemma SF64add_opp a b a' b' :
  same_but_zero a' (SFopp a) → same_but_zero b' (SFopp b) →
  same_but_zero (SF64add a' b') (SFopp (SF64add a b)).
Proof.
  intros Ha Hb.
  assert (∀ s s', same_but_zero (S754_zero s) (S754_zero s')) as Hzz
    by (intros s s'; right; eauto).
  destruct a as [sa|sa| |sa ma ea].
  - (* a is a zero, and so is a' *)
    assert (∃ s, a' = S754_zero s) as [sa' ->].
    { destruct Ha as [->|[Ha _]]; [simpl; eauto|exact Ha]. }
    destruct b as [sb|sb| |sb mb eb].
    + assert (∃ s, b' = S754_zero s) as [sb' ->].
      { destruct Hb as [->|[Hb _]]; [simpl; eauto|exact Hb]. }
      destruct sa, sb, sa', sb'; apply Hzz.
    + destruct Hb as [->|[_ [s Hs]]]; [|discriminate]. left. reflexivity.
    + destruct Hb as [->|[_ [s Hs]]]; [|discriminate]. left. reflexivity.
    + destruct Hb as [->|[_ [s Hs]]]; [|discriminate]. left. reflexivity.
  - destruct Ha as [->|[_ [s Hs]]]; [|discriminate].
    destruct b as [sb|sb| |sb mb eb].
    + assert (∃ s, b' = S754_zero s) as [sb' ->].
      { destruct Hb as [->|[Hb _]]; [simpl; eauto|exact Hb]. }
      left. reflexivity.
    + destruct Hb as [->|[_ [s Hs]]]; [|discriminate]. left. destruct sa, sb; reflexivity.
    + destruct Hb as [->|[_ [s Hs]]]; [|discriminate]. left. reflexivity.
    + destruct Hb as [->|[_ [s Hs]]]; [|discriminate]. left. reflexivity.
  - destruct Ha as [->|[_ [s Hs]]]; [|discriminate]. left. reflexivity.
  - destruct Ha as [->|[_ [s Hs]]]; [|discriminate].
    destruct b as [sb|sb| |sb mb eb].
    + assert (∃ s, b' = S754_zero s) as [sb' ->].
      { destruct Hb as [->|[Hb _]]; [simpl; eauto|exact Hb]. }
      left. reflexivity.
    + destruct Hb as [->|[_ [s Hs]]]; [|discriminate]. left. reflexivity.
    + destruct Hb as [->|[_ [s Hs]]]; [|discriminate]. left. reflexivity.
    + destruct Hb as [->|[_ [s Hs]]]; [|discriminate].
      unfold SF64add, SFopp at 1 2, SFadd.
      set (ez := Z.min ea eb).
      set (A := Zpos (fst (shl_align ma ea ez))). set (B := Zpos (fst (shl_align mb eb ez))).
      assert (cond_Zopp (negb sa) A + cond_Zopp (negb sb) B
              = - (cond_Zopp sa A + cond_Zopp sb B))%Z as ->
        by (destruct sa, sb; simpl; lia).
      destruct (Z.eq_dec (cond_Zopp sa A + cond_Zopp sb B)%Z 0%Z) as [->|Hne].
      * apply Hzz.
      * left. apply binary_normalize_opp. exact Hne.
Qed.

Lemma SF64div_opp a b : SF64div (SFopp a) (SFopp b) = SF64div a b.
Proof.
  destruct a as [[|]|[|]| |[|] ma ea], b as [[|]|[|]| |[|] mb eb]; reflexivity.
Qed.

Lemma div_opp (x s : float) : (- x) / (- s) = x / s.
Proof.
  apply Prim2SF_inj. rewrite !div_spec, !opp_spec. apply SF64div_opp.
Qed.

Lemma summed_opp l a :
  summed l a →
  ∃ a', summed (map PrimFloat.opp l) a'
        ∧ same_but_zero (Prim2SF a') (SFopp (Prim2SF a)).
Proof.
  induction 1 as [|x|l1 l2 a b _ (a' & Ha & Ea) _ (b' & Hb & Eb)|l l' a Hp _ (a' & Ha & Ea)].
  - exists 0. split; [apply summed_nil|]. right. rewrite Prim2SF_zero. simpl. eauto.
  - exists (- x). split; [apply summed_one|]. left. apply opp_spec.
  - exists (a' + b'). rewrite map_app. split; [apply summed_add; assumption|].
    rewrite !add_spec. apply SF64add_opp; assumption.
  - exists a'. split; [|exact Ea].
    eapply summed_perm; [|exact Ha]. apply Permutation_map. exact Hp.
Qed.

Lemma nonneg_opp_of_tests x : ((x <=? 0) && (neg_infinity <? x)) = true → nonneg (- x).
Proof.
  intros [H1 H2]%andb_true_iff. rewrite leb_spec, Prim2SF_zero in H1.
  rewrite ltb_spec in H2.
  replace (Prim2SF neg_infinity) with (S754_infinity true) in H2 by reflexivity.
  unfold nonneg. rewrite opp_spec.
  destruct (Prim2SF x) as [s|[|]| |[|] m e]; try exact I; discriminate.
Qed.

Lemma negative_of_tests s :
  (s <? 0) = true → (neg_infinity <? s) = true →
  ∃ m e, Prim2SF s = S754_finite true m e.
Proof.
  intros H1 H2. rewrite ltb_spec, Prim2SF_zero in H1. rewrite ltb_spec in H2.
  replace (Prim2SF neg_infinity) with (S754_infinity true) in H2 by reflexivity.
  destruct (Prim2SF s) as [s0|[|]| |[|] m e]; try discriminate; eauto.
Qed.

(** *** The rows after a sweep *)

Lemma restorable_row_tests (row : vec) (s t : float) :
  restorable row s → summed row s → summed (map (λ x, x / s) row) t →
  (abs (t - 1) <? 1e-9) = true
  ∧ (Rabs (vsum (map (λ x, (x / s)%float) row) - 1) < / 1000000000)%R.
Proof.
  intros (Hlen & Hsign) Hs Ht.
  assert (∃ row' s', Forall nonneg row' ∧ length row' = length row
                     ∧ summed row' s'
                     ∧ (∃ m e, Prim2SF s' = S754_finite false m e)
                     ∧ map (λ x, x / s') row' = map (λ x, x / s) row)
    as (row' & s' & Hn & Hl & Hs' & Hpos & Hq).
  { destruct Hsign as [(Hrow & Hpos & Hfin)|(Hrow & Hneg & Hfin)].
    - exists row, s. split; [|split; [reflexivity|split; [exact Hs|]]].
      + eapply Forall_impl; [exact Hrow|]. intros x Hx. apply nn_of_tests. exact Hx.
      + split; [apply positive_of_tests; assumption|reflexivity].
    - destruct (summed_opp row s Hs) as (s' & Hs' & Es').
      destruct (negative_of_tests s Hneg Hfin) as (m & e & Hm).
      assert (Prim2SF s' = S754_finite false m e) as Hm'.
      { rewrite Hm in Es'. destruct Es' as [E|[_ [z Hz]]]; [exact E|discriminate]. }
      assert (s' = - s) as -> by (apply Prim2SF_inj; rewrite Hm', opp_spec, Hm; reflexivity).
      exists (map PrimFloat.opp row), (- s).
      split; [|split; [apply length_map|split; [exact Hs'|split; [eauto|]]]].
      + apply Forall_map. eapply Forall_impl; [exact Hrow|].
        intros x Hx. apply nonneg_opp_of_tests. exact Hx.
      + rewrite map_map. apply map_ext. intros x. apply div_opp. }
  rewrite <- Hq in Ht |- *. rewrite <- Hl in Hlen.
  destruct (renormalized_sum_close row' s' t Hn Hlen Hs' Hpos Ht) as (Hnt & Hclose & Hexact).
  split; [apply abs_sub_one_small; assumption|].
  eapply Rle_lt_trans; [exact Hexact|]. lra.
Qed.

Lemma renormalize_restores (Qa : mat) : renormalized_from Qa (renormalize Qa).
Proof.
  split; [reflexivity|]. intros i row Hrow. eexists.
  split; [apply renormalize_lookup; exact Hrow|]. split; [reflexivity|].
  intros Hr.
  apply (restorable_row_tests row (Np.sum row) _ Hr);
    [exact (summed_fold_left row)|exact (summed_fold_left _)].
Qed.

(** The sweep that the loop ended on. *)
Lemma qrake_while_last_sweep gfn wh xmat xmat_wh targets mask maxiter fuel
    (st st' : qstate) :
  loop_cond maxiter st = true →
  qrake_while gfn wh xmat xmat_wh targets mask maxiter fuel st = Ok st' →
  ∃ stp, rtc (λ a b, sweep gfn wh xmat xmat_wh targets mask a = Ok b) st stp
         ∧ sweep gfn wh xmat xmat_wh targets mask stp = Ok st'.
Proof.
  revert st. induction fuel as [|fuel IH]; intros st Hc H; simpl in H; rewrite Hc in H;
    [discriminate|].
  apply bind_Ok in H as (st1 & Hs & H).
  destruct (loop_cond maxiter st1) eqn:Hc1.
  - destruct (IH st1 Hc1 H) as (stp & Hr & Hl). exists stp. split; [|exact Hl].
    eapply rtc_l; [exact Hs|exact Hr].
  - assert (st' = st1) as ->
      by (destruct fuel; simpl in H; rewrite Hc1 in H; congruence).
    exists st. split; [apply rtc_refl|exact Hs].
Qed.

(** A row with a finite sum that is not zero, yet not restored: entries
    of both signs cancel in the sum. Every area is on target already, so
    the sweep leaves the row [1e16, 1, -1e16, 3] as it is; its sum is 3,
    and the quotients, added up in binary64, give 1.5. *)
Lemma renormalized_mixed_signs_row :
  Np.sum [1e16; 1; -1e16; 3] = 3
  ∧ ∃ (st : qstate) (row : vec),
      qrake_run exp64 pinv_1x1 baseline_solver
        [[1e16; 1; -1e16; 3]] [1] [[1]] [[1e16]; [1]; [-1e16]; [3]]
        "raking" 1 None ENTROPY = Ok st
      ∧ qs_Q st = [row]
      ∧ row = map (λ x, x / 3) [1e16; 1; -1e16; 3]
      ∧ Np.sum row = 1.5
      ∧ (abs (Np.sum row - 1) <? 1e-9) = false.
Proof.
  split; [vm_compute; reflexivity|].
  do 2 eexists.
  repeat (split; [vm_compute; reflexivity|]).
  vm_compute; reflexivity.
Qed.

(** C3. The renormalisation [Q <- Q / rowSums(Q)] is applied at the end of
    every sweep, unconditionally: the Q a completed sweep leaves is the
    Q its loop over the areas produced with every entry divided by the
    sum of its row, and the Q [qrake] returns when at least one sweep is
    allowed is the Q of the last sweep of the run. A row of that Q passes
    [abs(sum - 1) < 1e-9] when, before the division, it had at most a
    million entries, all of one sign and none NaN or infinite, and a sum
    that is finite and not zero. That bound does not depend on the order
    in which the row is added up, and it holds of the sum of the entries
    without rounding as well. *)
Theorem sweep_renormalizes
    (np_exp : float → float) (pinv : mat → mat) (ec : solver)
    (Q : mat) (wh : vec) (xmat targets : mat)
    (method : string) (maxiter : Z) (drops : option drops_t) (obj : objective) :
  (∀ gfn xmat_wh mask (st st' : qstate),
     sweep gfn wh xmat xmat_wh targets mask st = Ok st' →
     ∃ Qa : mat,
       sweep_areas gfn xmat_wh targets mask (seq 0 (length targets)) (qs_Q st) = Ok Qa
       ∧ renormalized_from Qa (qs_Q st'))
  ∧ (∀ Qf : mat,
     (1 ≤ maxiter)%Z →
     qrake np_exp pinv ec Q wh xmat targets method maxiter drops obj = Ok Qf →
     let gfn := select_gfn np_exp pinv ec method obj in
     let xmat_wh := scale_rows xmat wh in
     ∃ (mask : list (list bool)) (st : qstate) (Qa : mat),
       get_mask targets drops = Ok mask
       ∧ rtc (λ a b, sweep gfn wh xmat xmat_wh targets mask a = Ok b) (qrake_init Q) st
       ∧ sweep_areas gfn xmat_wh targets mask (seq 0 (length targets)) (qs_Q st) = Ok Qa
       ∧ renormalized_from Qa Qf)
  ∧ (∀ (row : vec) (s t : float),
     restorable row s → summed row s → summed (map (λ x, x / s) row) t →
     (abs (t - 1) <? 1e-9) = true
     ∧ (Rabs (vsum (map (λ x, (x / s)%float) row) - 1) < / 1000000000)%R).
Proof.
  split; [|split].
  - intros gfn xmat_wh mask st st' (Qa & mw & mt & Ha & _ & _ & ->)%sweep_Ok.
    exists Qa. split; [exact Ha|]. apply renormalize_restores.
  - intros Qf Hmax H gfn xmat_wh. unfold qrake, qrake_run in H.
    apply bind_Ok in H as (st & H & [= <-]).
    apply bind_Ok in H as (mask & Hmask & H).
    apply bind_Ok in H as (st0 & Hw & Hp).
    apply post_process_Ok in Hp as (-> & _).
    apply qrake_while_last_sweep in Hw as (stp & Hreach & Hlast);
      [|apply loop_cond_init; exact Hmax].
    apply sweep_Ok in Hlast as Hparts.
    destruct Hparts as (Qa & mw & mt & Ha & _ & _ & ->).
    exists mask, stp, Qa. split; [exact Hmask|]. split; [exact Hreach|].
    split; [exact Ha|]. apply renormalize_restores.
  - apply restorable_row_tests.
Qed.

Lemma sweep_renormalizes_witness :
  (∃ Qa : mat, [[0.75000175370874067; 0.24999824629125927]] = renormalize Qa)
  ∧ (abs (Np.sum (map (λ x, x / Np.sum [0.5; 1.5]) [0.5; 1.5]) - 1) <? 1e-9) = true.
Proof.
  destruct (sweep_renormalizes exp64 pinv_1x1 baseline_solver
              [[0.5; 0.5]] [2] [[1]] [[1.5]; [0.5]] "raking" 200 None ENTROPY)
    as (_ & H2 & H3).
  split.
  - destruct (H2 [[0.75000175370874067; 0.24999824629125927]])
      as (mask & st & Qa & _ & _ & _ & HQa & _).
    + lia.
    + vm_compute; reflexivity.
    + exists Qa. exact HQa.
  - apply (H3 [0.5; 1.5] (Np.sum [0.5; 1.5])).
    + split; [simpl; lia|]. left.
      split; [repeat constructor|split; vm_compute; reflexivity].
    + exact (summed_fold_left [0.5; 1.5]).
    + exact (summed_fold_left _).
Defined.

(** C3, where the bound fails: a record whose shares are all zero. The
    areas leave its row at zero, the renormalisation divides 0 by 0, and
    after the sweep, and in the Q returned, the row sums to NaN: it is
    not within 1e-9 of 1. *)
Lemma renormalized_row_not_one :
  ∃ (st : qstate) (row : vec),
    qrake_run exp64 pinv_1x1 baseline_solver
      [[0.5; 0.5]; [0; 0]] [1; 1] [[1]; [0]] [[0.5]; [0.5]]
      "raking" 1 None ENTROPY = Ok st
    ∧ sweeps_logged (qs_log st) = 1%nat
    ∧ qs_Q st !! 1%nat = Some row
    ∧ is_nan (Np.sum row) = true
    ∧ (abs (Np.sum row - 1) <? 1e-9) = false.
Proof.
  do 2 eexists.
  repeat (split; [vm_compute; reflexivity|]).
  vm_compute; reflexivity.
Qed.

(** ** The iteration cap *)

(** C8. [qrake] makes at most [maxiter] sweeps, one printed line each, and
    the cap, not the bound of the model, is what ends the loop. The cap
    defaults to 200 whatever the method. When the counter has passed the
    cap the message about it is printed; and for a cap of at least 1, once
    the loop has ended, by the cap or otherwise, [qrake] raises nothing
    more and returns the Q of the last sweep. *)
Theorem qrake_sweeps_bounded
    (np_exp : float → float) (pinv : mat → mat) (ec : solver)
    (Q : mat) (wh : vec) (xmat targets : mat)
    (method : string) (maxiter : Z) (drops : option drops_t) (obj : objective) :
  qrake_run np_exp pinv ec Q wh xmat targets method maxiter drops obj
    ≠ Raise OutOfFuel
  ∧ (∀ st : qstate,
       qrake_run np_exp pinv ec Q wh xmat targets method maxiter drops obj = Ok st →
       Z.of_nat (sweeps_logged (qs_log st)) = (qs_iter st - 1)%Z
       ∧ (0 ≤ qs_iter st - 1 ≤ Z.max 0 maxiter)%Z
       ∧ ((maxiter < qs_iter st)%Z → EvMaxIter ∈ qs_log st))
  ∧ (∀ kw : kwargs,
       kw_maxiter kw = None →
       qrake_call_run np_exp pinv ec Q wh xmat targets kw
       = qrake_run np_exp pinv ec Q wh xmat targets
           (default default_method (kw_method kw)) 200 (kw_drops kw)
           (default default_objective (kw_objective kw)))
  ∧ ((1 ≤ maxiter)%Z →
     ∀ mask (st : qstate),
       get_mask targets drops = Ok mask →
       qrake_while (select_gfn np_exp pinv ec method obj) wh xmat
         (scale_rows xmat wh) targets mask maxiter (Z.to_nat maxiter) (qrake_init Q)
       = Ok st →
       ∃ st' : qstate,
         qrake_run np_exp pinv ec Q wh xmat targets method maxiter drops obj = Ok st'
         ∧ qs_Q st' = qs_Q st
         ∧ qrake np_exp pinv ec Q wh xmat targets method maxiter drops obj
           = Ok (qs_Q st)).
Proof.
  split; [|split; [|split]].
  - unfold qrake_run.
    destruct (get_mask targets drops) as [mask|e] eqn:Hm; simpl.
    + destruct (qrake_while _ _ _ _ _ _ _ _ _) as [st|e] eqn:Hw; simpl.
      * unfold post_process.
        destruct (Np.max (abswtdiff (qs_Q st))); simpl; [|discriminate].
        destruct (qs_abspctdiff st); simpl; [|discriminate].
        destruct (Np.max (concat _)); simpl; [|discriminate].
        destruct (Np.max (masked _ _)); simpl; discriminate.
      * intros [= ->]. revert Hw. apply qrake_while_enough_fuel.
        -- apply select_gfn_proper.
        -- simpl. lia.
    + intros [= ->]. apply get_mask_raises_IndexError in Hm. discriminate.
  - intros st H. unfold qrake_run in H.
    apply bind_Ok in H as (mask & _ & H).
    apply bind_Ok in H as (st0 & Hw & Hp).
    apply post_process_Ok in Hp as (_ & Hi & Hl).
    apply qrake_while_counts in Hw as (H1 & H2 & H3). simpl in *.
    rewrite Hi, Hl, sweeps_logged_app.
    split; [|split].
    + change (sweeps_logged []) with O in H3.
      destruct (maxiter <? qs_iter st0)%Z;
        [change (sweeps_logged [EvMaxIter]) with O
        |change (sweeps_logged []) with O]; lia.
    + lia.
    + intros Hlt. apply Z.ltb_lt in Hlt. rewrite Hlt.
      apply elem_of_app. right. left.
  - intros kw Hkw. unfold qrake_call_run. rewrite Hkw. reflexivity.
  - intros Hmax mask st Hm Hw.
    destruct (post_process_swept mask maxiter st) as [st' Hp].
    { eapply qrake_while_swept; [|exact Hw]. right. apply loop_cond_init. exact Hmax. }
    pose proof (post_process_Ok _ _ _ _ Hp) as (HQ & _).
    exists st'. unfold qrake, qrake_run. rewrite Hm. simpl. rewrite Hw. simpl.
    rewrite Hp. simpl. rewrite HQ. auto.
Qed.

Lemma qrake_sweeps_bounded_witness :
  ∃ st : qstate,
    qrake_run exp64 pinv_1x1 baseline_solver
      [[1]] [1] [[1]] [[2]] "raking-ec" 3 None QUADRATIC = Ok st
    ∧ qs_Q st = [[1]].
Proof.
  destruct (qrake_sweeps_bounded exp64 pinv_1x1 baseline_solver
              [[1]] [1] [[1]] [[2]] "raking-ec" 3 None QUADRATIC)
    as (_ & _ & _ & H).
  destruct (H ltac:(lia) [[true]]
              {| qs_Q := [[1]]; qs_iter := 4;
                 qs_max_weight_absdiff := 0; qs_max_targ_abspctdiff := 50;
                 qs_abspctdiff := Some [[50]];
                 qs_log := [EvSweep 1 0 50; EvSweep 2 0 50; EvSweep 3 0 50] |})
    as (st' & Hrun & HQ & _).
  - vm_compute; reflexivity.
  - vm_compute; reflexivity.
  - exists st'. split; [exact Hrun|exact HQ].
Defined.

(** C8, where it fails as stated: a call with method 'raking-ec' and no
    [maxiter] runs under the cap 200, not 50. With a solver that never
    moves the weights the loop makes all 200 sweeps. *)
Lemma raking_ec_default_cap_is_200 :
  ∃ st : qstate,
    qrake_call_run exp64 pinv_1x1 baseline_solver
      [[1]] [1] [[1]] [[2]] (Kwargs (Some "raking-ec"%string) None None None) = Ok st
    ∧ sweeps_logged (qs_log st) = 200%nat
    ∧ qs_iter st = 201%Z
    ∧ last (qs_log st) = Some EvMaxIter.
Proof.
  eexists.
  repeat (split; [vm_compute; reflexivity|]).
  vm_compute; reflexivity.
Qed.

(** ** The store model against the functional model *)

Lemma preserves_refl (h : store) : preserves h h.
Proof. intros l a H. exact H. Qed.

Lemma preserves_insert (h0 h : store) (l : loc) (a : mat) :
  preserves h0 h → h0 !! l = None → preserves h0 (<[l := a]> h).
Proof.
  intros Hp Hl l' a' H'. rewrite lookup_insert_ne; [apply Hp; exact H'|].
  intros Heq. rewrite Heq, H' in Hl. discriminate.
Qed.

Lemma preserves_fresh (h0 h : store) :
  preserves h0 h → h0 !! fresh (dom h) = None.
Proof.
  intros Hp. destruct (h0 !! fresh (dom h)) as [a|] eqn:E; [|reflexivity].
  apply Hp in E. exfalso. apply (is_fresh (dom h)).
  apply elem_of_dom. eauto.
Qed.

Section StoreFacts.
Context (gfn : option calibrator) (lwh lxmat ltargets : loc)
        (xmat_wh : mat) (mask : list (list bool)) (maxiter : Z).
Context (h0 : store) (whA xmat targets : mat).
Context (Hwh : h0 !! lwh = Some whA) (Hxmat : h0 !! lxmat = Some xmat)
        (Htargets : h0 !! ltargets = Some targets).

Lemma area_step_st_spec (h : store) (lq : loc) (Q : mat) (j : nat) :
  preserves h0 h → h !! lq = Some Q →
  area_step_st gfn ltargets xmat_wh mask lq j h
  = match area_step gfn xmat_wh targets mask Q j with
    | Ok Q' => (<[lq := Q']> h, Ok ())
    | Raise e => (h, Raise e)
    end.
Proof.
  intros Hp HQ.
  unfold area_step_st, area_step, mbind, St_bind, read, lift, write.
  rewrite HQ, (Hp _ _ Htargets). simpl.
  destruct (area_g gfn xmat_wh targets mask Q j) as [g|e]; simpl; [|reflexivity].
  destruct (area_apply Q j g) as [Q'|e]; reflexivity.
Qed.

Lemma sweep_areas_st_spec (js : list nat) (h : store) (lq : loc) (Q : mat) :
  preserves h0 h → h0 !! lq = None → h !! lq = Some Q →
  ∃ h' r,
    sweep_areas_st gfn ltargets xmat_wh mask js lq h = (h', r)
    ∧ preserves h0 h'
    ∧ refines (λ Q' _, h' !! lq = Some Q')
        (sweep_areas gfn xmat_wh targets mask js Q) r.
Proof.
  revert h Q. induction js as [|j js IH]; intros h Q Hp Hl HQ.
  - exists h, (Ok ()). simpl. auto.
  - simpl. unfold mbind at 1, St_bind at 1.
    rewrite (area_step_st_spec h lq Q j Hp HQ).
    destruct (area_step gfn xmat_wh targets mask Q j) as [Q1|e]; simpl.
    + apply IH.
      * apply preserves_insert; assumption.
      * assumption.
      * apply lookup_insert_eq.
    + exists h, (Raise e). simpl. auto.
Qed.

Lemma sweep_st_spec (h : store) (qs : qstate) (st : loop_state loc) :
  preserves h0 h → stands_for h0 h qs st →
  ∃ h' r,
    sweep_st gfn lwh lxmat ltargets (length targets) xmat_wh mask st h = (h', r)
    ∧ preserves h0 h'
    ∧ refines (stands_for h0 h')
        (sweep gfn (concat whA) xmat xmat_wh targets mask qs) r.
Proof.
  intros Hp (Hl & HQ & Hqs).
  destruct (sweep_areas_st_spec (seq 0 (length targets)) h (qs_Q st) (qs_Q qs) Hp Hl HQ)
    as (h1 & r1 & Hrun & Hp1 & Href).
  unfold sweep_st, sweep. unfold mbind at 1, St_bind at 1. rewrite Hrun.
  destruct (sweep_areas gfn xmat_wh targets mask (seq 0 (length targets)) (qs_Q qs))
    as [Qa|e], r1 as [[]|e1]; simpl in Href; try contradiction.
  2:{ subst e1. exists h1, (Raise e). simpl. auto. }
  unfold mbind, St_bind, read, lift, alloc. simpl.
  rewrite Href. simpl.
  destruct (Np.max (abswtdiff Qa)) as [mw|]; simpl.
  2:{ exists h1, (Raise ValueError). simpl. auto. }
  set (lq' := fresh (dom h1)).
  assert (h0 !! lq' = None) as Hfresh by (apply preserves_fresh; exact Hp1).
  assert (preserves h0 (<[lq' := renormalize Qa]> h1)) as Hp2
    by (apply preserves_insert; assumption).
  rewrite lookup_insert_eq. simpl.
  rewrite (Hp2 _ _ Hwh), (Hp2 _ _ Hxmat), (Hp2 _ _ Htargets). simpl.
  destruct (Np.max (masked _ mask)) as [mt|]; simpl.
  2:{ eexists _, (Raise ValueError). simpl. auto. }
  eexists _, (Ok _). split; [reflexivity|]. split; [exact Hp2|].
  simpl. unfold stands_for. simpl. rewrite lookup_insert_eq.
  split; [exact Hfresh|]. split; [reflexivity|].
  rewrite Hqs. reflexivity.
Qed.

Lemma loop_cond_with_Q {A B} (st : loop_state A) (q : B) :
  loop_cond maxiter (with_Q st q) = loop_cond maxiter st.
Proof. reflexivity. Qed.

Lemma qrake_while_st_spec (fuel : nat) (h : store) (qs : qstate) (st : loop_state loc) :
  preserves h0 h → stands_for h0 h qs st →
  ∃ h' r,
    qrake_while_st gfn lwh lxmat ltargets (length targets) xmat_wh mask maxiter
      fuel st h = (h', r)
    ∧ preserves h0 h'
    ∧ refines (stands_for h0 h')
        (qrake_while gfn (concat whA) xmat xmat_wh targets mask maxiter fuel qs) r.
Proof.
  revert h qs st. induction fuel as [|fuel IH]; intros h qs st Hp Hst;
    assert (loop_cond maxiter qs = loop_cond maxiter st) as Hc
      by (destruct Hst as (_ & _ & ->); reflexivity);
    cbn [qrake_while qrake_while_st]; rewrite Hc;
    destruct (loop_cond maxiter st).
  - exists h, (Raise OutOfFuel). simpl. auto.
  - exists h, (Ok st). simpl. auto.
  - destruct (sweep_st_spec h qs st Hp Hst) as (h1 & r1 & Hrun & Hp1 & Href).
    unfold mbind at 1, St_bind at 1. rewrite Hrun.
    destruct (sweep gfn (concat whA) xmat xmat_wh targets mask qs) as [qs1|e],
             r1 as [st1|e1]; simpl in Href; try contradiction.
    + simpl. apply IH; assumption.
    + subst e1. exists h1, (Raise e). simpl. auto.
  - exists h, (Ok st). simpl. auto.
Qed.

Lemma post_process_st_spec (h : store) (qs : qstate) (st : loop_state loc) :
  preserves h0 h → stands_for h0 h qs st →
  ∃ r,
    post_process_st mask maxiter st h = (h, r)
    ∧ refines (stands_for h0 h) (post_process mask maxiter qs) r.
Proof.
  intros Hp (Hl & HQ & Hqs).
  unfold post_process_st, mbind, St_bind, read, lift. rewrite HQ. simpl.
  rewrite <- Hqs.
  destruct (post_process mask maxiter qs) as [qs'|e] eqn:Hpp; simpl.
  - eexists. split; [reflexivity|]. simpl.
    apply post_process_Ok in Hpp as (HQ' & _).
    unfold stands_for. simpl. rewrite HQ'. repeat split; try assumption.
    destruct qs'. simpl in *. subst. reflexivity.
  - eexists. split; [reflexivity|]. reflexivity.
Qed.

End StoreFacts.

(** C10. [qrake] leaves its arguments alone. Whatever store [h] the caller
    holds, with [Q], [wh], [xmat] and [targets] at four locations of it
    (aliased or not), after the call every array of [h], these four
    included, is in the store unchanged, whether the call returns or
    raises; the array returned is one [h] did not hold, and its content,
    or the exception, is that of the functional model. The [drops] dict is
    passed by value here, since [qrake] only reads its items. *)
Theorem qrake_leaves_arguments
    (np_exp : float → float) (pinv : mat → mat) (ec : solver)
    (h : store) (lQ lwh lxmat ltargets : loc) (Q0 whA xmat targets : mat)
    (method : string) (maxiter : Z) (drops : option drops_t) (obj : objective) :
  h !! lQ = Some Q0 → h !! lwh = Some whA →
  h !! lxmat = Some xmat → h !! ltargets = Some targets →
  ∃ (h' : store) (r : result loc),
    qrake_st np_exp pinv ec lQ lwh lxmat ltargets method maxiter drops obj h = (h', r)
    ∧ preserves h h'
    ∧ h' !! lQ = Some Q0 ∧ h' !! lwh = Some whA
    ∧ h' !! lxmat = Some xmat ∧ h' !! ltargets = Some targets
    ∧ refines (λ Q l, h !! l = None ∧ h' !! l = Some Q)
        (qrake np_exp pinv ec Q0 (concat whA) xmat targets method maxiter drops obj) r.
Proof.
  intros HQ Hwh Hxmat Htargets.
  assert (∃ (h' : store) (r : result loc),
    qrake_st np_exp pinv ec lQ lwh lxmat ltargets method maxiter drops obj h = (h', r)
    ∧ preserves h h'
    ∧ refines (λ Q l, h !! l = None ∧ h' !! l = Some Q)
        (qrake np_exp pinv ec Q0 (concat whA) xmat targets method maxiter drops obj) r)
    as (h' & r & Hrun & Hp & Href).
  2:{ exists h', r. repeat split; auto. }
  unfold qrake_st, qrake, qrake_run.
  unfold mbind at 1 2 3 4 5, St_bind at 1 2 3 4 5, read, lift.
  rewrite Htargets, Hwh, Hxmat. simpl.
  destruct (get_mask targets drops) as [mask|e]; simpl.
  2:{ exists h, (Raise e). simpl. split; [reflexivity|]. split; [apply preserves_refl|reflexivity]. }
  rewrite HQ. simpl. unfold alloc. unfold mbind at 1, St_bind at 1.
  cbv beta iota zeta.
  set (lq := fresh (dom h)). set (h1 := <[lq := Q0]> h).
  assert (h !! lq = None) as Hfresh by (apply preserves_fresh, preserves_refl).
  assert (preserves h h1) as Hp1 by (apply preserves_insert; [apply preserves_refl|exact Hfresh]).
  assert (stands_for h h1 (qrake_init Q0) (qrake_init lq)) as Hst.
  { unfold stands_for. simpl. unfold h1. rewrite lookup_insert_eq. auto. }
  destruct (qrake_while_st_spec
              (select_gfn np_exp pinv ec method obj) lwh lxmat ltargets
              (scale_rows xmat (concat whA)) mask maxiter h whA xmat targets
              Hwh Hxmat Htargets (Z.to_nat maxiter) h1 _ _ Hp1 Hst)
    as (h2 & r2 & Hrun & Hp2 & Href).
  unfold mbind at 1, St_bind at 1. rewrite Hrun.
  destruct (qrake_while _ _ _ _ _ _ _ _ _) as [qs|e], r2 as [st|e2];
    simpl in Href; try contradiction.
  2:{ subst e2. exists h2, (Raise e). simpl. auto. }
  destruct (post_process_st_spec mask maxiter h h2 qs st Hp2 Href) as (r3 & Hrun3 & Href3).
  unfold mbind at 1, St_bind at 1. rewrite Hrun3. simpl.
  destruct (post_process mask maxiter qs) as [qs'|e], r3 as [st'|e3];
    simpl in Href3; try contradiction.
  - exists h2, (Ok (qs_Q st')). simpl. split; [reflexivity|]. split; [exact Hp2|].
    destruct Href3 as (H1 & H2 & _). auto.
  - subst e3. exists h2, (Raise e). simpl. auto.
Qed.

Lemma qrake_leaves_arguments_witness :
  let h : store :=
    {[ 1%positive := [[0.5; 0.5]]; 2%positive := [[2]];
       3%positive := [[1]]; 4%positive := [[1.5]; [0.5]] ]} in
  ∃ (h' : store) (r : result loc),
    qrake_st exp64 pinv_1x1 baseline_solver 1 2 3 4 "raking" 200 None ENTROPY h = (h', r)
    ∧ h' !! 1%positive = Some [[0.5; 0.5]]
    ∧ h' !! 2%positive = Some [[2]]
    ∧ h' !! 3%positive = Some [[1]]
    ∧ h' !! 4%positive = Some [[1.5]; [0.5]].
Proof.
  intros h.
  destruct (qrake_leaves_arguments exp64 pinv_1x1 baseline_solver h 1 2 3 4
              [[0.5; 0.5]] [[2]] [[1]] [[1.5]; [0.5]] "raking" 200 None ENTROPY)
    as (h' & r & Hrun & _ & H1 & H2 & H3 & H4 & _).
  - reflexivity.
  - reflexivity.
  - reflexivity.
  - reflexivity.
  - exists h', r. auto.
Defined.

(* ================================================================== *)
(** * More of the code *)
(* ================================================================== *)

(** ** [get_mask] on drops whose indices fit 64 bits *)

Lemma norm_index_ok (len : nat) (i : Z) :
  is_Some (norm_index len i) ↔ index_ok len i = true.
Proof.
  unfold norm_index, index_ok.
  destruct (0 <=? i)%Z eqn:E1, (i <? Z.of_nat len)%Z eqn:E2,
           (- Z.of_nat len <=? i)%Z eqn:E3, (i <? 0)%Z eqn:E4; simpl;
    split; intros H; try (eexists; reflexivity); try reflexivity;
    try (destruct H; discriminate); try discriminate; lia.
Qed.

Lemma norm_index_lt (len : nat) (i : Z) (n : nat) :
  norm_index len i = Some n → (n < len)%nat.
Proof.
  unfold norm_index.
  destruct ((0 <=? i)%Z && (i <? Z.of_nat len)%Z) eqn:E1.
  - intros [= <-]. apply andb_true_iff in E1 as [? ?]. lia.
  - destruct ((- Z.of_nat len <=? i)%Z && (i <? 0)%Z) eqn:E2; [|discriminate].
    intros [= <-]. apply andb_true_iff in E2 as [? ?]. lia.
Qed.

Lemma mapM_norm_index_ok (k : nat) (cols : list Z) :
  is_Some (mapM (norm_index k) cols) ↔ forallb (index_ok k) cols = true.
Proof.
  rewrite mapM_is_Some, forallb_forall, Forall_forall.
  split; intros H x Hx.
  - apply norm_index_ok. apply H. apply list_elem_of_In. exact Hx.
  - apply norm_index_ok. apply H. apply list_elem_of_In. exact Hx.
Qed.

(** Clearing the columns [cs] of a row. *)
Lemma clear_columns_lookup (cs : list nat) (mrow : list bool) (c : nat) :
  (c < length mrow)%nat →
  foldr (λ c acc, <[c := false]> acc) mrow cs !! c
  = if bool_decide (c ∈ cs) then Some false else mrow !! c.
Proof.
  intros Hc. induction cs as [|c0 cs IH]; simpl; [reflexivity|].
  assert (length (foldr (λ c acc, <[c := false]> acc) mrow cs) = length mrow) as Hl.
  { clear. induction cs as [|c1 cs IH]; simpl; [reflexivity|].
    rewrite length_insert. exact IH. }
  destruct (decide (c = c0)) as [->|Hne].
  - rewrite list_lookup_insert_eq by lia.
    rewrite bool_decide_eq_true_2 by left. reflexivity.
  - rewrite list_lookup_insert_ne by congruence. rewrite IH.
    destruct (decide (c ∈ cs)) as [Hin|Hnin].
    + rewrite !bool_decide_eq_true_2; [reflexivity|right; exact Hin|exact Hin].
    + rewrite !bool_decide_eq_false_2; [reflexivity| |exact Hnin].
      intros Hin. inversion Hin; subst; contradiction.
Qed.

Lemma clear_columns_length (cs : list nat) (mrow : list bool) :
  length (foldr (λ c acc, <[c := false]> acc) mrow cs) = length mrow.
Proof.
  induction cs as [|c1 cs IH]; simpl; [reflexivity|].
  rewrite length_insert. exact IH.
Qed.

Lemma mapM_norm_index_elem (k : nat) (cols : list Z) (cs : list nat) (c : nat) :
  mapM (norm_index k) cols = Some cs →
  (c ∈ cs ↔ existsb (λ col, bool_decide (norm_index k col = Some c)) cols = true).
Proof.
  intros H%mapM_Some. induction H as [|col c0 cols cs Hc _ IH]; simpl.
  - split; [intros Hin; inversion Hin|discriminate].
  - rewrite orb_true_iff, <- IH, bool_decide_eq_true, Hc. split.
    + intros Hin. inversion Hin; subst; auto.
    + intros [[= ->]|Hin]; [left|right; exact Hin].
Qed.

(** One assignment [mask[row, cols] = False]. *)
Lemma mask_assign_cells (m k : nat) (mask mask' : list (list bool))
    (row : Z) (cols : list Z) :
  has_shape m k mask →
  mask_assign m k mask row cols = Ok mask' →
  has_shape m k mask'
  ∧ ∀ r c, (r < m)%nat → (c < k)%nat →
      cell mask' r c
      = if names_cell m k r c (row, cols) then Some false else cell mask r c.
Proof.
  intros [Hm Hk] H. unfold mask_assign in H.
  destruct (norm_index m row) as [r0|] eqn:Hr0; simpl in H; [|discriminate].
  destruct (mapM (norm_index k) cols) as [cs|] eqn:Hcs; simpl in H; [|discriminate].
  injection H as <-. split.
  - split; [rewrite length_alter; exact Hm|].
    apply Forall_lookup. intros i mrow Hi.
    rewrite Forall_lookup in Hk.
    destruct (decide (r0 = i)) as [->|Hne].
    + rewrite list_lookup_alter_eq in Hi.
      destruct (mask !! i) as [mrow0|] eqn:E; [|discriminate].
      injection Hi as <-. rewrite clear_columns_length.
      eapply Hk. exact E.
    + rewrite list_lookup_alter_ne in Hi by exact Hne.
      eapply Hk. exact Hi.
  - intros r c Hr Hc. unfold cell, names_cell. simpl. rewrite Hr0.
    destruct (decide (r0 = r)) as [->|Hne].
    + rewrite bool_decide_eq_true_2 by reflexivity. simpl.
      rewrite list_lookup_alter_eq.
      destruct (mask !! r) as [mrow|] eqn:E.
      2:{ apply lookup_ge_None in E. lia. }
      simpl. rewrite clear_columns_lookup.
      2:{ rewrite Forall_lookup in Hk. rewrite (Hk r mrow E). exact Hc. }
      pose proof (mapM_norm_index_elem k cols cs c Hcs) as Hiff.
      destruct (existsb _ cols).
      * rewrite bool_decide_eq_true_2; [reflexivity|apply Hiff; reflexivity].
      * rewrite bool_decide_eq_false_2; [reflexivity|].
        intros Hin%Hiff. discriminate.
    + rewrite bool_decide_eq_false_2 by congruence. simpl.
      rewrite list_lookup_alter_ne by exact Hne. reflexivity.
Qed.

Lemma mask_drops_cells (m k : nat) (items : drops_t) (mask mask' : list (list bool)) :
  has_shape m k mask →
  mask_drops m k items mask = Ok mask' →
  has_shape m k mask'
  ∧ ∀ r c, (r < m)%nat → (c < k)%nat →
      cell mask' r c
      = if dropped m k items r c then Some false else cell mask r c.
Proof.
  revert mask. induction items as [|[row cols] items IH]; intros mask Hs H; simpl in H.
  - injection H as <-. split; [exact Hs|]. reflexivity.
  - apply bind_Ok in H as (mask1 & H1 & H).
    destruct (mask_assign_cells m k mask mask1 row cols Hs H1) as [Hs1 Hc1].
    destruct (IH mask1 Hs1 H) as [Hs' Hc']. split; [exact Hs'|].
    intros r c Hr Hc. rewrite Hc', Hc1 by assumption.
    unfold dropped. simpl.
    destruct (existsb (names_cell m k r c) items); [rewrite orb_true_r; reflexivity|].
    rewrite orb_false_r. reflexivity.
Qed.

Lemma all_true_shape (m k : nat) :
  has_shape m k (replicate m (replicate k true)).
Proof.
  split; [apply length_replicate|].
  apply Forall_lookup. intros i row Hi.
  apply lookup_replicate_1 in Hi as [-> _].
  apply length_replicate.
Qed.

Lemma all_true_cell (m k r c : nat) :
  (r < m)%nat → (c < k)%nat → cell (replicate m (replicate k true)) r c = Some true.
Proof.
  intros Hr Hc. unfold cell. rewrite lookup_replicate_2 by exact Hr. simpl.
  apply lookup_replicate_2. exact Hc.
Qed.

(** X1. For a [drops] whose row and column indices fit signed 64-bit
    integers: the mask [get_mask] returns has the shape of [targets], and
    its cell (r, c) is False exactly when some item of [drops] names row
    r (counting negative indices from the end) and lists column c; every
    other cell is True. The order of the items and repetitions do not
    matter. *)
Theorem get_mask_cells (targets : mat) (items : drops_t) (mask : list (list bool)) :
  indices_fit items →
  get_mask targets (Some items) = Ok mask →
  has_shape (length targets) (Np.ncols targets) mask
  ∧ ∀ r c, (r < length targets)%nat → (c < Np.ncols targets)%nat →
      cell mask r c
      = Some (negb (dropped (length targets) (Np.ncols targets) items r c)).
Proof.
  unfold get_mask. intros _ H.
  destruct (mask_drops_cells _ _ _ _ _ (all_true_shape _ _) H) as [Hs Hc].
  split; [exact Hs|]. intros r c Hr Hk. rewrite Hc by assumption.
  rewrite all_true_cell by assumption.
  destruct (dropped _ _ items r c); reflexivity.
Qed.

Lemma get_mask_cells_witness :
  ∃ mask : list (list bool),
    get_mask [[1; 2; 3]; [4; 5; 6]] (Some [((-1)%Z, [0%Z; (-1)%Z])]) = Ok mask
    ∧ cell mask 1 2 = Some false ∧ cell mask 1 1 = Some true.
Proof.
  eexists. split; [reflexivity|].
  assert (indices_fit [((-1)%Z, [0%Z; (-1)%Z])]) as Hfit by (repeat constructor).
  destruct (get_mask_cells [[1; 2; 3]; [4; 5; 6]] [((-1)%Z, [0%Z; (-1)%Z])] _
              Hfit eq_refl) as [_ H].
  split; [apply (H 1%nat 2%nat); simpl; lia|apply (H 1%nat 1%nat); simpl; lia].
Defined.

(** X2. For a [drops] whose indices fit signed 64-bit integers,
    [get_mask] raises exactly when an item has a row outside [-m, m) or
    a column outside [-k, k) for m x k targets, and what it raises is
    IndexError. *)
Theorem get_mask_index_error (targets : mat) (items : drops_t) :
  indices_fit items →
  if forallb (item_ok (length targets) (Np.ncols targets)) items
  then ∃ mask, get_mask targets (Some items) = Ok mask
  else get_mask targets (Some items) = Raise IndexError.
Proof.
  intros _. unfold get_mask.
  generalize (replicate (length targets) (replicate (Np.ncols targets) true)) as mask.
  induction items as [|[row cols] items IH]; intros mask; simpl; [eauto|].
  unfold item_ok at 1. simpl. unfold mask_assign.
  destruct (index_ok (length targets) row) eqn:Hrow; simpl.
  - apply norm_index_ok in Hrow as [r ->]. simpl.
    destruct (forallb (index_ok (Np.ncols targets)) cols) eqn:Hcols; simpl.
    + apply mapM_norm_index_ok in Hcols as [cs ->]. simpl. apply IH.
    + destruct (mapM (norm_index (Np.ncols targets)) cols) eqn:E; [|reflexivity].
      assert (is_Some (mapM (norm_index (Np.ncols targets)) cols)) as Hs by eauto.
      apply mapM_norm_index_ok in Hs. congruence.
  - destruct (norm_index (length targets) row) eqn:E; [|reflexivity].
    assert (is_Some (norm_index (length targets) row)) as Hs by eauto.
    apply norm_index_ok in Hs. congruence.
Qed.

Lemma get_mask_index_error_witness :
  get_mask [[1; 2; 3]; [4; 5; 6]] (Some [(5%Z, [0%Z])]) = Raise IndexError.
Proof.
  exact (get_mask_index_error [[1; 2; 3]; [4; 5; 6]] [(5%Z, [0%Z])]
           ltac:(repeat constructor)).
Defined.

(** ** [rake] on any input *)

Section RakeMore.
Context (np_exp : float → float) (pinv : mat → mat).

Lemma rake_weights_length Xs d q lam :
  length (rake_weights np_exp Xs d q lam) = (length d `min` length Xs)%nat.
Proof.
  unfold rake_weights. rewrite length_zip_with, length_map. reflexivity.
Qed.

(** What a pass leaves in [g], for an index of the range. *)
Lemma rake_body_g Xs d total q i st fl st' :
  (i ≠ rake_max_iter)%Z →
  rake_body np_exp pinv Xs d total q i st = Ok (fl, st') →
  (Np.isnan_any (rk_w1 st') || Np.isinf_any (rk_w1 st') = true
   ∧ fl = Break ∧ rk_g st' = None)
  ∨ (Np.isnan_any (rk_w1 st') || Np.isinf_any (rk_w1 st') = false
     ∧ ((fl = Break ∧ rk_g st' = rk_g st)
        ∨ (fl = Continue ∧ rk_g st' = Some (zip_with PrimFloat.div (rk_w1 st') d)))
     ∧ ∃ lam, rk_w1 st' = rake_weights np_exp Xs d q lam).
Proof.
  intros Hi. unfold rake_body.
  destruct (_ || _) eqn:Hw.
  - intros [= <- <-]. left. auto.
  - intros H. apply bind_Ok in H as (r & _ & H). right.
    destruct (r <? EPS1).
    + injection H as <- <-. simpl. split; [exact Hw|]. split; [left; auto|eauto].
    + apply Z.eqb_neq in Hi. rewrite Hi in H.
      injection H as <- <-. simpl. split; [exact Hw|]. split; [right; auto|eauto].
Qed.

Lemma rake_for_g Xs d total q range n st n' st' L :
  Forall (λ i, i ≠ rake_max_iter) range → range ≠ [] →
  (∃ g0, rk_g st = Some g0 ∧ length g0 = L) →
  L = (length d `min` length Xs)%nat →
  rake_for np_exp pinv Xs d total q range n st = Ok (n', st') →
  (rk_g st' = None ↔ Np.isnan_any (rk_w1 st') || Np.isinf_any (rk_w1 st') = true)
  ∧ (∀ g, rk_g st' = Some g → length g = L).
Proof.
  intros Hr. revert n st. induction Hr as [|i range Hi Hr IH]; intros n st Hne Hg HL H;
    [congruence|].
  simpl in H. apply bind_Ok in H as ([fl st1] & Hb & H). simpl in H.
  apply (rake_body_g _ _ _ _ _ _ _ _ Hi) in Hb as Hcases.
  destruct Hcases as [(Hbad & -> & Hg1)|(Hfin & Hfl & lam & Hw)].
  - injection H as <- <-. split.
    + split; auto.
    + intros g. rewrite Hg1. discriminate.
  - destruct Hfl as [[-> Hg1]|[-> Hg1]].
    + injection H as <- <-. destruct Hg as (g0 & Hg0 & Hl0). split.
      * rewrite Hg1, Hg0, Hfin. split; discriminate.
      * intros g. rewrite Hg1, Hg0. intros [= <-]. exact Hl0.
    + assert (∃ g0, rk_g st1 = Some g0 ∧ length g0 = L) as Hg'.
      { eexists. split; [exact Hg1|].
        rewrite length_zip_with, Hw, rake_weights_length. lia. }
      destruct range as [|i' range'].
      * simpl in H. injection H as <- <-. destruct Hg' as (g0 & Hg0 & Hl0). split.
        -- rewrite Hg0, Hfin. split; discriminate.
        -- intros g. rewrite Hg0. intros [= <-]. exact Hl0.
      * eapply IH; [discriminate|exact Hg'|exact HL|exact H].
Qed.

Lemma py_range_not_cap : Forall (λ i, i ≠ rake_max_iter) (py_range rake_max_iter).
Proof.
  apply Forall_forall. intros i Hi.
  apply rake_cap_test_false in Hi. apply Z.eqb_neq. exact Hi.
Qed.

Lemma rake_run_g Xs d total n st :
  rake_run np_exp pinv Xs d total 1 = Ok (n, st) →
  (rk_g st = None ↔ Np.isnan_any (rk_w1 st) || Np.isinf_any (rk_w1 st) = true)
  ∧ (∀ g, rk_g st = Some g → length g = (length d `min` length Xs)%nat).
Proof.
  unfold rake_run. intros H.
  eapply rake_for_g; [apply py_range_not_cap|discriminate| |reflexivity|exact H].
  eexists. split; [reflexivity|].
  unfold Np.ones. rewrite length_replicate. apply rake_weights_length.
Qed.

Lemma rake_for_one_pass Xs d total q range n st n' st' :
  range ≠ [] →
  rake_for np_exp pinv Xs d total q range n st = Ok (n', st') → (n < n')%nat.
Proof.
  destruct range as [|i range]; [congruence|]. intros _ H.
  simpl in H. apply bind_Ok in H as ([fl st1] & _ & H). simpl in H.
  destruct fl.
  - apply rake_for_passes in H. lia.
  - injection H as <- _. lia.
Qed.

(** X3. [rake] makes at least one and at most ten Newton-Raphson passes. *)
Theorem rake_pass_count Xs d total n st :
  rake_run np_exp pinv Xs d total 1 = Ok (n, st) → (1 ≤ n ≤ 10)%nat.
Proof.
  unfold rake_run. intros H. split.
  - apply rake_for_one_pass in H; [lia|discriminate].
  - apply rake_for_passes in H. simpl in H. lia.
Qed.

(** X4. [rake] returns None exactly when the pass it stopped on left a NaN
    or an infinity among the weights; in particular never for having
    used up its ten passes. *)
Theorem rake_sentinel_iff_not_finite Xs d total n st :
  rake_run np_exp pinv Xs d total 1 = Ok (n, st) →
  (rake np_exp pinv Xs d total = Ok None
   ↔ Np.isnan_any (rk_w1 st) || Np.isinf_any (rk_w1 st) = true).
Proof.
  intros H. unfold rake. rewrite H. simpl.
  apply rake_run_g in H as [<- _]. split; [intros [= ->]; reflexivity|intros ->; reflexivity].
Qed.

(** X5. When [d] has one weight for each row of [Xs], a vector returned
    by [rake] has one entry per record; the one-element array of the
    'i == max_iter' branch is never returned. *)
Theorem rake_g_length Xs d total g :
  length d = length Xs →
  rake np_exp pinv Xs d total = Ok (Some g) →
  length g = length d.
Proof.
  unfold rake. intros Hd H. apply bind_Ok in H as ([n st] & Hrun & [= Hg]).
  apply rake_run_g in Hrun as [_ Hl]. rewrite (Hl g Hg). lia.
Qed.

Lemma rake_residual_None tr total :
  rake_residual tr total = None ↔ tr = [] ∨ total = [].
Proof.
  unfold rake_residual, Np.max.
  destruct tr, total; simpl; split; auto; try discriminate.
  intros [|]; discriminate.
Qed.

Lemma rake_for_no_targets Xs d q i range n st :
  (∃ st', rake_for np_exp pinv Xs d [] q (i :: range) n st = Ok (S n, st')
          ∧ rk_g st' = None)
  ∨ rake_for np_exp pinv Xs d [] q (i :: range) n st = Raise ValueError.
Proof.
  simpl. unfold rake_body.
  destruct (_ || _); simpl.
  - left. eexists. split; reflexivity.
  - right.
    assert (∀ tr, rake_residual tr [] = None) as ->
      by (intros tr; apply rake_residual_None; auto).
    reflexivity.
Qed.

Lemma rake_no_targets Xs d :
  rake np_exp pinv Xs d [] = Ok None
  ∨ rake np_exp pinv Xs d [] = Raise ValueError.
Proof.
  unfold rake, rake_run.
  assert (∃ i range, py_range rake_max_iter = i :: range) as (i & range & ->)
    by (eexists _, _; reflexivity).
  destruct (rake_for_no_targets Xs d 1 i range O (rake_init np_exp Xs d 1))
    as [(st' & -> & Hg)| ->]; simpl.
  - left. rewrite Hg. reflexivity.
  - right. reflexivity.
Qed.

End RakeMore.

Lemma rake_pass_count_witness : (1 ≤ 5 ≤ 10)%nat.
Proof.
  eapply (rake_pass_count exp64 pinv_1x1 [[1]; [1]; [1]] [1; 1; 1] [6]).
  vm_compute; reflexivity.
Defined.

Lemma rake_sentinel_iff_not_finite_witness :
  rake exp64 pinv_1x1 [[1]; [1]] [1; 2] [1e6] = Ok None.
Proof.
  eapply (rake_sentinel_iff_not_finite exp64 pinv_1x1 [[1]; [1]] [1; 2] [1e6]).
  - vm_compute; reflexivity.
  - vm_compute; reflexivity.
Defined.

Lemma rake_g_length_witness :
  ∃ g : vec,
    rake exp64 pinv_1x1 [[1]; [2]; [3]] [1; 1; 1] [7] = Ok (Some g)
    ∧ length g = 3%nat.
Proof.
  eexists. split; [vm_compute; reflexivity|].
  apply (rake_g_length exp64 pinv_1x1 [[1]; [2]; [3]] [1; 1; 1] [7]).
  - reflexivity.
  - vm_compute; reflexivity.
Defined.

(** ** [gec] *)

Lemma substituted_weights_nonzero (wh : vec) :
  existsb (λ w, w =? 0) (map (λ w, if w =? 0 then SMALL_POSITIVE else w) wh) = false.
Proof.
  induction wh as [|w wh IH]; simpl; [reflexivity|].
  rewrite IH, orb_false_r.
  destruct (w =? 0) eqn:E; [vm_compute; reflexivity|exact E].
Qed.

Lemma substituted_weights_idem (wh : vec) :
  map (λ w, if w =? 0 then SMALL_POSITIVE else w)
      (map (λ w, if w =? 0 then SMALL_POSITIVE else w) wh)
  = map (λ w, if w =? 0 then SMALL_POSITIVE else w) wh.
Proof.
  induction wh as [|w wh IH]; simpl; [reflexivity|].
  rewrite IH. f_equal.
  destruct (w =? 0) eqn:E; [vm_compute; reflexivity|rewrite E; reflexivity].
Qed.

(** X7. [gec] never hands the solver a zero baseline weight: a weight of
    zero (of either sign) is replaced by the smallest positive double
    first, and the result is that of the call with the weights so
    replaced. *)
Theorem gec_replaces_zero_weights (ec : solver) (xmat : mat) (wh targets : vec)
    (tw : option vec) (obj : objective) (inc : float) :
  gec (guard_zero_weights ec) xmat wh targets tw obj inc
  = gec ec xmat wh targets tw obj inc
  ∧ gec ec xmat (map (λ w, if w =? 0 then SMALL_POSITIVE else w) wh) targets tw obj inc
    = gec ec xmat wh targets tw obj inc.
Proof.
  unfold gec, guard_zero_weights. split.
  - rewrite substituted_weights_nonzero. reflexivity.
  - rewrite substituted_weights_idem. reflexivity.
Qed.

(** ** [qrake]: shapes and exceptions *)

Lemma set_col_lengths (j : nat) (c : vec) (Q : mat) :
  length c = length Q → map length (set_col j c Q) = map length Q.
Proof.
  unfold set_col. revert c.
  induction Q as [|row Q IH]; intros [|x c] Hl; try discriminate; [reflexivity|].
  simpl in *. rewrite length_insert, IH by lia. reflexivity.
Qed.

Lemma renormalize_lengths (Q : mat) : map length (renormalize Q) = map length Q.
Proof.
  unfold renormalize, renormalize_with.
  induction Q as [|row Q IH]; simpl; [reflexivity|].
  rewrite length_map, IH. reflexivity.
Qed.

Section ShapeFacts.
Context (gfn : option calibrator) (wh : vec) (xmat xmat_wh targets : mat)
        (mask : list (list bool)) (maxiter : Z).

Lemma area_step_lengths Q j Q' :
  area_step gfn xmat_wh targets mask Q j = Ok Q' → map length Q' = map length Q.
Proof.
  unfold area_step, area_apply. intros H.
  apply bind_Ok in H as (g & _ & H).
  apply bind_Ok in H as (d & Hd%of_option_Ok & H).
  apply bind_Ok in H as (c & Hc%of_option_Ok & [= <-]).
  apply set_col_lengths.
  apply broadcast_mul_length in Hc. apply get_col_length in Hd. congruence.
Qed.

Lemma sweep_areas_lengths js Q Q' :
  sweep_areas gfn xmat_wh targets mask js Q = Ok Q' → map length Q' = map length Q.
Proof.
  revert Q. induction js as [|j js IH]; intros Q H; simpl in H.
  - injection H as <-. reflexivity.
  - apply bind_Ok in H as (Q1 & H1 & H).
    apply IH in H. apply area_step_lengths in H1. congruence.
Qed.

Lemma sweep_lengths (st st' : qstate) :
  sweep gfn wh xmat xmat_wh targets mask st = Ok st' →
  map length (qs_Q st') = map length (qs_Q st).
Proof.
  intros (Qa & mw & mt & Ha & _ & _ & ->)%sweep_Ok. simpl.
  rewrite renormalize_lengths. eapply sweep_areas_lengths. exact Ha.
Qed.

Lemma qrake_while_lengths fuel (st st' : qstate) :
  qrake_while gfn wh xmat xmat_wh targets mask maxiter fuel st = Ok st' →
  map length (qs_Q st') = map length (qs_Q st).
Proof.
  revert st. induction fuel as [|fuel IH]; intros st H; simpl in H.
  - destruct (loop_cond maxiter st); [discriminate|]. injection H as <-. reflexivity.
  - destruct (loop_cond maxiter st); [|injection H as <-; reflexivity].
    apply bind_Ok in H as (st1 & Hs & H).
    apply IH in H. apply sweep_lengths in Hs. congruence.
Qed.

End ShapeFacts.

(** X8. [qrake] never resizes Q: the matrix it returns has as many rows
    as the Q it was given, each as long as before. *)
Theorem qrake_keeps_shape
    (np_exp : float → float) (pinv : mat → mat) (ec : solver)
    (Q : mat) (wh : vec) (xmat targets : mat)
    (method : string) (maxiter : Z) (drops : option drops_t) (obj : objective)
    (Qf : mat) :
  qrake np_exp pinv ec Q wh xmat targets method maxiter drops obj = Ok Qf →
  length Qf = length Q ∧ map length Qf = map length Q.
Proof.
  unfold qrake, qrake_run. intros H.
  apply bind_Ok in H as (st & H & [= <-]).
  apply bind_Ok in H as (mask & _ & H).
  apply bind_Ok in H as (st0 & Hw & Hp).
  apply post_process_Ok in Hp as (-> & _).
  apply qrake_while_lengths in Hw. simpl in Hw.
  split; [|exact Hw].
  rewrite <- (length_map length (qs_Q st0)), Hw. apply length_map.
Qed.

Lemma qrake_keeps_shape_witness :
  ∃ Qf : mat,
    qrake exp64 pinv_1x1 baseline_solver
      [[0.5; 0.5]; [0.25; 0.75]] [2; 4] [[1]; [1]] [[3]; [3]]
      "raking" 200 None ENTROPY = Ok Qf
    ∧ length Qf = 2%nat ∧ map length Qf = [2; 2]%nat.
Proof.
  eexists. split; [vm_compute; reflexivity|].
  apply (qrake_keeps_shape exp64 pinv_1x1 baseline_solver
           [[0.5; 0.5]; [0.25; 0.75]] [2; 4] [[1]; [1]] [[3]; [3]]
           "raking" 200 None ENTROPY).
  vm_compute; reflexivity.
Defined.

(** X9. With a method other than 'raking' and 'raking-ec' the calibrator
    is never bound: as soon as there is an area to calibrate and the cap
    allows a sweep, [qrake] raises UnboundLocalError. *)
Theorem qrake_unknown_method
    (np_exp : float → float) (pinv : mat → mat) (ec : solver)
    (Q : mat) (wh : vec) (xmat targets : mat)
    (method : string) (maxiter : Z) (drops : option drops_t) (obj : objective)
    (mask : list (list bool)) :
  String.eqb method "raking" = false →
  String.eqb method "raking-ec" = false →
  targets ≠ [] → (1 ≤ maxiter)%Z →
  get_mask targets drops = Ok mask →
  qrake np_exp pinv ec Q wh xmat targets method maxiter drops obj
  = Raise UnboundLocalError.
Proof.
  intros H1 H2 Ht Hmax Hm. unfold qrake, qrake_run. rewrite Hm. simpl.
  unfold select_gfn. rewrite H1, H2.
  destruct (Z.to_nat maxiter) as [|fuel] eqn:Hf; [lia|].
  simpl qrake_while. rewrite loop_cond_init by exact Hmax.
  unfold sweep. destruct targets as [|t targets']; [congruence|]. reflexivity.
Qed.

Lemma qrake_unknown_method_witness :
  qrake exp64 pinv_1x1 baseline_solver [[1]] [1] [[1]] [[1]]
    "rake" 200 None ENTROPY = Raise UnboundLocalError.
Proof.
  apply (qrake_unknown_method exp64 pinv_1x1 baseline_solver
           [[1]] [1] [[1]] [[1]] "rake" 200 None ENTROPY [[true]]);
    try reflexivity; [discriminate|lia].
Defined.

(** X10. With [maxiter] below 1 no sweep is made and [qrake] never
    returns. When Q has a record and [drops] is None or names cells of
    [targets] only, what ends the call is UnboundLocalError: the summary
    after the loop reads [abspctdiff], which only a sweep assigns. *)
Theorem qrake_without_sweep_raises
    (np_exp : float → float) (pinv : mat → mat) (ec : solver)
    (Q : mat) (wh : vec) (xmat targets : mat)
    (method : string) (maxiter : Z) (drops : option drops_t) (obj : objective) :
  (maxiter < 1)%Z →
  (∃ e, qrake np_exp pinv ec Q wh xmat targets method maxiter drops obj = Raise e)
  ∧ (Q ≠ [] → (∃ mask, get_mask targets drops = Ok mask) →
     qrake np_exp pinv ec Q wh xmat targets method maxiter drops obj
     = Raise UnboundLocalError).
Proof.
  intros Hmax. unfold qrake, qrake_run.
  destruct (get_mask targets drops) as [mask|e] eqn:Hm; simpl.
  - replace (Z.to_nat maxiter) with O by lia. simpl.
    assert (loop_cond maxiter (qrake_init Q) = false) as ->.
    { unfold loop_cond, within_cap. simpl qs_iter.
      apply andb_false_iff. right. apply Z.leb_gt. lia. }
    simpl. unfold post_process. simpl qs_Q.
    destruct Q as [|row Q']; simpl.
    + split; [eauto|]. congruence.
    + split; [eauto|]. reflexivity.
  - split; [eauto|]. intros _ [? [=]].
Qed.

Lemma qrake_without_sweep_raises_witness :
  qrake exp64 pinv_1x1 baseline_solver [[1]] [1] [[1]] [[1]]
    "raking" 0 None ENTROPY = Raise UnboundLocalError.
Proof.
  destruct (qrake_without_sweep_raises exp64 pinv_1x1 baseline_solver
              [[1]] [1] [[1]] [[1]] "raking" 0 None ENTROPY)
    as (_ & He); [lia|].
  apply He.
  - discriminate.
  - eexists. reflexivity.
Defined.

Lemma select_none {A} (keep : list bool) (v : list A) :
  Forall (λ b, b = false) keep → Np.select keep v = [].
Proof.
  intros H. revert v. induction H as [|b keep -> _ IH]; intros [|x v]; simpl; auto.
Qed.

Section RaiseFacts.
Context (gfn : option calibrator) (wh : vec) (xmat xmat_wh targets : mat)
        (mask : list (list bool)) (maxiter : Z).

(** An area whose step always raises makes the loop over the areas
    raise. *)
Lemma sweep_areas_raises_at js j Q :
  j ∈ js →
  (∀ Q', ∃ e, area_g gfn xmat_wh targets mask Q' j = Raise e) →
  ∃ e, sweep_areas gfn xmat_wh targets mask js Q = Raise e.
Proof.
  intros Hj Hbad. revert Q. induction js as [|j0 js IH]; intros Q; [inversion Hj|].
  simpl. destruct (decide (j0 = j)) as [->|Hne].
  - unfold area_step. destruct (Hbad Q) as [e ->]. simpl. eauto.
  - destruct (area_step gfn xmat_wh targets mask Q j0) as [Q1|e]; simpl; [|eauto].
    apply IH. inversion Hj; subst; [congruence|assumption].
Qed.

End RaiseFacts.

(** X12. An area all of whose targets are dropped stops the 'raking'
    method: [rake] has nothing to fit, and as soon as the cap allows a
    sweep [qrake] raises instead of returning. *)
Theorem qrake_area_without_targets
    (np_exp : float → float) (pinv : mat → mat) (ec : solver)
    (Q : mat) (wh : vec) (xmat targets : mat)
    (maxiter : Z) (drops : option drops_t) (obj : objective)
    (mask : list (list bool)) (j : nat) (mrow : list bool) :
  get_mask targets drops = Ok mask →
  (j < length targets)%nat →
  mask !! j = Some mrow → Forall (λ b, b = false) mrow →
  (1 ≤ maxiter)%Z →
  ∃ e, qrake np_exp pinv ec Q wh xmat targets "raking" maxiter drops obj = Raise e.
Proof.
  intros Hm Hj Hrow Hall Hmax. unfold qrake, qrake_run. rewrite Hm. simpl.
  destruct (Z.to_nat maxiter) as [|fuel] eqn:Hf; [lia|].
  simpl qrake_while. rewrite loop_cond_init by exact Hmax.
  unfold sweep.
  destruct (sweep_areas_raises_at
              (select_gfn np_exp pinv ec "raking" obj) (scale_rows xmat wh)
              targets mask (seq 0 (length targets)) j (qs_Q (qrake_init Q)))
    as [e ->].
  - apply elem_of_seq. lia.
  - intros Q'. unfold area_g, area_call. simpl.
    destruct (get_col j Q') as [d|]; simpl; [|eauto].
    rewrite Hrow. simpl. rewrite (select_none mrow) by exact Hall.
    destruct (rake_no_targets np_exp pinv
                (Np.select_cols mrow (scale_rows xmat wh)) d) as [-> | ->];
      simpl; eauto.
  - simpl. eauto.
Qed.

Lemma qrake_area_without_targets_witness :
  ∃ e, qrake exp64 pinv_1x1 baseline_solver
         [[0.5; 0.5]] [2] [[1]] [[1.5]; [0.5]]
         "raking" 200 (Some [(1%Z, [0%Z])]) ENTROPY = Raise e.
Proof.
  apply (qrake_area_without_targets exp64 pinv_1x1 baseline_solver
           [[0.5; 0.5]] [2] [[1]] [[1.5]; [0.5]] 200 (Some [(1%Z, [0%Z])]) ENTROPY
           [[true]; [false]] 1 [false]).
  - reflexivity.
  - simpl. lia.
  - reflexivity.
  - repeat constructor.
  - lia.
Defined.

(** ** [qrakeec] *)

Section EcFacts.
Context (ec : solver) (xmat_wh targets : mat).

Lemma sweep_ec_Ok st st' :
  sweep_ec ec xmat_wh targets st = Ok st' →
  ec_iter st' = (ec_iter st + 1)%Z ∧ ∃ Qa, ec_Q st' = renormalize Qa.
Proof.
  unfold sweep_ec. intros H. apply bind_Ok in H as (Qn & _ & [= <-]).
  simpl. eauto.
Qed.

Lemma while_ec_Ok fuel st st' :
  while_ec ec xmat_wh targets fuel st = Ok st' →
  cond_ec st' = false
  ∧ (ec_iter st ≤ ec_iter st' ≤ Z.max (ec_iter st) (MAX_ITER_ec + 1))%Z
  ∧ (cond_ec st = true → ∃ Qa, ec_Q st' = renormalize Qa)
  ∧ (cond_ec st = true → ec_iter st < ec_iter st')%Z.
Proof.
  revert st. induction fuel as [|fuel IH]; intros st H; simpl in H.
  - destruct (cond_ec st) eqn:Hc; [discriminate|]. injection H as <-.
    repeat split; try lia; try discriminate. exact Hc.
  - destruct (cond_ec st) eqn:Hc.
    + apply bind_Ok in H as (st1 & Hs & H).
      apply sweep_ec_Ok in Hs as (Hi & Qa & HQ).
      destruct (IH _ H) as (Hc' & Hb & HQ' & Hlt).
      assert (ec_iter st ≤ MAX_ITER_ec)%Z
        by (unfold cond_ec in Hc; apply andb_true_iff in Hc as [_ Hc]; lia).
      split; [exact Hc'|]. split; [lia|]. split; [|lia].
      intros _. destruct (cond_ec st1) eqn:Hc1; [apply HQ'; reflexivity|].
      destruct fuel; simpl in H; rewrite Hc1 in H; injection H as <-; eauto.
    + injection H as <-. repeat split; try lia; try discriminate. exact Hc.
Qed.

End EcFacts.

Lemma cond_ec_init (Q : mat) : cond_ec (init_ec Q) = true.
Proof. vm_compute; reflexivity. Qed.

(** X14. When [qrakeec] returns it has made at least one and at most ten
    sweeps, its stopping test fails, and the Q returned is a renormalised
    one: every entry over the sum of its row. *)
Theorem qrakeec_sweeps (ec : solver) (Q : mat) (wh : vec) (xmat targets : mat)
    (st : ec_state) :
  qrakeec_run ec Q wh xmat targets = Ok st →
  (1 ≤ ec_iter st - 1 ≤ 10)%Z
  ∧ cond_ec st = false
  ∧ ∃ Qa, qrakeec ec Q wh xmat targets = Ok (renormalize Qa).
Proof.
  intros H. unfold qrakeec. rewrite H. simpl.
  unfold qrakeec_run in H.
  apply while_ec_Ok in H as (Hc & Hb & HQ & Hlt).
  specialize (HQ (cond_ec_init Q)) as (Qa & ->).
  specialize (Hlt (cond_ec_init Q)).
  simpl in Hb, Hlt. unfold MAX_ITER_ec in Hb.
  split; [lia|]. split; [exact Hc|]. eauto.
Qed.

Lemma qrakeec_sweeps_witness :
  ∃ Qa, qrakeec baseline_solver [[0.5; 0.5]] [2] [[1]] [[1]; [1]]
        = Ok (renormalize Qa).
Proof.
  eapply (qrakeec_sweeps baseline_solver [[0.5; 0.5]] [2] [[1]] [[1]; [1]]).
  vm_compute; reflexivity.
Defined.

(** ** [qrake_bak] *)

Section QbakFacts.
Context (np_exp : float → float) (pinv : mat → mat)
        (wh : vec) (xmat xmat_wh targets : mat).

Lemma sweep_qbak_Ok st st' :
  sweep_qbak np_exp pinv wh xmat xmat_wh targets st = Ok st' →
  bk_iter st' = (bk_iter st + 1)%Z ∧ ∃ Qa, bk_Q st' = renormalize Qa.
Proof.
  unfold sweep_qbak. intros H.
  apply bind_Ok in H as (Qa & _ & H).
  apply bind_Ok in H as (mx & _ & H).
  apply bind_Ok in H as (mp & _ & [= <-]). simpl. eauto.
Qed.

Lemma while_qbak_Ok fuel st st' :
  while_qbak np_exp pinv wh xmat xmat_wh targets fuel st = Ok st' →
  cond_qbak st' = false
  ∧ (bk_iter st ≤ bk_iter st' ≤ Z.max (bk_iter st) (MAX_ITER_bak + 1))%Z
  ∧ (cond_qbak st = true → ∃ Qa, bk_Q st' = renormalize Qa)
  ∧ (cond_qbak st = true → bk_iter st < bk_iter st')%Z.
Proof.
  revert st. induction fuel as [|fuel IH]; intros st H; simpl in H.
  - destruct (cond_qbak st) eqn:Hc; [discriminate|]. injection H as <-.
    repeat split; try lia; try discriminate. exact Hc.
  - destruct (cond_qbak st) eqn:Hc.
    + apply bind_Ok in H as (st1 & Hs & H).
      apply sweep_qbak_Ok in Hs as (Hi & Qa & HQ).
      destruct (IH _ H) as (Hc' & Hb & HQ' & Hlt).
      assert (bk_iter st ≤ MAX_ITER_bak)%Z
        by (unfold cond_qbak in Hc; apply andb_true_iff in Hc as [_ Hc]; lia).
      split; [exact Hc'|]. split; [lia|]. split; [|lia].
      intros _. destruct (cond_qbak st1) eqn:Hc1; [apply HQ'; reflexivity|].
      destruct fuel; simpl in H; rewrite Hc1 in H; injection H as <-; eauto.
    + injection H as <-. repeat split; try lia; try discriminate. exact Hc.
Qed.

End QbakFacts.

Lemma cond_qbak_init (Q : mat) : cond_qbak (init_qbak Q) = true.
Proof. vm_compute; reflexivity. Qed.

(** X16. When [qrake_bak] returns it has made at least one and at most
    200 sweeps and the Q returned is a renormalised one. It stopped
    because one of its tests failed: the largest row-sum difference, in
    percent, is not above 0.1, or the largest target difference is not
    above 1 percent, or the cap is passed. *)
Theorem qrake_bak_stops
    (np_exp : float → float) (pinv : mat → mat)
    (Q : mat) (wh : vec) (xmat targets : mat) (st : bak_state) :
  qrake_bak_run np_exp pinv Q wh xmat targets = Ok st →
  (1 ≤ bk_iter st - 1 ≤ 200)%Z
  ∧ ((MAX_ABSDIFF <? bk_maxadiff st) = false
     ∨ (MAX_PDIFF <? bk_maxpdiff st) = false
     ∨ bk_iter st = 201%Z)
  ∧ ∃ Qa, qrake_bak np_exp pinv Q wh xmat targets = Ok (renormalize Qa).
Proof.
  intros H. unfold qrake_bak. rewrite H. simpl.
  unfold qrake_bak_run in H.
  apply while_qbak_Ok in H as (Hc & Hb & HQ & Hlt).
  specialize (HQ (cond_qbak_init Q)) as (Qa & ->).
  specialize (Hlt (cond_qbak_init Q)).
  simpl in Hb, Hlt. unfold MAX_ITER_bak in Hb.
  split; [lia|]. split; [|eauto].
  unfold cond_qbak in Hc.
  apply andb_false_iff in Hc as [Hc|Hc].
  - apply andb_false_iff in Hc as [Hc|Hc]; auto.
  - right. right. apply Z.leb_gt in Hc. unfold MAX_ITER_bak in Hc. lia.
Qed.

Lemma qrake_bak_stops_witness :
  ∃ Qa, qrake_bak exp64 pinv_1x1 [[0.5; 0.5]] [2] [[1]] [[1.5]; [0.5]]
        = Ok (renormalize Qa).
Proof.
  eapply (qrake_bak_stops exp64 pinv_1x1 [[0.5; 0.5]] [2] [[1]] [[1.5]; [0.5]]).
  vm_compute; reflexivity.
Defined.
